(** * shipctl [deploy]: the revision-promotion pipeline of [cmd/deploy.go]

    A shallow embedding of [cmd/deploy.go] and of the library entry points
    it calls, followed by the properties of the pipeline.

    - Go strings are [string]; Go [*string], [*int64], [*bool] fields of the
      AWS SDK structs are [option] values, and dereferencing [None] is the
      run-time panic of a nil dereference.
    - A Go function returning [(T, error)] returns [Res T]: a value, an
      [error], or a run-time panic.
    - Calls to AWS, to the history manager and to the logger are steps of an
      abstract [Platform]; the pipeline runs in a monad that threads the
      platform state and records every external call, in order, as a trace
      of [Event]s.
    - [createNewTaskDefinition] is given twice: on values, and on a store of
      Go objects addressed by pointers ([Module Mem]) where copies,
      allocations and field stores are explicit. *)

From Stdlib Require Import ZArith Ascii String DecimalString.
From stdpp Require Import base option list strings gmap fin_maps.

Local Open Scope string_scope.
Local Open Scope list_scope.

(** ** Go results *)

Inductive error : Type :=
  | errorString (msg : string)          (* errors.New, fmt.Errorf *)
  | awsError (code : string).           (* an awserr.Error returned by the SDK *)

Inductive panic : Type :=
  | NilDereference                      (* invalid memory address or nil pointer dereference *)
  | IndexOutOfRange                     (* index out of range *)
  | InterfaceConversion (want : string) (* interface conversion: ... is not want *)
  | MustPanic (e : error).              (* panic(err) raised by a Must* helper *)

Inductive Res (A : Type) : Type :=
  | Ok (a : A)
  | Err (e : error)
  | Panic (p : panic).
Arguments Ok {A} a.
Arguments Err {A} e.
Arguments Panic {A} p.

Definition res_bind {A B : Type} (r : Res A) (k : A -> Res B) : Res B :=
  match r with
  | Ok a => k a
  | Err e => Err e
  | Panic p => Panic p
  end.

(** [*p] for a pointer-typed field. *)
Definition deref {A : Type} (p : option A) : Res A :=
  match p with
  | Some a => Ok a
  | None => Panic NilDereference
  end.

(** ** Regular expressions

    Go's [regexp] returns the match a backtracking search finds first
    (leftmost-first).  The matcher below is that search, written with a
    continuation; [Group i r] records the text matched by [r] as submatch
    [i].  All expressions used by the program are anchored at both ends. *)

Module regexp.

Inductive Regexp : Type :=
  | Empty
  | Char (p : ascii -> bool)
  | Seq (r1 r2 : Regexp)
  | Alt (r1 r2 : Regexp)
  | Star (r : Regexp)
  | Group (i : nat) (r : Regexp).

Definition submatches := list (nat * list ascii).

Fixpoint run (r : Regexp) (s : list ascii) (c : submatches)
    (k : list ascii -> submatches -> option submatches) : option submatches :=
  match r with
  | Empty => k s c
  | Char p =>
      match s with
      | a :: s' => if p a then k s' c else None
      | [] => None
      end
  | Seq r1 r2 => run r1 s c (fun s' c' => run r2 s' c' k)
  | Alt r1 r2 =>
      match run r1 s c k with
      | Some m => Some m
      | None => run r2 s c k
      end
  | Star r1 =>
      (fix iter (n : nat) (s : list ascii) (c : submatches) {struct n} :=
         match n with
         | O => k s c
         | S n' =>
             match run r1 s c (fun s' c' =>
                      if Nat.ltb (length s') (length s) then iter n' s' c' else None) with
             | Some m => Some m
             | None => k s c
             end
         end) (length s) s c
  | Group i r1 =>
      run r1 s c (fun s' c' => k s' ((i, take (length s - length s') s) :: c'))
  end.

(** [(?:r)+], [(?:r)?], a literal, [r{n}], [r{0,n}], [r{n,}]. *)
Definition Plus (r : Regexp) : Regexp := Seq r (Star r).
Definition Opt (r : Regexp) : Regexp := Alt r Empty.
Definition chr (a : ascii) : Regexp := Char (Ascii.eqb a).
Fixpoint Lit (s : string) : Regexp :=
  match s with
  | EmptyString => Empty
  | String a s' => Seq (chr a) (Lit s')
  end.
Fixpoint Times (n : nat) (r : Regexp) : Regexp :=
  match n with
  | O => Empty
  | S n' => Seq r (Times n' r)
  end.
Fixpoint UpTo (n : nat) (r : Regexp) : Regexp :=
  match n with
  | O => Empty
  | S n' => Opt (Seq r (UpTo n' r))
  end.
Definition AtLeast (n : nat) (r : Regexp) : Regexp := Seq (Times n r) (Star r).
Fixpoint Alts (rs : list Regexp) : Regexp :=
  match rs with
  | [] => Empty
  | [r] => r
  | r :: rs' => Alt r (Alts rs')
  end.
Fixpoint Seqs (rs : list Regexp) : Regexp :=
  match rs with
  | [] => Empty
  | [r] => r
  | r :: rs' => Seq r (Seqs rs')
  end.

(** Character classes. *)
Definition between (lo hi : ascii) (a : ascii) : bool :=
  (N.leb (N_of_ascii lo) (N_of_ascii a) && N.leb (N_of_ascii a) (N_of_ascii hi))%bool.
Definition digit (a : ascii) : bool := between "0" "9" a.
Definition lower (a : ascii) : bool := between "a" "z" a.
Definition upper (a : ascii) : bool := between "A" "Z" a.
Definition oneof (s : string) (a : ascii) : bool :=
  existsb (Ascii.eqb a) (list_ascii_of_string s).
Definition word (a : ascii) : bool := (digit a || lower a || upper a || Ascii.eqb a "_")%bool.
Definition xdigit (a : ascii) : bool :=
  (digit a || between "a" "f" a || between "A" "F" a)%bool.

(** [^r$] with [FindStringSubmatch]: [None] is Go's nil slice. *)
Definition FindStringSubmatch (r : Regexp) (s : string) : option submatches :=
  run r (list_ascii_of_string s) []
    (fun rest c => match rest with [] => Some c | _ :: _ => None end).

Definition MatchString (r : Regexp) (s : string) : bool :=
  match FindStringSubmatch r s with Some _ => true | None => false end.

(** [matches[i]]: the text of the last participation of group [i], or the
    empty string when the group did not take part in the match. *)
Fixpoint submatch (i : nat) (c : submatches) : string :=
  match c with
  | [] => ""
  | (j, t) :: c' => if Nat.eqb i j then string_of_list_ascii t else submatch i c'
  end.

End regexp.

(** ** [github.com/docker/distribution/reference]

    The part of the library that [parseDockerImage] calls: the reference
    grammar of its [regexp.go], [Parse], the dynamic types a parsed
    [Reference] can have with the interfaces each implements, and
    [SplitHostname]. *)

Module reference.
Import regexp.

(** Builders of [regexp.go]. *)
Definition expression := Seqs.
Definition optional (rs : list Regexp) : Regexp := Opt (Seqs rs).
Definition repeated (rs : list Regexp) : Regexp := Plus (Seqs rs).
Definition literal := Lit.
Definition capture (i : nat) (rs : list Regexp) : Regexp := Group i (Seqs rs).

(** [[a-z0-9]+] *)
Definition alphaNumericRegexp : Regexp :=
  Plus (Char (fun a => lower a || digit a)%bool).
(** One of [._], or [__], or a possibly empty run of [-]. *)
Definition separatorRegexp : Regexp :=
  Alts [Char (oneof "._"); Lit "__"; Star (chr "-")].
Definition nameComponentRegexp : Regexp :=
  expression [alphaNumericRegexp; optional [repeated [separatorRegexp; alphaNumericRegexp]]].
(** One [a-zA-Z0-9], or two of them around a run of [a-zA-Z0-9-]. *)
Definition domainComponentRegexp : Regexp :=
  let alnum := Char (fun a => lower a || upper a || digit a)%bool in
  Alt alnum
      (Seqs [alnum; Star (Char (fun a => lower a || upper a || digit a || Ascii.eqb a "-")%bool); alnum]).
Definition DomainRegexp : Regexp :=
  expression [domainComponentRegexp;
              optional [repeated [literal "."; domainComponentRegexp]];
              optional [literal ":"; Plus (Char digit)]].
(** [[\w][\w.-]{0,127}] *)
Definition TagRegexp : Regexp :=
  Seq (Char word) (UpTo 127 (Char (fun a => word a || oneof ".-" a)%bool)).
(** Algorithm components [A-Za-z][A-Za-z0-9]... separated by one of [-_+.],
    a colon, and at least 32 hexadecimal digits. *)
Definition DigestRegexp : Regexp :=
  let alpha := Char (fun a => upper a || lower a)%bool in
  let alnum := Char (fun a => upper a || lower a || digit a)%bool in
  Seqs [alpha; Star alnum;
        Star (Seqs [Char (oneof "-_+."); alpha; Star alnum]);
        chr ":"; AtLeast 32 (Char xdigit)].
Definition NameRegexp : Regexp :=
  expression [optional [DomainRegexp; literal "/"];
              nameComponentRegexp;
              optional [repeated [literal "/"; nameComponentRegexp]]].
(** Submatch 1 is the domain, submatch 2 the path. *)
Definition anchoredNameRegexp : Regexp :=
  expression [optional [capture 1 [DomainRegexp]; literal "/"];
              capture 2 [nameComponentRegexp;
                         optional [repeated [literal "/"; nameComponentRegexp]]]].
(** Submatch 1 is the name, 2 the tag, 3 the digest. *)
Definition ReferenceRegexp : Regexp :=
  expression [capture 1 [NameRegexp];
              optional [literal ":"; capture 2 [TagRegexp]];
              optional [literal "@"; capture 3 [DigestRegexp]]].

Definition NameTotalLengthMax : nat := 255.

Definition ErrReferenceInvalidFormat := errorString "invalid reference format".
Definition ErrNameEmpty := errorString "repository name must have at least one component".
Definition ErrNameContainsUppercase := errorString "repository name must be lowercase".
Definition ErrNameTooLong := errorString "repository name must not be more than 255 characters".
Definition ErrDigestInvalidFormat := errorString "invalid checksum digest format".
Definition ErrDigestInvalidLength := errorString "invalid checksum digest length".
Definition ErrDigestUnsupported := errorString "unsupported digest algorithm".

(** [type repository struct { domain, path string }] *)
Record repository : Type := { domain : string; path : string }.

(** The dynamic types [Parse] can return.  [digestReference] is
    [Digested] only; the other four are [Named]; of those
    [taggedReference] and [reference] (tag and digest) are [Tagged]. *)
Inductive Reference : Type :=
  | digestReference (digest : string)
  | namedRepository (repo : repository)
  | canonicalReference (repo : repository) (digest : string)
  | taggedReference (repo : repository) (tag : string)
  | fullReference (repo : repository) (tag : string) (digest : string).

(** [func (r repository) Name() string] *)
Definition repository_Name (r : repository) : string :=
  if String.eqb (domain r) "" then path r else domain r +:+ "/" +:+ path r.

(** [ref.(reference.Named)]: the comma-less assertion panics when the
    dynamic type does not implement the interface. *)
Definition assertNamed (ref : Reference) : Res repository :=
  match ref with
  | digestReference _ => Panic (InterfaceConversion "reference.Named")
  | namedRepository r | canonicalReference r _
  | taggedReference r _ | fullReference r _ _ => Ok r
  end.

(** [ref.(reference.Tagged).Tag()] *)
Definition assertTagged_Tag (ref : Reference) : Res string :=
  match ref with
  | taggedReference _ t | fullReference _ t _ => Ok t
  | digestReference _ | namedRepository _ | canonicalReference _ _ =>
      Panic (InterfaceConversion "reference.Tagged")
  end.

(** [SplitHostname]: every [Named] value of the package embeds the
    repository, whose domain and path are returned. *)
Definition SplitHostname (named : repository) : string * string :=
  (domain named, path named).

(** [digest.DigestRegexpAnchored] of [go-digest]: runs of [a-z0-9]
    separated by one of [.+_-], a colon, and one or more of [a-zA-Z0-9=_-]. *)
Definition DigestRegexpAnchored : Regexp :=
  let alnum := Plus (Char (fun a => lower a || digit a)%bool) in
  Seqs [alnum; Star (Seq (Char (oneof ".+_-")) alnum); chr ":";
        Plus (Char (fun a => lower a || upper a || digit a || oneof "=_-" a)%bool)].

(** [digest.Parse], which is [Digest.Validate]: the text splits at its
    first colon into a non-empty algorithm and a non-empty encoding; for a
    registered algorithm, one of the SHA-2 variants, the encoding has that
    algorithm's length and is lower-case hex; for another algorithm the
    error tells whether the text has the form of a digest at all. *)
Definition digest_Parse (s : string) : Res string :=
  match index 0 ":" s with
  | None => Err ErrDigestInvalidFormat
  | Some i =>
      if (Nat.eqb i 0 || Nat.eqb (S i) (String.length s))%bool
      then Err ErrDigestInvalidFormat
      else
      let algorithm := substring 0 i s in
      let encoded := substring (S i) (String.length s - S i) s in
      let hex := forallb (fun a => digit a || between "a" "f" a)%bool
                   (list_ascii_of_string encoded) in
      let check (size : nat) :=
        if negb (Nat.eqb (String.length encoded) (2 * size)) then Err ErrDigestInvalidLength
        else if hex then Ok s else Err ErrDigestInvalidFormat in
      if String.eqb algorithm "sha256" then check 32%nat
      else if String.eqb algorithm "sha384" then check 48%nat
      else if String.eqb algorithm "sha512" then check 64%nat
      else if MatchString DigestRegexpAnchored s then Err ErrDigestUnsupported
      else Err ErrDigestInvalidFormat
  end.

(** [strings.ToLower], on the UTF-8 bytes of the string.  The letters
    [A] to [Z] lower to [a] to [z]; outside ASCII, U+0130 (bytes 196 176)
    lowers to [i] and U+212A (bytes 226 132 170) to [k].  Every other rune
    outside ASCII lowers to a rune outside ASCII and is left as it is:
    [Parse] asks only whether the lowered text matches the reference
    grammar, whose characters are all ASCII. *)
Fixpoint lowerBytes (l : list ascii) : list ascii :=
  match l with
  | [] => []
  | "196"%char :: "176"%char :: l' => "i"%char :: lowerBytes l'
  | "226"%char :: "132"%char :: "170"%char :: l' => "k"%char :: lowerBytes l'
  | a :: l' => (if upper a then ascii_of_N (N_of_ascii a + 32) else a) :: lowerBytes l'
  end.

Definition ToLower (s : string) : string :=
  string_of_list_ascii (lowerBytes (list_ascii_of_string s)).

(** [getBestReferenceType] *)
Definition getBestReferenceType (repo : repository) (tag digest : string)
    : option Reference :=
  if String.eqb (repository_Name repo) "" then
    if negb (String.eqb digest "") then Some (digestReference digest) else None
  else if String.eqb tag "" then
    if negb (String.eqb digest "") then Some (canonicalReference repo digest)
    else Some (namedRepository repo)
  else if String.eqb digest "" then Some (taggedReference repo tag)
  else Some (fullReference repo tag digest).

(** [func Parse(s string) (Reference, error)] *)
Definition Parse (s : string) : Res Reference :=
  match FindStringSubmatch ReferenceRegexp s with
  | None =>
      if String.eqb s "" then Err ErrNameEmpty
      else if MatchString ReferenceRegexp (ToLower s) then Err ErrNameContainsUppercase
      else Err ErrReferenceInvalidFormat
  | Some matches =>
      if Nat.ltb NameTotalLengthMax (String.length (submatch 1 matches))
      then Err ErrNameTooLong
      else
        let repo :=
          match FindStringSubmatch anchoredNameRegexp (submatch 1 matches) with
          | Some nameMatch =>
              {| domain := submatch 1 nameMatch; path := submatch 2 nameMatch |}
          | None => {| domain := ""; path := submatch 1 matches |}
          end in
        res_bind
          (if negb (String.eqb (submatch 3 matches) "")
           then digest_Parse (submatch 3 matches) else Ok "")
          (fun digest =>
             match getBestReferenceType repo (submatch 2 matches) digest with
             | Some r => Ok r
             | None => Err ErrNameEmpty
             end)
  end.

End reference.

(** ** [cmd/deploy.go]: image references *)

(** [var ECRRegex]:
    [^[0-9]+\.dkr\.ecr\.(us|ca|eu|ap|sa)-(east|west|central|northeast|southeast|south)-[12]\.amazonaws\.com$] *)
Definition ECRRegex : regexp.Regexp :=
  let lit := regexp.Lit in
  regexp.Seqs
    [regexp.Plus (regexp.Char regexp.digit);
     lit ".dkr.ecr.";
     regexp.Group 1 (regexp.Alts [lit "us"; lit "ca"; lit "eu"; lit "ap"; lit "sa"]);
     lit "-";
     regexp.Group 2 (regexp.Alts [lit "east"; lit "west"; lit "central";
                                  lit "northeast"; lit "southeast"; lit "south"]);
     lit "-";
     regexp.Char (regexp.oneof "12");
     lit ".amazonaws.com"].

(** [type dockerImage struct] *)
Record dockerImage : Type := {
  Name : string;
  Tag : string;
  RepositoryName : string;
  HostName : string;
}.

(** [func (f *deployCmd) parseDockerImage(image string)], returning a
    pointer to a [dockerImage] and an [error].
    The arguments of [SplitHostname] are evaluated, then the fields of the
    composite literal in source order. *)
Definition parseDockerImage (image : string) : Res dockerImage :=
  res_bind (reference.Parse image) (fun ref =>
  res_bind (reference.assertNamed ref) (fun named =>
  let '(hostName, repoName) := reference.SplitHostname named in
  res_bind (reference.assertNamed ref) (fun named' =>
  res_bind (reference.assertTagged_Tag ref) (fun tag =>
  Ok {| Name := reference.repository_Name named';
        Tag := tag;
        RepositoryName := repoName;
        HostName := hostName |})))).

(** [func (f *deployCmd) isECRHosted(image *dockerImage) bool] *)
Definition isECRHosted (image : dockerImage) : bool :=
  regexp.MatchString ECRRegex (HostName image).

(** ** AWS SDK types

    The fields of [github.com/aws/aws-sdk-go/service/ecs] and [.../ecr]
    structs that the program reads, writes or passes on.  Pointer-typed
    scalar fields are [option]s; slices of pointers are lists.  Of
    [ContainerDefinition] only [Image] is ever read or written by
    [deploy.go]; a sample of the remaining fields stands for the rest, all of
    which are carried along by the same struct copy. *)

Module ecs.

Record KeyValuePair : Type := { kvName : option string; kvValue : option string }.

Record ContainerDefinition : Type := {
  Command : list string;
  Cpu : option Z;
  Environment : list KeyValuePair;
  Essential : option bool;
  Image : option string;
  Memory : option Z;
  Name : option string;
}.

Record Volume : Type := { volName : option string; volSourcePath : option string }.
Record TaskDefinitionPlacementConstraint : Type :=
  { pcExpression : option string; pcType : option string }.
Record Attribute : Type := { attrName : option string; attrValue : option string }.

Record TaskDefinition : Type := {
  Compatibilities : list string;
  ContainerDefinitions : list ContainerDefinition;
  tdCpu : option string;
  ExecutionRoleArn : option string;
  Family : option string;
  tdMemory : option string;
  NetworkMode : option string;
  PlacementConstraints : list TaskDefinitionPlacementConstraint;
  RequiresAttributes : list Attribute;
  RequiresCompatibilities : list string;
  Revision : option Z;
  Status : option string;
  TaskDefinitionArn : option string;
  TaskRoleArn : option string;
  Volumes : list Volume;
}.

Record RegisterTaskDefinitionInput : Type := {
  inContainerDefinitions : list ContainerDefinition;
  inCpu : option string;
  inExecutionRoleArn : option string;
  inFamily : option string;
  inMemory : option string;
  inNetworkMode : option string;
  inPlacementConstraints : list TaskDefinitionPlacementConstraint;
  inRequiresCompatibilities : list string;
  inTaskRoleArn : option string;
  inVolumes : list Volume;
}.

Record RegisterTaskDefinitionOutput : Type := {
  outTaskDefinition : option TaskDefinition;
}.

Record Deployment : Type := {
  depId : option string;
  depStatus : option string;
  depTaskDefinition : option string;
}.

Record Service : Type := {
  ClusterArn : option string;
  Deployments : list Deployment;
  ServiceName : option string;
  svcTaskDefinition : option string;
}.

(** [v.Image = p] on a copy [v]. *)
Definition set_Image (v : ContainerDefinition) (p : option string) : ContainerDefinition :=
  {| Command := Command v; Cpu := Cpu v; Environment := Environment v;
     Essential := Essential v; Image := p; Memory := Memory v; Name := Name v |}.

(** [t.ContainerDefinitions = cs] on a copy [t]. *)
Definition set_ContainerDefinitions (t : TaskDefinition) (cs : list ContainerDefinition)
    : TaskDefinition :=
  {| Compatibilities := Compatibilities t; ContainerDefinitions := cs;
     tdCpu := tdCpu t; ExecutionRoleArn := ExecutionRoleArn t; Family := Family t;
     tdMemory := tdMemory t; NetworkMode := NetworkMode t;
     PlacementConstraints := PlacementConstraints t;
     RequiresAttributes := RequiresAttributes t;
     RequiresCompatibilities := RequiresCompatibilities t;
     Revision := Revision t; Status := Status t;
     TaskDefinitionArn := TaskDefinitionArn t; TaskRoleArn := TaskRoleArn t;
     Volumes := Volumes t |}.

End ecs.

Module ecr.

Record ImageIdentifier : Type := { ImageDigest : option string; ImageTag : option string }.

Record BatchGetImageInput : Type := {
  AcceptedMediaTypes : list string;
  ImageIds : list ImageIdentifier;
  RepositoryName : option string;
}.

Record Image : Type := {
  ImageId : option ImageIdentifier;
  ImageManifest : option string;
  imgRepositoryName : option string;
}.

Record ImageFailure : Type := {
  FailureCode : option string;
  FailureReason : option string;
  failImageId : option ImageIdentifier;
}.

Record BatchGetImageOutput : Type := {
  Failures : list ImageFailure;
  Images : list Image;
}.

Record PutImageInput : Type := {
  putImageManifest : option string;
  putImageTag : option string;
  putRepositoryName : option string;
}.

End ecr.

(** ** [cmd/deploy.go]: options and the command *)

(** [type imageOption struct] *)
Record imageOption : Type := {
  optRepositoryName : string;
  optTag : string;
}.

(** [type imageOptions struct { Value []*imageOption }] *)
Record imageOptions : Type := { Value : list imageOption }.

(** [func (t *imageOptions) Get(repoName string) *imageOption]: the first
    option of that repository, nil when there is none. *)
Fixpoint imageOptions_Get_loop (vs : list imageOption) (repoName : string)
    : option imageOption :=
  match vs with
  | [] => None
  | v :: vs' =>
      if String.eqb (optRepositoryName v) repoName then Some v
      else imageOptions_Get_loop vs' repoName
  end.

Definition imageOptions_Get (t : imageOptions) (repoName : string) : option imageOption :=
  imageOptions_Get_loop (Value t) repoName.

(** [type deployCmd struct] *)
Record deployCmd : Type := {
  cluster : string;
  serviceName : string;
  revision : Z;
  images : imageOptions;
  backend : string;
  slackWebhookUrl : string;
}.

(** [fmt.Sprintf] with the verb [%d] on an integer. *)
Definition fmt_d (z : Z) : string := NilZero.string_of_int (Z.to_int z).

(** ** [createNewTaskDefinition] on values *)

(** The body of [for _, vp := range taskDef.ContainerDefinitions], with the
    slice [containers] built so far. *)
Fixpoint createNewTaskDefinition_loop (id : string)
    (cds : list ecs.ContainerDefinition) (containers : list ecs.ContainerDefinition)
    : Res (list ecs.ContainerDefinition) :=
  match cds with
  | [] => Ok containers
  | vp :: rest =>
      let v := vp in
      res_bind (deref (ecs.Image v)) (fun image =>
      res_bind (parseDockerImage image) (fun img =>
      if isECRHosted img then
        let v' := ecs.set_Image v (Some (Name img +:+ ":" +:+ id)) in
        createNewTaskDefinition_loop id rest (containers ++ [v'])
      else createNewTaskDefinition_loop id rest containers))
  end.

(** [func (f *deployCmd) createNewTaskDefinition(id string, taskDef *ecs.TaskDefinition)] *)
Definition createNewTaskDefinition (id : string) (taskDef : option ecs.TaskDefinition)
    : Res ecs.TaskDefinition :=
  res_bind (deref taskDef) (fun newTaskDef =>
  res_bind (createNewTaskDefinition_loop id (ecs.ContainerDefinitions newTaskDef) [])
    (fun containers =>
  Ok (ecs.set_ContainerDefinitions newTaskDef containers))).

(** The request built by [registerTaskDefinition]. *)
Definition registerTaskDefinition_params (taskDef : ecs.TaskDefinition)
    : ecs.RegisterTaskDefinitionInput :=
  {| ecs.inContainerDefinitions := ecs.ContainerDefinitions taskDef;
     ecs.inCpu := ecs.tdCpu taskDef;
     ecs.inExecutionRoleArn := ecs.ExecutionRoleArn taskDef;
     ecs.inFamily := ecs.Family taskDef;
     ecs.inMemory := ecs.tdMemory taskDef;
     ecs.inNetworkMode := ecs.NetworkMode taskDef;
     ecs.inPlacementConstraints := ecs.PlacementConstraints taskDef;
     ecs.inTaskRoleArn := ecs.TaskRoleArn taskDef;
     ecs.inVolumes := ecs.Volumes taskDef;
     ecs.inRequiresCompatibilities := ecs.RequiresCompatibilities taskDef |}.

(** The request built by [tagDockerImage] for [BatchGetImage]. *)
Definition tagDockerImage_params (repoName fromTag : string) : ecr.BatchGetImageInput :=
  {| ecr.ImageIds := [{| ecr.ImageDigest := None; ecr.ImageTag := Some fromTag |}];
     ecr.RepositoryName := Some repoName;
     ecr.AcceptedMediaTypes :=
       ["application/vnd.docker.distribution.manifest.v1+json";
        "application/vnd.docker.distribution.manifest.v2+json";
        "application/vnd.oci.image.manifest.v1+json"] |}.

(** ** The platform and the trace of external calls *)

(** Every call that leaves the process, with its arguments and the response
    it got, in the order the calls are made. *)
Inductive Event : Type :=
  | EvNewSession (r : Res unit)
  | EvNewHistoryManager (backend cluster service : string) (r : Res unit)
  | EvDescribeService (cluster service : string) (r : Res (option ecs.Service))
  | EvNewULID (r : Res string)
  | EvDescribeTaskDefinition (arn : string) (r : Res (option ecs.TaskDefinition))
  | EvBatchGetImage (params : ecr.BatchGetImageInput) (r : Res ecr.BatchGetImageOutput)
  | EvPutImage (params : ecr.PutImageInput) (r : Res unit)
  | EvRegisterTaskDefinition (params : ecs.RegisterTaskDefinitionInput)
      (r : Res ecs.RegisterTaskDefinitionOutput)
  | EvUpdateService (service : option ecs.Service) (taskDef : option ecs.TaskDefinition)
      (r : Res unit)
  | EvWaitUpdateService (cluster service : string) (r : Res unit)
  | EvPushState (revision : Z) (message : string) (r : Res unit)
  | EvLog (msg : string)
  | EvSlack (color msg : string).

(** The collaborators of the pipeline: AWS ECS and ECR behind the SDK
    clients, [lib/ecs], the history manager, the logger, the clock and
    entropy behind the ULID, and the process environment.  [W] is the state
    of all of them; a call takes it to a new state and a response. *)
Class Platform (W : Type) : Type := {
  getAWSRegion : W -> string;
  session_NewSession : W -> Res unit * W;
  NewHistoryManager : string -> string -> string -> W -> Res unit * W;
  libecs_DescribeService : string -> string -> W -> Res (option ecs.Service) * W;
  libecs_SpecifyRevision : Z -> string -> Res string;
  libecs_DescribeTaskDefinition : string -> W -> Res (option ecs.TaskDefinition) * W;
  libecs_UpdateService :
    option ecs.Service -> option ecs.TaskDefinition -> W -> Res unit * W;
  libecs_WaitUpdateService : string -> string -> W -> Res unit * W;
  ecs_RegisterTaskDefinition :
    ecs.RegisterTaskDefinitionInput -> W -> Res ecs.RegisterTaskDefinitionOutput * W;
  ecr_BatchGetImage : ecr.BatchGetImageInput -> W -> Res ecr.BatchGetImageOutput * W;
  ecr_PutImage : ecr.PutImageInput -> W -> Res unit * W;
  historyManager_PushState : Z -> string -> W -> Res unit * W;
  ulid_New : W -> Res string * W;
  logger_Log : string -> W -> W;
  logger_Slack : string -> string -> W -> W;
}.

(** The monad of the pipeline: platform state in, result, platform state
    and the calls made out. *)
Definition M (W A : Type) : Type := W -> Res A * W * list Event.

Definition ret {W A : Type} (a : A) : M W A := fun w => (Ok a, w, []).

Definition bind {W A B : Type} (m : M W A) (k : A -> M W B) : M W B :=
  fun w =>
    match m w with
    | (Ok a, w1, t1) => let '(r, w2, t2) := k a w1 in (r, w2, t1 ++ t2)
    | (Err e, w1, t1) => (Err e, w1, t1)
    | (Panic p, w1, t1) => (Panic p, w1, t1)
    end.

(** A computation that touches nothing outside: [return nil, err], a panic,
    or a value. *)
Definition lift {W A : Type} (r : Res A) : M W A := fun w => (r, w, []).

(** An external call, recorded with its response. *)
Definition call {W A : Type} (op : W -> Res A * W) (ev : Res A -> Event) : M W A :=
  fun w => let '(r, w') := op w in (r, w', [ev r]).

(** A read of the process environment. *)
Definition read {W A : Type} (g : W -> A) : M W A := fun w => (Ok (g w), w, []).

(** A notification, which returns nothing. *)
Definition notify {W : Type} (op : W -> W) (ev : Event) : M W unit :=
  fun w => (Ok tt, op w, [ev]).

Declare Scope go_scope.
Delimit Scope go_scope with go.
Notation "x <- m ;; k" := (bind m (fun x => k))
  (at level 100, m at next level, right associativity) : go_scope.
Notation "m ;;; k" := (bind m (fun _ => k))
  (at level 100, right associativity) : go_scope.

Section Pipeline.
Context {W : Type} `{!Platform W}.
Local Open Scope go_scope.

(** [uniqueID = ulid.MustNew(ulid.Now(), entropy).String()]: [MustNew] panics
    when [New] returns an error. *)
Definition newUniqueID : M W string :=
  fun w =>
    let '(r, w') := ulid_New w in
    (match r with
     | Ok id => Ok id
     | Err e => Panic (MustPanic e)
     | Panic p => Panic p
     end, w', [EvNewULID r]).

(** [func (f *deployCmd) tagDockerImage(ecrClient, repoName, fromTag, toTag string) error] *)
Definition tagDockerImage (repoName fromTag toTag : string) : M W unit :=
  let params := tagDockerImage_params repoName fromTag in
  img <- call (ecr_BatchGetImage params) (EvBatchGetImage params);;
  first <- lift (match ecr.Images img with
                 | i :: _ => Ok i
                 | [] => Panic IndexOutOfRange
                 end);;
  let putParams :=
    {| ecr.putImageManifest := ecr.ImageManifest first;
       ecr.putRepositoryName := Some repoName;
       ecr.putImageTag := Some toTag |} in
  call (ecr_PutImage putParams) (EvPutImage putParams);;;
  ret tt.

(** [func (f *deployCmd) registerTaskDefinition(client, taskDef)] *)
Definition registerTaskDefinition (taskDef : ecs.TaskDefinition)
    : M W (option ecs.TaskDefinition) :=
  let params := registerTaskDefinition_params taskDef in
  res <- call (ecs_RegisterTaskDefinition params) (EvRegisterTaskDefinition params);;
  ret (ecs.outTaskDefinition res).

(** The loop of [execute] over [taskDef.ContainerDefinitions] that tags
    the images. *)
Fixpoint execute_tag_loop (f : deployCmd) (uniqueID : string)
    (cds : list ecs.ContainerDefinition) : M W unit :=
  match cds with
  | [] => ret tt
  | v :: rest =>
      image <- lift (deref (ecs.Image v));;
      img <- lift (parseDockerImage image);;
      match imageOptions_Get (images f) (RepositoryName img) with
      | None =>
          lift (Err (errorString ("can not found image option " +:+ RepositoryName img)))
      | Some opt =>
          tagDockerImage (RepositoryName img) (optTag opt) uniqueID;;;
          execute_tag_loop f uniqueID rest
      end
  end.

(** [func (f *deployCmd) execute(_ *cobra.Command, args []string, l *log.Logger) error].
    The clients made by [ecs.New] and [ecr.New] are the platform; the
    conversion [int(x)] of the revision is the identity on the 64-bit
    platforms the program is built for. *)
Definition execute (f : deployCmd) : M W unit :=
  if String.eqb (cluster f) "" then lift (Err (errorString "--cluster is required")) else
  if String.eqb (serviceName f) "" then lift (Err (errorString "--service-name is required")) else
  if Nat.eqb (length (Value (images f))) 0 then lift (Err (errorString "--image is required")) else
  region <- read getAWSRegion;;
  if String.eqb region "" then
    lift (Err (errorString
      "AWS region is not found. please set a AWS_DEFAULT_REGION or AWS_REGION"))
  else
  call session_NewSession EvNewSession;;;
  call (NewHistoryManager (backend f) (cluster f) (serviceName f))
       (EvNewHistoryManager (backend f) (cluster f) (serviceName f));;;
  service <- call (libecs_DescribeService (cluster f) (serviceName f))
                  (EvDescribeService (cluster f) (serviceName f));;
  svc <- lift (deref service);;
  if Nat.ltb 1 (length (ecs.Deployments svc)) then
    lift (Err (errorString (serviceName f +:+ " is currently deploying")))
  else
  uniqueID <- newUniqueID;;
  taskDefArn <- lift (deref (ecs.svcTaskDefinition svc));;
  taskDefArn <- lift (libecs_SpecifyRevision (revision f) taskDefArn);;
  taskDef <- call (libecs_DescribeTaskDefinition taskDefArn)
                  (EvDescribeTaskDefinition taskDefArn);;
  newTaskDef <- lift (createNewTaskDefinition uniqueID taskDef);;
  td <- lift (deref taskDef);;
  execute_tag_loop f uniqueID (ecs.ContainerDefinitions td);;;
  registerdTaskDef <- registerTaskDefinition newTaskDef;;
  oldRevision <- lift (deref (ecs.Revision td));;
  registerd <- lift (deref registerdTaskDef);;
  newRevision <- lift (deref (ecs.Revision registerd));;
  let msg := "deploy: revision " +:+ fmt_d oldRevision +:+ " -> "
             +:+ fmt_d newRevision +:+ String "010" "" in
  notify (logger_Log msg) (EvLog msg);;;
  notify (logger_Slack "normal" msg) (EvSlack "normal" msg);;;
  call (libecs_UpdateService service registerdTaskDef)
       (EvUpdateService service registerdTaskDef);;;
  notify (logger_Log ("service updating" +:+ String "010" ""))
         (EvLog ("service updating" +:+ String "010" ""));;;
  call (libecs_WaitUpdateService (cluster f) (serviceName f))
       (EvWaitUpdateService (cluster f) (serviceName f));;;
  call (historyManager_PushState newRevision
          ("deploy: " +:+ fmt_d oldRevision +:+ " -> " +:+ fmt_d newRevision))
       (EvPushState newRevision
          ("deploy: " +:+ fmt_d oldRevision +:+ " -> " +:+ fmt_d newRevision));;;
  let msg := "successfully updated" +:+ String "010" "" in
  notify (logger_Log msg) (EvLog msg);;;
  notify (logger_Slack "good" msg) (EvSlack "good" msg);;;
  ret tt.

End Pipeline.

(** ** [createNewTaskDefinition] on a store of Go objects

    Here a [*ecs.TaskDefinition], a [*ecs.ContainerDefinition] and the
    [*string] of an [Image] field are addresses into a store.  A local
    variable whose address is taken ([newTaskDef], [v]) is a cell of the
    store; [aws.String] allocates a cell; an assignment to a field writes
    the cell of the variable.  A slice of pointers is the list of its
    elements: the function never assigns to an element of a slice. *)

Module Mem.

Definition loc : Type := positive.

(* The [Name] of a [dockerImage]; below, [Name] is the container's field. *)
Local Abbreviation dockerImage_Name := Name (only parsing).

Record ContainerDefinition : Type := {
  Command : list string;
  Cpu : option Z;
  Environment : list ecs.KeyValuePair;
  Essential : option bool;
  Image : option loc;
  Memory : option Z;
  Name : option string;
}.

Record TaskDefinition : Type := {
  Compatibilities : list string;
  ContainerDefinitions : list loc;
  tdCpu : option string;
  ExecutionRoleArn : option string;
  Family : option string;
  tdMemory : option string;
  NetworkMode : option string;
  PlacementConstraints : list ecs.TaskDefinitionPlacementConstraint;
  RequiresAttributes : list ecs.Attribute;
  RequiresCompatibilities : list string;
  Revision : option Z;
  Status : option string;
  TaskDefinitionArn : option string;
  TaskRoleArn : option string;
  Volumes : list ecs.Volume;
}.

Definition set_Image (v : ContainerDefinition) (p : option loc) : ContainerDefinition :=
  {| Command := Command v; Cpu := Cpu v; Environment := Environment v;
     Essential := Essential v; Image := p; Memory := Memory v; Name := Name v |}.

Definition set_ContainerDefinitions (t : TaskDefinition) (cs : list loc) : TaskDefinition :=
  {| Compatibilities := Compatibilities t; ContainerDefinitions := cs;
     tdCpu := tdCpu t; ExecutionRoleArn := ExecutionRoleArn t; Family := Family t;
     tdMemory := tdMemory t; NetworkMode := NetworkMode t;
     PlacementConstraints := PlacementConstraints t;
     RequiresAttributes := RequiresAttributes t;
     RequiresCompatibilities := RequiresCompatibilities t;
     Revision := Revision t; Status := Status t;
     TaskDefinitionArn := TaskDefinitionArn t; TaskRoleArn := TaskRoleArn t;
     Volumes := Volumes t |}.

(** The store, one map per type of object. *)
Record Store : Type := {
  strings : gmap loc string;
  containers : gmap loc ContainerDefinition;
  taskDefs : gmap loc TaskDefinition;
}.

Definition St (A : Type) : Type := Store -> Res A * Store.

Definition sret {A : Type} (a : A) : St A := fun h => (Ok a, h).
Definition sbind {A B : Type} (m : St A) (k : A -> St B) : St B :=
  fun h =>
    match m h with
    | (Ok a, h1) => k a h1
    | (Err e, h1) => (Err e, h1)
    | (Panic p, h1) => (Panic p, h1)
    end.
Definition slift {A : Type} (r : Res A) : St A := fun h => (r, h).

(** Reads through a pointer; nil, or an address with no object, panics. *)
Definition load_string (p : option loc) : St string :=
  fun h => (deref (p ≫= (strings h !!.)), h).
Definition load_container (p : loc) : St ContainerDefinition :=
  fun h => (deref (containers h !! p), h).
Definition load_taskDef (p : option loc) : St TaskDefinition :=
  fun h => (deref (p ≫= (taskDefs h !!.)), h).

(** A new cell, at an address the store does not use. *)
Definition alloc_string (s : string) : St loc :=
  fun h =>
    let l := fresh (dom (strings h)) in
    (Ok l, {| strings := <[l := s]> (strings h);
              containers := containers h; taskDefs := taskDefs h |}).
Definition alloc_container (v : ContainerDefinition) : St loc :=
  fun h =>
    let l := fresh (dom (containers h)) in
    (Ok l, {| strings := strings h;
              containers := <[l := v]> (containers h); taskDefs := taskDefs h |}).
Definition alloc_taskDef (t : TaskDefinition) : St loc :=
  fun h =>
    let l := fresh (dom (taskDefs h)) in
    (Ok l, {| strings := strings h; containers := containers h;
              taskDefs := <[l := t]> (taskDefs h) |}).

(** A write to a field of the object in a cell. *)
Definition update_container (l : loc) (g : ContainerDefinition -> ContainerDefinition)
    : St unit :=
  fun h =>
    match containers h !! l with
    | Some v => (Ok tt, {| strings := strings h;
                           containers := <[l := g v]> (containers h);
                           taskDefs := taskDefs h |})
    | None => (Panic NilDereference, h)
    end.
Definition update_taskDef (l : loc) (g : TaskDefinition -> TaskDefinition) : St unit :=
  fun h =>
    match taskDefs h !! l with
    | Some t => (Ok tt, {| strings := strings h; containers := containers h;
                           taskDefs := <[l := g t]> (taskDefs h) |})
    | None => (Panic NilDereference, h)
    end.

(** One round of the loop, for the element [vp]. *)
Definition createNewTaskDefinition_body (id : string) (vp : loc) (containers : list loc)
    : St (list loc) :=
  sbind (load_container vp) (fun copy =>
  sbind (alloc_container copy) (fun v =>                       (* v := *vp *)
  sbind (load_container v) (fun obj =>
  sbind (load_string (Image obj)) (fun image =>                (* *v.Image *)
  sbind (slift (parseDockerImage image)) (fun img =>
  if isECRHosted img then
    sbind (alloc_string (dockerImage_Name img +:+ ":" +:+ id)) (fun s =>  (* aws.String *)
    sbind (update_container v (fun o => set_Image o (Some s))) (fun _ => (* v.Image = *)
    sret (containers ++ [v])))                                 (* append(containers, &v) *)
  else sret containers))))).

Fixpoint createNewTaskDefinition_loop (id : string) (cds : list loc) (containers : list loc)
    : St (list loc) :=
  match cds with
  | [] => sret containers
  | vp :: rest =>
      sbind (createNewTaskDefinition_body id vp containers) (fun containers' =>
      createNewTaskDefinition_loop id rest containers')
  end.

Definition createNewTaskDefinition (id : string) (taskDef : option loc) : St loc :=
  sbind (load_taskDef taskDef) (fun copy =>
  sbind (alloc_taskDef copy) (fun newTaskDef =>                (* newTaskDef := *taskDef *)
  sbind (load_taskDef taskDef) (fun t =>
  sbind (createNewTaskDefinition_loop id (ContainerDefinitions t) []) (fun containers =>
  sbind (update_taskDef newTaskDef (fun o => set_ContainerDefinitions o containers))
    (fun _ =>
  sret newTaskDef))))).

(** The value held at a pointer: the object with its [Image] string read
    through, [None] when some address on the way holds no object. *)
Definition read_container (h : Store) (p : loc) : option ecs.ContainerDefinition :=
  v ← containers h !! p;
  image ← match Image v with
          | None => Some None
          | Some l => s ← strings h !! l; Some (Some s)
          end;
  Some {| ecs.Command := Command v; ecs.Cpu := Cpu v; ecs.Environment := Environment v;
          ecs.Essential := Essential v; ecs.Image := image; ecs.Memory := Memory v;
          ecs.Name := Name v |}.

Definition read_taskDef (h : Store) (p : loc) : option ecs.TaskDefinition :=
  t ← taskDefs h !! p;
  cs ← mapM (read_container h) (ContainerDefinitions t);
  Some {| ecs.Compatibilities := Compatibilities t; ecs.ContainerDefinitions := cs;
          ecs.tdCpu := tdCpu t; ecs.ExecutionRoleArn := ExecutionRoleArn t;
          ecs.Family := Family t; ecs.tdMemory := tdMemory t;
          ecs.NetworkMode := NetworkMode t;
          ecs.PlacementConstraints := PlacementConstraints t;
          ecs.RequiresAttributes := RequiresAttributes t;
          ecs.RequiresCompatibilities := RequiresCompatibilities t;
          ecs.Revision := Revision t; ecs.Status := Status t;
          ecs.TaskDefinitionArn := TaskDefinitionArn t; ecs.TaskRoleArn := TaskRoleArn t;
          ecs.Volumes := Volumes t |}.

(** Every object of [h] is in [h'], unchanged. *)
Definition extends (h h' : Store) : Prop :=
  strings h ⊆ strings h' /\ containers h ⊆ containers h' /\ taskDefs h ⊆ taskDefs h'.

(** The result on the store and the result on values agree: the same error
    or panic, or pointers that read in the final store as the values. *)
Definition agree {A B : Type} (read : Store -> A -> option B)
    (x : Res A * Store) (y : Res B) : Prop :=
  match x with
  | (Ok a, h') => exists b, y = Ok b /\ read h' a = Some b
  | (Err e, _) => y = Err e
  | (Panic p, _) => y = Panic p
  end.

End Mem.

(** ** A stub platform

    A small deterministic platform on which the pipeline can be run: one
    service, task definitions looked up by ARN, a registry holding a
    manifest per repository and tag, and a history log.  [BatchGetImage]
    answers as ECR does: an image that is not there is reported in
    [Failures] of a successful response whose [Images] is empty. *)

Module Stub.

Record World : Type := {
  region : string;
  service : ecs.Service;
  taskDefinitions : list (string * ecs.TaskDefinition);
  registry : list (string * string * string);
  nextRevision : Z;
  converges : bool;
  history : list (Z * string);
  output : list string;
}.

Definition set_registry (w : World) (r : list (string * string * string)) : World :=
  {| region := region w; service := service w; taskDefinitions := taskDefinitions w;
     registry := r; nextRevision := nextRevision w; converges := converges w;
     history := history w; output := output w |}.

Definition set_history (w : World) (h : list (Z * string)) : World :=
  {| region := region w; service := service w; taskDefinitions := taskDefinitions w;
     registry := registry w; nextRevision := nextRevision w; converges := converges w;
     history := h; output := output w |}.

Definition set_output (w : World) (o : list string) : World :=
  {| region := region w; service := service w; taskDefinitions := taskDefinitions w;
     registry := registry w; nextRevision := nextRevision w; converges := converges w;
     history := history w; output := o |}.

Definition set_nextRevision (w : World) (n : Z) : World :=
  {| region := region w; service := service w; taskDefinitions := taskDefinitions w;
     registry := registry w; nextRevision := n; converges := converges w;
     history := history w; output := output w |}.

Fixpoint find_taskDefinition (arn : string) (l : list (string * ecs.TaskDefinition))
    : option ecs.TaskDefinition :=
  match l with
  | [] => None
  | (a, t) :: l' => if String.eqb a arn then Some t else find_taskDefinition arn l'
  end.

Fixpoint find_manifest (repo tag : string) (l : list (string * string * string))
    : option string :=
  match l with
  | [] => None
  | (r, t, m) :: l' =>
      if (String.eqb r repo && String.eqb t tag)%bool then Some m
      else find_manifest repo tag l'
  end.

Definition BatchGetImage (params : ecr.BatchGetImageInput) (w : World)
    : Res ecr.BatchGetImageOutput * World :=
  match ecr.RepositoryName params, ecr.ImageIds params with
  | Some repo, [{| ecr.ImageDigest := _; ecr.ImageTag := Some tag |} as id] =>
      match find_manifest repo tag (registry w) with
      | Some m =>
          (Ok {| ecr.Failures := [];
                 ecr.Images := [{| ecr.ImageId := Some id; ecr.ImageManifest := Some m;
                                   ecr.imgRepositoryName := Some repo |}] |}, w)
      | None =>
          (Ok {| ecr.Failures := [{| ecr.FailureCode := Some "ImageNotFound";
                                     ecr.FailureReason := Some "Requested image not found";
                                     ecr.failImageId := Some id |}];
                 ecr.Images := [] |}, w)
      end
  | _, _ => (Err (awsError "InvalidParameterException"), w)
  end.

Definition PutImage (params : ecr.PutImageInput) (w : World) : Res unit * World :=
  match ecr.putRepositoryName params, ecr.putImageTag params, ecr.putImageManifest params with
  | Some repo, Some tag, Some m => (Ok tt, set_registry w ((repo, tag, m) :: registry w))
  | _, _, _ => (Err (awsError "InvalidParameterException"), w)
  end.

Definition RegisterTaskDefinition (params : ecs.RegisterTaskDefinitionInput) (w : World)
    : Res ecs.RegisterTaskDefinitionOutput * World :=
  (Ok {| ecs.outTaskDefinition := Some
           {| ecs.Compatibilities := ecs.inRequiresCompatibilities params;
              ecs.ContainerDefinitions := ecs.inContainerDefinitions params;
              ecs.tdCpu := ecs.inCpu params;
              ecs.ExecutionRoleArn := ecs.inExecutionRoleArn params;
              ecs.Family := ecs.inFamily params;
              ecs.tdMemory := ecs.inMemory params;
              ecs.NetworkMode := ecs.inNetworkMode params;
              ecs.PlacementConstraints := ecs.inPlacementConstraints params;
              ecs.RequiresAttributes := [];
              ecs.RequiresCompatibilities := ecs.inRequiresCompatibilities params;
              ecs.Revision := Some (nextRevision w);
              ecs.Status := Some "ACTIVE";
              ecs.TaskDefinitionArn := None;
              ecs.TaskRoleArn := ecs.inTaskRoleArn params;
              ecs.Volumes := ecs.inVolumes params |} |},
   set_nextRevision w (nextRevision w + 1)).

Definition uniqueID : string := "01ARZ3NDEKTSV4RRFFQ69G5FAV".

#[export] Instance platform : Platform World := {|
  getAWSRegion := region;
  session_NewSession := fun w => (Ok tt, w);
  NewHistoryManager := fun _ _ _ w => (Ok tt, w);
  libecs_DescribeService := fun _ _ w => (Ok (Some (service w)), w);
  libecs_SpecifyRevision := fun _ arn => Ok arn;
  libecs_DescribeTaskDefinition := fun arn w =>
    match find_taskDefinition arn (taskDefinitions w) with
    | Some t => (Ok (Some t), w)
    | None => (Err (awsError "ClientException"), w)
    end;
  libecs_UpdateService := fun _ _ w => (Ok tt, w);
  libecs_WaitUpdateService := fun _ _ w =>
    if converges w then (Ok tt, w) else (Err (errorString "timeout"), w);
  ecs_RegisterTaskDefinition := RegisterTaskDefinition;
  ecr_BatchGetImage := BatchGetImage;
  ecr_PutImage := PutImage;
  historyManager_PushState := fun rev msg w => (Ok tt, set_history w (history w ++ [(rev, msg)]));
  ulid_New := fun w => (Ok uniqueID, w);
  logger_Log := fun msg w => set_output w (output w ++ [msg]);
  logger_Slack := fun _ msg w => set_output w (output w ++ [msg]);
|}.

(** The scenario of the specification: a service on revision 7 whose task
    definition has an ECR-hosted container and a sidecar from another
    registry. *)
Definition ecrHost : string := "123456789012.dkr.ecr.us-east-1.amazonaws.com".

Definition container (name image : string) : ecs.ContainerDefinition :=
  {| ecs.Command := []; ecs.Cpu := Some 256%Z; ecs.Environment := [];
     ecs.Essential := Some true; ecs.Image := Some image; ecs.Memory := Some 512%Z;
     ecs.Name := Some name |}.

Definition web : ecs.ContainerDefinition := container "web" (ecrHost +:+ "/app:v1").
Definition sidecar : ecs.ContainerDefinition := container "sidecar" "public.example/proxy:latest".

Definition baselineArn : string :=
  "arn:aws:ecs:us-east-1:123456789012:task-definition/app:7".

Definition taskDefinition (cs : list ecs.ContainerDefinition) : ecs.TaskDefinition :=
  {| ecs.Compatibilities := ["EC2"]; ecs.ContainerDefinitions := cs;
     ecs.tdCpu := Some "256"; ecs.ExecutionRoleArn := Some "arn:aws:iam::123456789012:role/exec";
     ecs.Family := Some "app"; ecs.tdMemory := Some "512"; ecs.NetworkMode := Some "bridge";
     ecs.PlacementConstraints := []; ecs.RequiresAttributes := [];
     ecs.RequiresCompatibilities := ["EC2"]; ecs.Revision := Some 7%Z;
     ecs.Status := Some "ACTIVE"; ecs.TaskDefinitionArn := Some baselineArn;
     ecs.TaskRoleArn := Some "arn:aws:iam::123456789012:role/task"; ecs.Volumes := [] |}.

Definition world (cs : list ecs.ContainerDefinition) (deployments : nat)
    (reg : list (string * string * string)) : World :=
  {| region := "us-east-1";
     service := {| ecs.ClusterArn := Some "arn:aws:ecs:us-east-1:123456789012:cluster/prod";
                   ecs.Deployments :=
                     replicate deployments
                       {| ecs.depId := None; ecs.depStatus := Some "PRIMARY";
                          ecs.depTaskDefinition := Some baselineArn |};
                   ecs.ServiceName := Some "app";
                   ecs.svcTaskDefinition := Some baselineArn |};
     taskDefinitions := [(baselineArn, taskDefinition cs)];
     registry := reg;
     nextRevision := 8;
     converges := true;
     history := [];
     output := [] |}.

Definition command (opts : list imageOption) : deployCmd :=
  {| cluster := "prod"; serviceName := "app"; revision := 0;
     images := {| Value := opts |}; backend := "SSM"; slackWebhookUrl := "" |}.

Definition app_v1 : imageOption := {| optRepositoryName := "app"; optTag := "v1" |}.
Definition app_v2 : imageOption := {| optRepositoryName := "app"; optTag := "v2" |}.
Definition proxy_latest : imageOption :=
  {| optRepositoryName := "proxy"; optTag := "latest" |}.

(** The registry holds [app:v1] and, in a repository that happens to have
    the name of the sidecar's, [proxy:latest]. *)
Definition images_app : list (string * string * string) := [("app", "v1", "manifest-app-v1")].
Definition images_app_proxy : list (string * string * string) :=
  [("app", "v1", "manifest-app-v1"); ("proxy", "latest", "manifest-proxy")].

(** Four attempts: the service with the ECR-hosted container alone; the
    scenario of the specification, with the option for [app] only; the same
    with an option that names the sidecar's repository; and an attempt
    while another deployment is in progress. *)
Definition run_web : Res unit * World * list Event :=
  execute (command [app_v1]) (world [web] 1 images_app).
Definition run_sidecar : Res unit * World * list Event :=
  execute (command [app_v1]) (world [web; sidecar] 1 images_app).
Definition run_sidecar_option : Res unit * World * list Event :=
  execute (command [app_v1; proxy_latest]) (world [web; sidecar] 1 images_app_proxy).
Definition run_deploying : Res unit * World * list Event :=
  execute (command [app_v1]) (world [web] 2 images_app).

(** The transformed task definition of the scenario. *)
Definition web_retagged : ecs.ContainerDefinition :=
  container "web" (ecrHost +:+ "/app:" +:+ uniqueID).

(** A store holding the baseline of the scenario: the task definition at
    address 1, its containers at 1 and 2, their image strings at 1 and 2. *)
Definition mem_container (name : string) (image : Mem.loc) : Mem.ContainerDefinition :=
  {| Mem.Command := []; Mem.Cpu := Some 256%Z; Mem.Environment := [];
     Mem.Essential := Some true; Mem.Image := Some image; Mem.Memory := Some 512%Z;
     Mem.Name := Some name |}.

Definition store : Mem.Store :=
  {| Mem.strings := {[ 1%positive := ecrHost +:+ "/app:v1";
                       2%positive := "public.example/proxy:latest" ]};
     Mem.containers := {[ 1%positive := mem_container "web" 1%positive;
                          2%positive := mem_container "sidecar" 2%positive ]};
     Mem.taskDefs :=
       {[ 1%positive :=
            {| Mem.Compatibilities := ["EC2"];
               Mem.ContainerDefinitions := [1%positive; 2%positive];
               Mem.tdCpu := Some "256";
               Mem.ExecutionRoleArn := Some "arn:aws:iam::123456789012:role/exec";
               Mem.Family := Some "app"; Mem.tdMemory := Some "512";
               Mem.NetworkMode := Some "bridge";
               Mem.PlacementConstraints := []; Mem.RequiresAttributes := [];
               Mem.RequiresCompatibilities := ["EC2"]; Mem.Revision := Some 7%Z;
               Mem.Status := Some "ACTIVE"; Mem.TaskDefinitionArn := Some baselineArn;
               Mem.TaskRoleArn := Some "arn:aws:iam::123456789012:role/task";
               Mem.Volumes := [] |} ]} |}.

End Stub.

(** ** Vocabulary of the properties *)

(** The parsed image of a container definition: [f.parseDockerImage( *v.Image )]. *)
Definition imageOf (c : ecs.ContainerDefinition) : Res dockerImage :=
  res_bind (deref (ecs.Image c)) parseDockerImage.

(** A container is in scope when its image parses and the host of the image
    is an ECR endpoint. *)
Definition inScope (c : ecs.ContainerDefinition) : bool :=
  match imageOf c with
  | Ok img => isECRHosted img
  | _ => false
  end.

(** The container with its image reference re-pointed to the tag [id]. *)
Definition retagged (id : string) (c : ecs.ContainerDefinition) : ecs.ContainerDefinition :=
  match imageOf c with
  | Ok img => ecs.set_Image c (Some (Name img +:+ ":" +:+ id))
  | _ => c
  end.

(** Two container definitions that differ at most in [Image]. *)
Definition sameExceptImage (c c' : ecs.ContainerDefinition) : Prop :=
  ecs.Command c = ecs.Command c' /\ ecs.Cpu c = ecs.Cpu c' /\
  ecs.Environment c = ecs.Environment c' /\ ecs.Essential c = ecs.Essential c' /\
  ecs.Memory c = ecs.Memory c' /\ ecs.Name c = ecs.Name c'.

(** Two task definitions that differ at most in [ContainerDefinitions]. *)
Definition sameExceptContainers (t t' : ecs.TaskDefinition) : Prop :=
  ecs.Compatibilities t = ecs.Compatibilities t' /\
  ecs.tdCpu t = ecs.tdCpu t' /\
  ecs.ExecutionRoleArn t = ecs.ExecutionRoleArn t' /\
  ecs.Family t = ecs.Family t' /\
  ecs.tdMemory t = ecs.tdMemory t' /\
  ecs.NetworkMode t = ecs.NetworkMode t' /\
  ecs.PlacementConstraints t = ecs.PlacementConstraints t' /\
  ecs.RequiresAttributes t = ecs.RequiresAttributes t' /\
  ecs.RequiresCompatibilities t = ecs.RequiresCompatibilities t' /\
  ecs.Revision t = ecs.Revision t' /\
  ecs.Status t = ecs.Status t' /\
  ecs.TaskDefinitionArn t = ecs.TaskDefinitionArn t' /\
  ecs.TaskRoleArn t = ecs.TaskRoleArn t' /\
  ecs.Volumes t = ecs.Volumes t'.

(** The task definition [t] with other values in the fields that
    [registerTaskDefinition] does not submit. *)
Definition with_metadata (t : ecs.TaskDefinition) (compatibilities : list string)
    (attributes : list ecs.Attribute) (revision : option Z) (status arn : option string)
    : ecs.TaskDefinition :=
  {| ecs.Compatibilities := compatibilities;
     ecs.ContainerDefinitions := ecs.ContainerDefinitions t;
     ecs.tdCpu := ecs.tdCpu t; ecs.ExecutionRoleArn := ecs.ExecutionRoleArn t;
     ecs.Family := ecs.Family t; ecs.tdMemory := ecs.tdMemory t;
     ecs.NetworkMode := ecs.NetworkMode t;
     ecs.PlacementConstraints := ecs.PlacementConstraints t;
     ecs.RequiresAttributes := attributes;
     ecs.RequiresCompatibilities := ecs.RequiresCompatibilities t;
     ecs.Revision := revision; ecs.Status := status;
     ecs.TaskDefinitionArn := arn; ecs.TaskRoleArn := ecs.TaskRoleArn t;
     ecs.Volumes := ecs.Volumes t |}.

(** Calls that re-tag an image in the registry. *)
Definition is_retag (e : Event) : bool :=
  match e with
  | EvBatchGetImage _ _ | EvPutImage _ _ => true
  | _ => false
  end.

(** Calls that change the registry, the orchestration platform or the
    history. *)
Definition is_mutation (e : Event) : bool :=
  match e with
  | EvPutImage _ _ | EvRegisterTaskDefinition _ _ | EvUpdateService _ _ _
  | EvPushState _ _ _ => true
  | _ => false
  end.

Definition is_register (e : Event) : bool :=
  match e with EvRegisterTaskDefinition _ _ => true | _ => false end.

Definition is_pushState (e : Event) : bool :=
  match e with EvPushState _ _ _ => true | _ => false end.

Definition is_newULID (e : Event) : bool :=
  match e with EvNewULID _ => true | _ => false end.

(** The requests of the [PutImage] calls of a trace, in order. *)
Definition putImages (t : list Event) : list ecr.PutImageInput :=
  omap (fun e => match e with EvPutImage p _ => Some p | _ => None end) t.

(** [strings.Contains s sub]. *)
Fixpoint Contains (s sub : string) : bool :=
  (String.prefix sub s ||
   match s with
   | EmptyString => false
   | String _ s' => Contains s' sub
   end)%bool.

(** Something other than a value: an error or a panic. *)
Definition failed {A : Type} (r : Res A) : Prop :=
  match r with Ok _ => False | _ => True end.

(** The calls and the result of a run of the pipeline. *)
Definition events {W A : Type} (x : Res A * W * list Event) : list Event := x.2.
Definition outcome {W A : Type} (x : Res A * W * list Event) : Res A := x.1.1.

(** ** The runs of [execute]

    The traces [execute] can leave, by how far it got.  [execute_run] is
    shown below to cover every run; the properties of the pipeline are read
    off it. *)

Section Runs.
Context {W : Type} `{!Platform W}.

Definition t_setup (f : deployCmd) (r : Res (option ecs.Service)) : list Event :=
  [EvNewSession (Ok tt);
   EvNewHistoryManager (backend f) (cluster f) (serviceName f) (Ok tt);
   EvDescribeService (cluster f) (serviceName f) r].

Definition t_prepared (f : deployCmd) (svc : ecs.Service) (uniqueID arn : string)
    (td : ecs.TaskDefinition) : list Event :=
  t_setup f (Ok (Some svc)) ++
  [EvNewULID (Ok uniqueID); EvDescribeTaskDefinition arn (Ok (Some td))].

Definition historyMessage (old new : Z) : string :=
  "deploy: " +:+ fmt_d old +:+ " -> " +:+ fmt_d new.

Definition t_update (svc : ecs.Service) (registerd : ecs.TaskDefinition) (old new : Z)
    (r : Res unit) : list Event :=
  let msg := "deploy: revision " +:+ fmt_d old +:+ " -> " +:+ fmt_d new +:+ String "010" "" in
  [EvLog msg; EvSlack "normal" msg; EvUpdateService (Some svc) (Some registerd) r].

Definition t_wait (f : deployCmd) (r : Res unit) : list Event :=
  [EvLog ("service updating" +:+ String "010" "");
   EvWaitUpdateService (cluster f) (serviceName f) r].

(** What [execute] does once the new task definition is registered. *)
Inductive cutover (f : deployCmd) (svc : ecs.Service) (registerd : ecs.TaskDefinition)
    (old new : Z) : Res unit -> list Event -> Prop :=
  | cutover_update_failed ru r :
      failed ru -> failed r ->
      cutover f svc registerd old new r (t_update svc registerd old new ru)
  | cutover_wait_failed rw r :
      failed rw -> failed r ->
      cutover f svc registerd old new r
        (t_update svc registerd old new (Ok tt) ++ t_wait f rw)
  | cutover_push_failed rp r :
      failed rp -> failed r ->
      cutover f svc registerd old new r
        (t_update svc registerd old new (Ok tt) ++ t_wait f (Ok tt) ++
         [EvPushState new (historyMessage old new) rp])
  | cutover_done :
      cutover f svc registerd old new (Ok tt)
        (t_update svc registerd old new (Ok tt) ++ t_wait f (Ok tt) ++
         [EvPushState new (historyMessage old new) (Ok tt);
          EvLog ("successfully updated" +:+ String "010" "");
          EvSlack "good" ("successfully updated" +:+ String "010" "")]).

(** The runs of [execute]: how far it got, the calls it made and what it
    returns. *)
Inductive execute_run (f : deployCmd) : Res unit -> list Event -> Prop :=
  | run_invalid e :
      execute_run f (Err e) []
  | run_no_session r1 r :
      failed r1 -> failed r ->
      execute_run f r [EvNewSession r1]
  | run_no_history r2 r :
      failed r2 -> failed r ->
      execute_run f r
        [EvNewSession (Ok tt);
         EvNewHistoryManager (backend f) (cluster f) (serviceName f) r2]
  | run_no_service r3 r :
      (forall svc, r3 <> Ok (Some svc)) -> failed r ->
      execute_run f r (t_setup f r3)
  | run_deploying svc :
      (1 < length (ecs.Deployments svc))%nat ->
      execute_run f (Err (errorString (serviceName f +:+ " is currently deploying")))
        (t_setup f (Ok (Some svc)))
  | run_no_ulid svc ru r :
      (length (ecs.Deployments svc) <= 1)%nat -> failed ru -> failed r ->
      execute_run f r (t_setup f (Ok (Some svc)) ++ [EvNewULID ru])
  | run_no_arn svc uniqueID r :
      (length (ecs.Deployments svc) <= 1)%nat -> failed r ->
      execute_run f r (t_setup f (Ok (Some svc)) ++ [EvNewULID (Ok uniqueID)])
  | run_no_taskDef svc uniqueID arn rtd r :
      (length (ecs.Deployments svc) <= 1)%nat ->
      failed r ->
      execute_run f r
        (t_setup f (Ok (Some svc)) ++
         [EvNewULID (Ok uniqueID); EvDescribeTaskDefinition arn rtd])
  | run_tag_failed svc uniqueID arn td newTaskDef w1 rl w2 t_loop r :
      (length (ecs.Deployments svc) <= 1)%nat ->
      createNewTaskDefinition uniqueID (Some td) = Ok newTaskDef ->
      execute_tag_loop f uniqueID (ecs.ContainerDefinitions td) w1 = (rl, w2, t_loop) ->
      failed rl -> failed r ->
      execute_run f r (t_prepared f svc uniqueID arn td ++ t_loop)
  | run_register_failed svc uniqueID arn td newTaskDef w1 w2 t_loop rr r :
      (length (ecs.Deployments svc) <= 1)%nat ->
      createNewTaskDefinition uniqueID (Some td) = Ok newTaskDef ->
      execute_tag_loop f uniqueID (ecs.ContainerDefinitions td) w1 = (Ok tt, w2, t_loop) ->
      failed r ->
      execute_run f r
        (t_prepared f svc uniqueID arn td ++ t_loop ++
         [EvRegisterTaskDefinition (registerTaskDefinition_params newTaskDef) rr])
  | run_registered svc uniqueID arn td newTaskDef w1 w2 t_loop out registerd old new r t :
      (length (ecs.Deployments svc) <= 1)%nat ->
      createNewTaskDefinition uniqueID (Some td) = Ok newTaskDef ->
      execute_tag_loop f uniqueID (ecs.ContainerDefinitions td) w1 = (Ok tt, w2, t_loop) ->
      ecs.outTaskDefinition out = Some registerd ->
      ecs.Revision td = Some old ->
      ecs.Revision registerd = Some new ->
      cutover f svc registerd old new r t ->
      execute_run f r
        (t_prepared f svc uniqueID arn td ++ t_loop ++
         EvRegisterTaskDefinition (registerTaskDefinition_params newTaskDef) (Ok out) :: t).


(** The container [c] was tagged: its image parsed, the deployer gave an
    option for its repository, and [PutImage] wrote the tag [uniqueID] in
    that repository with success. *)
Definition tagged (f : deployCmd) (uniqueID : string) (t : list Event)
    (c : ecs.ContainerDefinition) : Prop :=
  exists img opt manifest,
    imageOf c = Ok img /\
    imageOptions_Get (images f) (RepositoryName img) = Some opt /\
    EvPutImage {| ecr.putImageManifest := manifest;
                  ecr.putImageTag := Some uniqueID;
                  ecr.putRepositoryName := Some (RepositoryName img) |} (Ok tt) ∈ t.

End Runs.

(** ** What a regular expression matches

    [Matches r p c c']: the expression [r] matches the text [p], taking the
    submatches from [c] to [c'].  An iteration of [Star] consumes at least
    one character, as an iteration of the search does. *)

Inductive Matches : regexp.Regexp -> list ascii -> regexp.submatches -> regexp.submatches -> Prop :=
  | Matches_Empty c : Matches regexp.Empty [] c c
  | Matches_Char (f : ascii -> bool) a c : f a = true -> Matches (regexp.Char f) [a] c c
  | Matches_Seq r1 r2 p1 p2 c c1 c2 :
      Matches r1 p1 c c1 -> Matches r2 p2 c1 c2 ->
      Matches (regexp.Seq r1 r2) (p1 ++ p2) c c2
  | Matches_Alt_l r1 r2 p c c' : Matches r1 p c c' -> Matches (regexp.Alt r1 r2) p c c'
  | Matches_Alt_r r1 r2 p c c' : Matches r2 p c c' -> Matches (regexp.Alt r1 r2) p c c'
  | Matches_Star_nil r c : Matches (regexp.Star r) [] c c
  | Matches_Star_cons r p1 p2 c c1 c2 :
      p1 <> [] -> Matches r p1 c c1 -> Matches (regexp.Star r) p2 c1 c2 ->
      Matches (regexp.Star r) (p1 ++ p2) c c2
  | Matches_Group i r p c c' :
      Matches r p c c' -> Matches (regexp.Group i r) p c ((i, p) :: c').

(** The iteration of [Star r] inside [regexp.run], with its fuel. *)
Definition star_iter (r : regexp.Regexp)
    (k : list ascii -> regexp.submatches -> option regexp.submatches)
    : nat -> list ascii -> regexp.submatches -> option regexp.submatches :=
  fix iter (n : nat) (s : list ascii) (c : regexp.submatches) {struct n} :=
    match n with
    | O => k s c
    | S n' =>
        match regexp.run r s c (fun s' c' =>
                 if Nat.ltb (length s') (length s) then iter n' s' c' else None) with
        | Some m => Some m
        | None => k s c
        end
    end.

(** The expression has no capturing group. *)
Fixpoint nogroups (r : regexp.Regexp) : bool :=
  match r with
  | regexp.Empty | regexp.Char _ => true
  | regexp.Seq r1 r2 | regexp.Alt r1 r2 => nogroups r1 && nogroups r2
  | regexp.Star r1 => nogroups r1
  | regexp.Group _ _ => false
  end.

(** Some character class of the expression accepts the character. *)
Fixpoint accepts (r : regexp.Regexp) (a : ascii) : bool :=
  match r with
  | regexp.Empty => false
  | regexp.Char f => f a
  | regexp.Seq r1 r2 | regexp.Alt r1 r2 => accepts r1 a || accepts r2 a
  | regexp.Star r1 | regexp.Group _ r1 => accepts r1 a
  end.

(** ** The hosts of the registry

    The host names [ECRRegex] is written for: an account id, the fixed
    labels, a region made of a continent, an area and a number, and the
    domain of AWS. *)
Definition ecrContinents : list string := ["us"; "ca"; "eu"; "ap"; "sa"].
Definition ecrAreas : list string :=
  ["east"; "west"; "central"; "northeast"; "southeast"; "south"].
Definition ecrNumbers : list string := ["1"; "2"].

Definition ecrHostName (h : string) : Prop :=
  exists account continent area number,
    h = account +:+ ".dkr.ecr." +:+ continent +:+ "-" +:+ area +:+ "-" +:+ number
        +:+ ".amazonaws.com" /\
    account <> "" /\
    Forall (fun a => regexp.digit a = true) (list_ascii_of_string account) /\
    continent ∈ ecrContinents /\ area ∈ ecrAreas /\ number ∈ ecrNumbers.

(** The expression has a match of the empty text. *)
Fixpoint nullable (r : regexp.Regexp) : bool :=
  match r with
  | regexp.Empty | regexp.Star _ => true
  | regexp.Char _ => false
  | regexp.Seq r1 r2 => nullable r1 && nullable r2
  | regexp.Alt r1 r2 => nullable r1 || nullable r2
  | regexp.Group _ r1 => nullable r1
  end.

(** ** [cmd/deploy.go]: setting an image option *)

(** The two groups of the expression of [Set].  The first: runs of
    [a-z0-9] separated by one of [._], by [__] or by a possibly empty run of
    [-].  The second: [[\w][\w.-]{0,127}]. *)
Definition optionRepositoryRegexp : regexp.Regexp :=
  let alnum := regexp.Plus (regexp.Char (fun a => regexp.lower a || regexp.digit a)%bool) in
  let separator :=
    regexp.Alts [regexp.Char (regexp.oneof "._"); regexp.Lit "__";
                 regexp.Star (regexp.chr "-")] in
  regexp.Seq alnum (regexp.Star (regexp.Seq separator alnum)).

Definition optionTagRegexp : regexp.Regexp :=
  regexp.Seq (regexp.Char regexp.word)
    (regexp.UpTo 127 (regexp.Char (fun a => regexp.word a || regexp.oneof ".-" a)%bool)).

(** [^(...):(...)$], the expression compiled by [Set]. *)
Definition imageOptionRegexp : regexp.Regexp :=
  regexp.Seqs [regexp.Group 1 optionRepositoryRegexp; regexp.chr ":";
               regexp.Group 2 optionTagRegexp].

(** [func (t *imageOptions) Set(v string) error]: the error returned and the
    options afterwards. *)
Definition imageOptions_Set (t : imageOptions) (v : string) : option error * imageOptions :=
  match regexp.FindStringSubmatch imageOptionRegexp v with
  | None => (Some (errorString ("invalid format " +:+ v)), t)
  | Some matches =>
      let opt := {| optRepositoryName := regexp.submatch 1 matches;
                    optTag := regexp.submatch 2 matches |} in
      (None, {| Value := Value t ++ [opt] |})
  end.

(** The repository [Parse] makes of the name of a reference: the domain
    and the path when the name splits into them, else the name as the
    path. *)
Definition repositoryOf (name : string) : reference.repository :=
  match regexp.FindStringSubmatch reference.anchoredNameRegexp name with
  | Some nameMatch =>
      {| reference.domain := regexp.submatch 1 nameMatch;
         reference.path := regexp.submatch 2 nameMatch |}
  | None => {| reference.domain := ""; reference.path := name |}
  end.

(** The options the flags can give: made from no option by calls of [Set]
    that returned no error. *)
Inductive from_flags : imageOptions -> Prop :=
  | from_flags_none : from_flags {| Value := [] |}
  | from_flags_Set t v t' :
      from_flags t -> imageOptions_Set t v = (None, t') -> from_flags t'.

(** ** The command around [execute] *)

Section Command.
Context {W : Type} `{!Platform W}.

(** The message of the [RunE] closure for a failed attempt. *)
Definition failureMessage (f : deployCmd) : string :=
  "failed to deploy. cluster: " +:+ cluster f +:+ ", serviceName: " +:+ serviceName f
  +:+ String "010" "".

(** The [RunE] closure of [NewDeployCommand]: it runs [execute]; when that
    returns an error it logs the failure, sends it to Slack as [danger] and
    returns the error.  A panic of [execute] unwinds through the closure. *)
Definition RunE (f : deployCmd) : M W unit :=
  fun w =>
    match execute f w with
    | (Err err, w1, t) =>
        let msg := failureMessage f in
        (Err err, logger_Slack "danger" msg (logger_Log msg w1),
         t ++ [EvLog msg; EvSlack "danger" msg])
    | (Ok _, w1, t) => (Ok tt, w1, t)
    | (Panic p, w1, t) => (Panic p, w1, t)
    end.

End Command.

(** ** What a call raised *)

Definition response {A : Type} (r : Res A) : Res unit :=
  match r with
  | Ok _ => Ok tt
  | Err e => Err e
  | Panic p => Panic p
  end.

(** What the caller of an external call is left with: nothing, the error
    of the call, or a panic.  [ulid.MustNew] turns the error of [ulid.New]
    into a panic; a notification returns nothing. *)
Definition raised (e : Event) : Res unit :=
  match e with
  | EvNewSession r => response r
  | EvNewHistoryManager _ _ _ r => response r
  | EvDescribeService _ _ r => response r
  | EvNewULID r =>
      match r with
      | Ok _ => Ok tt
      | Err e => Panic (MustPanic e)
      | Panic p => Panic p
      end
  | EvDescribeTaskDefinition _ r => response r
  | EvBatchGetImage _ r => response r
  | EvPutImage _ r => response r
  | EvRegisterTaskDefinition _ r => response r
  | EvUpdateService _ _ r => response r
  | EvWaitUpdateService _ _ r => response r
  | EvPushState _ _ r => response r
  | EvLog _ | EvSlack _ _ => Ok tt
  end.

(** The calls of the loop of [execute] that went through all of [cds]: for
    each container, in order, the image with the tag of the deployer's
    option is read and its manifest is written under the tag [uniqueID]. *)
Inductive tag_trace (f : deployCmd) (uniqueID : string)
    : list ecs.ContainerDefinition -> list Event -> Prop :=
  | tag_trace_nil : tag_trace f uniqueID [] []
  | tag_trace_cons c cds img opt out i l t :
      imageOf c = Ok img ->
      imageOptions_Get (images f) (RepositoryName img) = Some opt ->
      ecr.Images out = i :: l ->
      tag_trace f uniqueID cds t ->
      tag_trace f uniqueID (c :: cds)
        (EvBatchGetImage (tagDockerImage_params (RepositoryName img) (optTag opt)) (Ok out)
         :: EvPutImage {| ecr.putImageManifest := ecr.ImageManifest i;
                          ecr.putRepositoryName := Some (RepositoryName img);
                          ecr.putImageTag := Some uniqueID |} (Ok tt)
         :: t).

Definition is_updateService (e : Event) : bool :=
  match e with EvUpdateService _ _ _ => true | _ => false end.

Definition is_waitUpdateService (e : Event) : bool :=
  match e with EvWaitUpdateService _ _ _ => true | _ => false end.

(** A computation that stops at the first call that raises something, and
    returns what that call raised. *)
Definition stops_at_failure {W A : Type} (m : M W A) : Prop :=
  forall w r w' t pre ev post,
    m w = (r, w', t) -> t = pre ++ ev :: post -> raised ev <> Ok tt ->
    post = [] /\ response r = raised ev.

(** ** Runs that fail

    Worlds and inputs on which the pipeline does not go through. *)

Module Outage.

(** A world in which the service never reaches the new task definition. *)

Definition stalled : Stub.World :=
  {| Stub.region := "us-east-1";
     Stub.service := Stub.service (Stub.world [Stub.web] 1 Stub.images_app);
     Stub.taskDefinitions := Stub.taskDefinitions (Stub.world [Stub.web] 1 Stub.images_app);
     Stub.registry := Stub.images_app;
     Stub.nextRevision := 8;
     Stub.converges := false;
     Stub.history := [];
     Stub.output := [] |}.

Definition run_stalled : Res unit * Stub.World * list Event :=
  execute (Platform0 := Stub.platform) (Stub.command [Stub.app_v1]) stalled.

(** A world whose task definition has no revision. *)
Definition unnumbered : ecs.TaskDefinition :=
  with_metadata (Stub.taskDefinition [Stub.web]) ["EC2"] [] None (Some "ACTIVE")
    (Some Stub.baselineArn).

Definition no_revision : Stub.World :=
  {| Stub.region := "us-east-1";
     Stub.service := Stub.service (Stub.world [Stub.web] 1 Stub.images_app);
     Stub.taskDefinitions := [(Stub.baselineArn, unnumbered)];
     Stub.registry := Stub.images_app;
     Stub.nextRevision := 8;
     Stub.converges := true;
     Stub.history := [];
     Stub.output := [] |}.

Definition run_no_revision : Res unit * Stub.World * list Event :=
  execute (Platform0 := Stub.platform) (Stub.command [Stub.app_v1]) no_revision.

(** A container whose image is not a reference, and an attempt on a
    service that has it beside [web]. *)
Definition unparsable : ecs.ContainerDefinition := Stub.container "job" "Job:latest".

Definition run_unparsable : Res unit * Stub.World * list Event :=
  execute (Platform0 := Stub.platform) (Stub.command [Stub.app_v1])
    (Stub.world [Stub.web; unparsable] 1 Stub.images_app).

End Outage.

(** In the store [h'], the container at [v] and the string at [s], which
    is the image of that container, are objects that [h] did not have. *)
Definition new_container (h h' : Mem.Store) (v s : Mem.loc) : Prop :=
  Mem.containers h !! v = None /\ Mem.strings h !! s = None /\
  exists o, Mem.containers h' !! v = Some o /\ Mem.Image o = Some s /\
            is_Some (Mem.strings h' !! s).

(** * Properties *)

(** ** The parser and the classifier on sample inputs *)

Example parseDockerImage_ecr :
  parseDockerImage "123456789012.dkr.ecr.us-east-1.amazonaws.com/app:v1" =
    Ok {| Name := "123456789012.dkr.ecr.us-east-1.amazonaws.com/app"; Tag := "v1";
          RepositoryName := "app";
          HostName := "123456789012.dkr.ecr.us-east-1.amazonaws.com" |}.
Proof. vm_compute. reflexivity. Qed.

Example parseDockerImage_other_registry :
  parseDockerImage "public.example/proxy:latest" =
    Ok {| Name := "public.example/proxy"; Tag := "latest";
          RepositoryName := "proxy"; HostName := "public.example" |}.
Proof. vm_compute. reflexivity. Qed.

Example parseDockerImage_port_and_path :
  parseDockerImage "localhost:5000/team/app_1:1.2-rc" =
    Ok {| Name := "localhost:5000/team/app_1"; Tag := "1.2-rc";
          RepositoryName := "team/app_1"; HostName := "localhost:5000" |}.
Proof. vm_compute. reflexivity. Qed.

Example parseDockerImage_bare :
  parseDockerImage "nginx:1.25" =
    Ok {| Name := "nginx"; Tag := "1.25"; RepositoryName := "nginx"; HostName := "" |}.
Proof. vm_compute. reflexivity. Qed.

Example parseDockerImage_uppercase :
  parseDockerImage "Nginx:1.25" = Err reference.ErrNameContainsUppercase.
Proof. vm_compute. reflexivity. Qed.

Example parseDockerImage_empty : parseDockerImage "" = Err reference.ErrNameEmpty.
Proof. vm_compute. reflexivity. Qed.

(** The Kelvin sign, U+212A, lowers to [k]: the name counts as upper case. *)
Example parseDockerImage_kelvin_sign :
  parseDockerImage (String "226" (String "132" (String "170" "ube:1"))) =
    Err reference.ErrNameContainsUppercase.
Proof. vm_compute. reflexivity. Qed.

(** A digest is checked for its form before its algorithm is looked up. *)
Example parseDockerImage_digests :
  map parseDockerImage
    ["busybox:1@sha256:0123456789abcdef0123456789abcdef0123456789abcdef0123456789abcdef";
     "busybox:1@SHA256:0123456789abcdef0123456789abcdef0123456789abcdef0123456789abcdef";
     "busybox:1@md5:0123456789abcdef0123456789abcdef";
     "busybox:1@sha256:0123456789abcdef0123456789abcdef"] =
    [Ok {| Name := "busybox"; Tag := "1"; RepositoryName := "busybox"; HostName := "" |};
     Err reference.ErrDigestInvalidFormat;
     Err reference.ErrDigestUnsupported;
     Err reference.ErrDigestInvalidLength].
Proof. vm_compute. reflexivity. Qed.

Example parseDockerImage_bad_separator :
  parseDockerImage "foo___bar:x" = Err reference.ErrReferenceInvalidFormat.
Proof. vm_compute. reflexivity. Qed.

Example ECRRegex_samples :
  map (regexp.MatchString ECRRegex)
    ["123456789012.dkr.ecr.us-east-1.amazonaws.com";
     "1.dkr.ecr.ap-southeast-2.amazonaws.com";
     "1.dkr.ecr.ap-south-1.amazonaws.com";
     "1.dkr.ecr.eu-central-1.amazonaws.com";
     "1.dkr.ecr.ap-south-3.amazonaws.com";
     ".dkr.ecr.us-east-1.amazonaws.com";
     "1.dkr.ecr.us-east-1.amazonaws.com.cn";
     "1xdkr.ecr.us-east-1.amazonaws.com";
     "public.example";
     ""] =
    [true; true; true; true; false; false; false; false; false; false].
Proof. vm_compute. reflexivity. Qed.

Example fmt_d_samples : map fmt_d [0; 7; 128; -12]%Z = ["0"; "7"; "128"; "-12"].
Proof. vm_compute. reflexivity. Qed.

Example imageOptions_Get_first :
  imageOptions_Get
    {| Value := [{| optRepositoryName := "app"; optTag := "v1" |};
                 {| optRepositoryName := "app"; optTag := "v2" |}] |} "app" =
    Some {| optRepositoryName := "app"; optTag := "v1" |}.
Proof. reflexivity. Qed.

(** ** The transform *)

Section Transform.
Variable id : string.

Lemma imageOf_Ok (c : ecs.ContainerDefinition) (img : dockerImage) :
  imageOf c = Ok img <->
  exists image, ecs.Image c = Some image /\ parseDockerImage image = Ok img.
Proof.
  unfold imageOf. destruct (ecs.Image c) as [image|]; simpl; split.
  - eauto.
  - intros (image' & [= <-] & H). exact H.
  - discriminate.
  - intros (? & [=] & _).
Qed.

(** One round of the loop in terms of [imageOf]. *)
Lemma createNewTaskDefinition_loop_cons c cds containers :
  createNewTaskDefinition_loop id (c :: cds) containers =
  res_bind (imageOf c) (fun img =>
    if isECRHosted img
    then createNewTaskDefinition_loop id cds
           (containers ++ [ecs.set_Image c (Some (Name img +:+ ":" +:+ id))])
    else createNewTaskDefinition_loop id cds containers).
Proof. unfold imageOf. simpl. by destruct (ecs.Image c). Qed.

Lemma filter_inScope_cons c cds :
  List.filter inScope (c :: cds) =
  if inScope c then c :: List.filter inScope cds else List.filter inScope cds.
Proof. reflexivity. Qed.

(** The loop appends to [containers] the re-tagged in-scope elements, in
    the order of the slice it ranges over. *)
Lemma createNewTaskDefinition_loop_Ok cds :
  forall containers res,
    createNewTaskDefinition_loop id cds containers = Ok res ->
    Forall (fun c => exists img, imageOf c = Ok img) cds /\
    res = containers ++ map (retagged id) (List.filter inScope cds).
Proof.
  induction cds as [|c cds IH]; intros containers res.
  - intros [= <-]. split; [constructor | by rewrite app_nil_r].
  - rewrite createNewTaskDefinition_loop_cons, filter_inScope_cons.
    unfold inScope at 1.
    destruct (imageOf c) as [img| |] eqn:Hc; simpl; [|discriminate..].
    destruct (isECRHosted img) eqn:Hh; intros H; apply IH in H as [Hall ->].
    + split; [constructor; eauto|].
      simpl. unfold retagged at 2. rewrite Hc. by rewrite <- app_assoc.
    + split; [constructor; eauto|]. done.
Qed.

Lemma createNewTaskDefinition_loop_total cds :
  forall containers,
    Forall (fun c => exists img, imageOf c = Ok img) cds ->
    exists res, createNewTaskDefinition_loop id cds containers = Ok res.
Proof.
  induction cds as [|c cds IH]; intros containers Hall; [simpl; eauto|].
  inversion_clear Hall as [|? ? [img Hc] Hrest].
  rewrite createNewTaskDefinition_loop_cons, Hc. simpl.
  destruct (isECRHosted img); apply IH, Hrest.
Qed.

(** What a successful transform returns. *)
Lemma createNewTaskDefinition_Ok taskDef newTaskDef :
  createNewTaskDefinition id taskDef = Ok newTaskDef ->
  exists td,
    taskDef = Some td /\
    Forall (fun c => exists img, imageOf c = Ok img) (ecs.ContainerDefinitions td) /\
    newTaskDef =
      ecs.set_ContainerDefinitions td
        (map (retagged id) (List.filter inScope (ecs.ContainerDefinitions td))).
Proof.
  unfold createNewTaskDefinition. destruct taskDef as [td|]; simpl; [|discriminate].
  destruct (createNewTaskDefinition_loop id (ecs.ContainerDefinitions td) [])
    as [res| |] eqn:Hl; simpl; [|discriminate..].
  intros [= <-]. apply createNewTaskDefinition_loop_Ok in Hl as [Hall ->].
  exists td. by repeat split.
Qed.

Lemma createNewTaskDefinition_total (td : ecs.TaskDefinition) :
  Forall (fun c => exists img, imageOf c = Ok img) (ecs.ContainerDefinitions td) ->
  createNewTaskDefinition id (Some td) =
    Ok (ecs.set_ContainerDefinitions td
          (map (retagged id) (List.filter inScope (ecs.ContainerDefinitions td)))).
Proof.
  intros Hall.
  destruct (createNewTaskDefinition_loop_total (ecs.ContainerDefinitions td) [] Hall)
    as [res Hres].
  unfold createNewTaskDefinition. simpl. rewrite Hres. simpl.
  by apply createNewTaskDefinition_loop_Ok in Hres as [_ ->].
Qed.

Lemma retagged_inScope c :
  inScope c = true ->
  exists img, imageOf c = Ok img /\ isECRHosted img = true /\
    retagged id c = ecs.set_Image c (Some (Name img +:+ ":" +:+ id)).
Proof.
  unfold inScope, retagged. destruct (imageOf c) as [img| |]; [|discriminate..].
  intros H. by exists img.
Qed.

(** C1. For every baseline, the transform returns a task definition exactly
    when the image of every container parses, and the containers of that
    task definition are then, in the original order, the baseline
    containers whose image host is an ECR endpoint, each with its image
    reference set to the parsed name, a colon and the id; a container
    hosted elsewhere is not in the result. *)
Theorem createNewTaskDefinition_retags (td : ecs.TaskDefinition) :
  (forall newTaskDef,
     createNewTaskDefinition id (Some td) = Ok newTaskDef <->
     Forall (fun c => exists img, imageOf c = Ok img) (ecs.ContainerDefinitions td) /\
     newTaskDef =
       ecs.set_ContainerDefinitions td
         (map (retagged id) (List.filter inScope (ecs.ContainerDefinitions td)))) /\
  (forall c img, imageOf c = Ok img ->
     inScope c = isECRHosted img /\
     retagged id c = ecs.set_Image c (Some (Name img +:+ ":" +:+ id))).
Proof.
  split.
  - intros newTaskDef. split.
    + intros H. apply createNewTaskDefinition_Ok in H as (td' & [= <-] & Hall & ->).
      by split.
    + intros [Hall ->]. by apply createNewTaskDefinition_total.
  - intros c img Hc. unfold inScope, retagged. by rewrite Hc.
Qed.

(** ** Parsing an image reference *)

(** What [parseDockerImage] returns, by the reference [Parse] returns. *)
Lemma parseDockerImage_cases (image : string) :
  match reference.Parse image with
  | Ok (reference.taggedReference repo tag)
  | Ok (reference.fullReference repo tag _) =>
      parseDockerImage image =
        Ok {| Name := reference.repository_Name repo; Tag := tag;
              RepositoryName := reference.path repo; HostName := reference.domain repo |}
  | Ok (reference.namedRepository _)
  | Ok (reference.canonicalReference _ _) =>
      parseDockerImage image = Panic (InterfaceConversion "reference.Tagged")
  | Ok (reference.digestReference _) =>
      parseDockerImage image = Panic (InterfaceConversion "reference.Named")
  | Err e => parseDockerImage image = Err e
  | Panic p => parseDockerImage image = Panic p
  end.
Proof.
  unfold parseDockerImage. by destruct (reference.Parse image) as [[]| |].
Qed.

End Transform.

(** ** Runs of the pipeline *)

Section RunLemmas.
Context {W : Type} `{!Platform W}.

Lemma read_inv {A : Type} (g : W -> A) (w : W) r w' t :
  read g w = (r, w', t) -> r = Ok (g w) /\ w' = w /\ t = [].
Proof. by intros [= <- <- <-]. Qed.

Lemma newUniqueID_Ok w id w' t :
  newUniqueID w = (Ok id, w', t) -> t = [EvNewULID (Ok id)].
Proof.
  unfold newUniqueID. destruct (ulid_New w) as [[id'|e|p] w1]; by intros [= <- <- <-].
Qed.

Lemma newUniqueID_failed w r w' t :
  newUniqueID w = (r, w', t) -> failed r -> exists ru, t = [EvNewULID ru] /\ failed ru.
Proof.
  unfold newUniqueID. destruct (ulid_New w) as [[id'|e|p] w1]; intros [= <- <- <-] Hf;
    [destruct Hf|..]; by eexists.
Qed.


Lemma bind_inv {A B : Type} (m : M W A) (k : A -> M W B) w r w' t :
  bind m k w = (r, w', t) ->
  (exists a w1 t1 t2, m w = (Ok a, w1, t1) /\ k a w1 = (r, w', t2) /\ t = t1 ++ t2) \/
  (exists r0, m w = (r0, w', t) /\ failed r0 /\ failed r /\
     (forall e, r0 = Err e -> r = Err e) /\ (forall p, r0 = Panic p -> r = Panic p)).
Proof.
  unfold bind. destruct (m w) as [[[a|e|p] w1] t1].
  - destruct (k a w1) as [[r2 w2] t2] eqn:Hk. intros [= <- <- <-]. left. exists a, w1, t1, t2. by rewrite Hk.
  - intros [= <- <- <-]. right. exists (Err e). repeat split; auto; congruence.
  - intros [= <- <- <-]. right. exists (Panic p). repeat split; auto; congruence.
Qed.

Lemma call_inv {A : Type} (op : W -> Res A * W) ev w (r : Res A) w' t :
  call op ev w = (r, w', t) -> op w = (r, w') /\ t = [ev r].
Proof. unfold call. destruct (op w). by intros [= <- <- <-]. Qed.

Lemma lift_inv {A : Type} (x : Res A) (w : W) r w' t :
  lift x w = (r, w', t) -> x = r /\ w' = w /\ t = [].
Proof. by intros [= <- <- <-]. Qed.

Lemma ret_inv {A : Type} (a : A) (w : W) r w' t :
  ret a w = (r, w', t) -> r = Ok a /\ w' = w /\ t = [].
Proof. by intros [= <- <- <-]. Qed.

Lemma notify_inv (op : W -> W) ev (w : W) r w' t :
  notify op ev w = (r, w', t) -> r = Ok tt /\ w' = op w /\ t = [ev].
Proof. by intros [= <- <- <-]. Qed.

Lemma deref_Ok {A : Type} (p : option A) (a : A) : deref p = Ok a -> p = Some a.
Proof. destruct p; simpl; congruence. Qed.

Ltac inv_run :=
  repeat match goal with
  | H : bind _ _ _ = _ |- _ =>
      apply bind_inv in H as
        [(? & ? & ? & ? & ? & H & ?) | (? & ? & ? & ? & ? & ?)]
  | H : call _ _ _ = _ |- _ => apply call_inv in H as [? ?]
  | H : lift _ _ = _ |- _ => apply lift_inv in H as (? & ? & ?)
  | H : ret _ _ = _ |- _ => apply ret_inv in H as (? & ? & ?)
  | H : notify _ _ _ = _ |- _ => apply notify_inv in H as (? & ? & ?)
  | H : read _ _ = _ |- _ => apply read_inv in H as (? & ? & ?)
  | H : newUniqueID _ = (Ok _, _, _) |- _ => apply newUniqueID_Ok in H
  | H : newUniqueID _ = (?r, _, _), Hf : failed ?r |- _ =>
      apply newUniqueID_failed in H as (? & ? & ?); [|exact Hf]
  | H : registerTaskDefinition _ _ = _ |- _ => unfold registerTaskDefinition in H
  | H : failed (Ok _) |- _ => destruct H
  | H : False |- _ => destruct H
  | x : unit |- _ => destruct x
  | H : deref _ = Ok _ |- _ => apply deref_Ok in H
  | H : failed (deref ?x) |- _ => is_var x; destruct x; [destruct H|]
  | _ => progress simplify_eq/=
  end.


Ltac run_case :=
  first
    [ solve [eapply run_invalid; eauto]
    | solve [eapply run_no_session; eauto]
    | solve [eapply run_no_history; eauto]
    | solve [eapply run_no_service; eauto; intros ? ?; simplify_eq/=; done]
    | solve [eapply run_deploying; eauto]
    | solve [eapply run_no_ulid; eauto]
    | solve [eapply run_no_arn; eauto]
    | solve [eapply run_no_taskDef; eauto]
    | solve [eapply run_tag_failed; eauto]
    | solve [eapply run_register_failed; eauto]
    | solve [eapply run_registered; eauto using eq_sym;
             first [ eapply cutover_done
                   | eapply cutover_push_failed
                   | eapply cutover_wait_failed
                   | eapply cutover_update_failed ]; eauto] ].

Lemma execute_runs f w r w' t :
  execute f w = (r, w', t) -> execute_run f r t.
Proof.
  unfold execute.
  destruct (String.eqb (cluster f) ""); [intros [= <- <- <-]; constructor|].
  destruct (String.eqb (serviceName f) ""); [intros [= <- <- <-]; constructor|].
  destruct (Nat.eqb (length (Value (images f))) 0); [intros [= <- <- <-]; constructor|].
  intros H.
  apply bind_inv in H as [(region & ? & ? & ? & ? & H & ?) | (? & ? & ? & ? & ? & ?)];
    inv_run.
  destruct (String.eqb (getAWSRegion w) ""); [inv_run; constructor|].
  inv_run; try run_case.
  destruct (Nat.ltb_spec 1 (length (ecs.Deployments x12))); [inv_run; run_case|].
  assert (length (ecs.Deployments x12) <= 1)%nat by lia.
  inv_run; run_case.
Qed.

(** *** Lists of events *)

Lemma app_cons_unique {A : Type} (p : A -> bool) (l1 : list A) x l2 pre y post :
  l1 ++ x :: l2 = pre ++ y :: post ->
  p x = true -> p y = true ->
  Forall (fun e => p e = false) l1 -> Forall (fun e => p e = false) l2 ->
  pre = l1 /\ y = x /\ post = l2.
Proof.
  intros Heq Hx Hy H1 H2. revert pre Heq.
  induction H1 as [|a l1 Ha H1 IH]; intros [|b pre]; simpl; intros [= -> Heq].
  - done.
  - rewrite Forall_forall in H2. specialize (H2 y). rewrite Heq in H2.
    rewrite H2 in Hy; [done|]. apply elem_of_app. right. by left.
  - congruence.
  - by destruct (IH _ Heq) as (-> & -> & ->).
Qed.

Lemma app_app_cons_unique {A : Type} (p : A -> bool) (l0 l1 : list A) x l2 pre y post :
  l0 ++ l1 ++ x :: l2 = pre ++ y :: post ->
  p x = true -> p y = true ->
  Forall (fun e => p e = false) l0 -> Forall (fun e => p e = false) l1 ->
  Forall (fun e => p e = false) l2 ->
  pre = l0 ++ l1 /\ y = x /\ post = l2.
Proof.
  intros Heq Hx Hy H0 H1 H2. apply (app_cons_unique p (l0 ++ l1) x l2); auto.
  - by rewrite <- Heq, <- (assoc_L (++)).
  - by apply Forall_app_2.
Qed.

Lemma app_app_app_cons_unique {A : Type} (p : A -> bool) (l0 l1 l2 : list A) x l3
    pre y post :
  l0 ++ l1 ++ l2 ++ x :: l3 = pre ++ y :: post ->
  p x = true -> p y = true ->
  Forall (fun e => p e = false) l0 -> Forall (fun e => p e = false) l1 ->
  Forall (fun e => p e = false) l2 -> Forall (fun e => p e = false) l3 ->
  pre = l0 ++ l1 ++ l2 /\ y = x /\ post = l3.
Proof.
  intros Heq Hx Hy H0 H1 H2 H3.
  apply (app_cons_unique p (l0 ++ l1 ++ l2) x l3); auto.
  - by rewrite <- Heq, <- !(assoc_L (++)).
  - by repeat apply Forall_app_2.
Qed.

Lemma app_cons_absent {A : Type} (p : A -> bool) (t pre : list A) y post :
  t = pre ++ y :: post -> p y = true -> Forall (fun e => p e = false) t -> False.
Proof.
  intros -> Hy H. rewrite Forall_forall in H. specialize (H y).
  rewrite H in Hy; [done|]. apply elem_of_app. right. by left.
Qed.

(** The calls of [tagDockerImage]. *)
Lemma tagDockerImage_inv repoName fromTag toTag w r w' t :
  tagDockerImage repoName fromTag toTag w = (r, w', t) ->
  let params := tagDockerImage_params repoName fromTag in
  (exists rb, t = [EvBatchGetImage params rb] /\ failed r) \/
  (exists out i l rp,
     ecr.Images out = i :: l /\
     t = [EvBatchGetImage params (Ok out);
          EvPutImage {| ecr.putImageManifest := ecr.ImageManifest i;
                        ecr.putImageTag := Some toTag;
                        ecr.putRepositoryName := Some repoName |} rp] /\
     (r = Ok tt -> rp = Ok tt) /\ (rp = Ok tt -> r = Ok tt)).
Proof.
  unfold tagDockerImage. intros H. inv_run.
  all: try (left; eexists; split; [reflexivity|]; done).
  all: right; destruct (ecr.Images _) eqn:?; simplify_eq;
    do 4 eexists; (split; [eassumption|]); (split; [reflexivity|]);
    split; intros; simplify_eq/=; done.
Qed.

Lemma tagged_mono f uniqueID t t' c :
  (forall e, e ∈ t -> e ∈ t') -> tagged f uniqueID t c -> tagged f uniqueID t' c.
Proof. intros Hsub (img & opt & m & ? & ? & ?). exists img, opt, m. auto. Qed.

(** The loop that tags the images makes only registry calls, writes only
    the tag [uniqueID], and when it returns normally every container it
    ranged over was tagged. *)
Lemma execute_tag_loop_inv f uniqueID cds :
  forall w r w' t,
    execute_tag_loop f uniqueID cds w = (r, w', t) ->
    Forall (fun e => is_retag e = true) t /\
    (forall p rp, EvPutImage p rp ∈ t -> ecr.putImageTag p = Some uniqueID) /\
    (r = Ok tt -> Forall (tagged f uniqueID t) cds).
Proof.
  induction cds as [|c cds IH]; intros w r w' t H; simpl in H.
  - inv_run. split; [constructor|]. split; [by intros ? ? ?%elem_of_nil|]. constructor.
  - apply bind_inv in H as
      [(image & w1 & t1 & t2 & Hi & H & ->) | (r0 & H & Hf & Hr & _)]; cycle 1.
    { apply lift_inv in H as (_ & _ & ->).
      split; [constructor|]. split; [by intros ? ? ?%elem_of_nil|].
      intros ->. destruct Hr. }
    apply lift_inv in Hi as (Hi & -> & ->).
    apply bind_inv in H as
      [(img & w2 & t3 & t4 & Hp & H & ->) | (r0 & H & Hf & Hr & _)]; cycle 1.
    { apply lift_inv in H as (_ & _ & ->).
      split; [constructor|]. split; [by intros ? ? ?%elem_of_nil|].
      intros ->. destruct Hr. }
    apply lift_inv in Hp as (Hp & -> & ->). simpl.
    assert (imageOf c = Ok img) as Hc.
    { unfold imageOf. by rewrite Hi. }
    destruct (imageOptions_Get (images f) (RepositoryName img)) as [opt|] eqn:Hopt;
      cycle 1.
    { apply lift_inv in H as (<- & _ & ->).
      split; [constructor|]. split; [by intros ? ? ?%elem_of_nil|]. done. }
    apply bind_inv in H as
      [([] & w3 & t5 & t6 & Ht & H & ->) | (r0 & Ht & Hf & Hr & _)].
    + apply IH in H as (Hall & Hput & Hok).
      apply tagDockerImage_inv in Ht as
        [(rb & -> & [])|(out & i & l & rp & Hi' & -> & Hr1 & _)].
      rewrite (Hr1 eq_refl).
      split; [repeat constructor; done|]. split.
      * intros p rp' Hin. simpl in Hin. rewrite !elem_of_cons in Hin.
        destruct Hin as [?|[?|Hin]]; simplify_eq/=; eauto.
      * intros ->. constructor.
        -- exists img, opt, (ecr.ImageManifest i). repeat split; [done..|].
           right. by left.
        -- eapply Forall_impl; [by apply Hok|]. intros c'.
           apply tagged_mono. intros e He. by do 2 right.
    + apply tagDockerImage_inv in Ht as
        [(rb & -> & _)|(out & i & l & rp & Hi' & -> & _ & _)].
      * split; [repeat constructor|]. split.
        -- intros p rp' Hin. rewrite !elem_of_cons, elem_of_nil in Hin.
           destruct Hin as [?|[]]; simplify_eq.
        -- intros ->. destruct Hr.
      * split; [repeat constructor|]. split.
        -- intros p rp' Hin. rewrite !elem_of_cons, elem_of_nil in Hin.
           destruct Hin as [?|[?|[]]]; simplify_eq/=. done.
        -- intros ->. destruct Hr.
Qed.

(** Case analysis on the runs of [execute]: the trace is one of those of
    [execute_run], and the loop over the containers, when it was reached,
    satisfies [execute_tag_loop_inv]. *)
Ltac run_cases H :=
  apply execute_runs in H; inversion H; subst; clear H;
  repeat match goal with
  | H : cutover _ _ _ _ _ _ _ |- _ => inversion H; subst; clear H
  | H : execute_tag_loop _ _ _ _ = _ |- _ =>
      apply execute_tag_loop_inv in H as (? & ? & ?)
  end.

Ltac unfold_traces := unfold t_prepared, t_update, t_wait, t_setup in *.

(** No event of a trace given by its elements satisfies the test. *)
Ltac no_event :=
  unfold_traces; simpl;
  solve [ repeat first
    [ apply Forall_nil_2
    | apply Forall_cons_2; [reflexivity|]
    | apply Forall_app_2
    | eapply Forall_impl; [eassumption|]; intros []; simpl; congruence ] ].

(** Membership of an event in a trace given by its elements. *)
Ltac elem_cases H :=
  simpl in H;
  repeat (rewrite ?elem_of_app, ?elem_of_cons, ?elem_of_nil in H);
  destruct_or?; simplify_eq/=;
  try match goal with
      | Hall : Forall (fun e => is_retag e = true) ?t, Hin : _ ∈ ?t |- _ =>
          rewrite Forall_forall in Hall; apply Hall in Hin; discriminate Hin
      end;
  try done.

(** ** The precondition on overlapping deployments *)

(** C4. When the service described at the start of the attempt has more
    than one deployment, [execute] returns the error that the service is
    currently deploying, and the attempt has made no call that tags an
    image, registers a task definition, updates the service or writes the
    history. *)
Theorem deploying_aborts (f : deployCmd) (w : W) (svc : ecs.Service) :
  EvDescribeService (cluster f) (serviceName f) (Ok (Some svc)) ∈ events (execute f w) ->
  (1 < length (ecs.Deployments svc))%nat ->
  outcome (execute f w) =
    Err (errorString (serviceName f +:+ " is currently deploying")) /\
  events (execute f w) = t_setup f (Ok (Some svc)) /\
  Forall (fun e => is_retag e = false /\ is_mutation e = false) (events (execute f w)).
Proof.
  destruct (execute f w) as [[r w'] t] eqn:H. unfold events, outcome. simpl.
  run_cases H; intros Hin Hlen; unfold_traces; elem_cases Hin; try lia.
  - match goal with Hn : forall svc0, _ <> Ok (Some svc0) |- _ => by destruct (Hn svc) end.
  - repeat split. repeat constructor.
Qed.


(** ** Tagging before registration *)

(** The containers of the request of a successful transform. *)
Lemma registered_containers uniqueID td newTaskDef :
  createNewTaskDefinition uniqueID (Some td) = Ok newTaskDef ->
  ecs.inContainerDefinitions (registerTaskDefinition_params newTaskDef) =
    map (retagged uniqueID) (List.filter inScope (ecs.ContainerDefinitions td)).
Proof.
  intros H. apply createNewTaskDefinition_Ok in H as (td' & [= <-] & _ & ->). done.
Qed.

(** The containers submitted for registration and the containers of the
    baseline: each submitted container is an in-scope container of the
    baseline with the image reference made of the name that container's
    image parses to, a colon and the id; and each in-scope container of the
    baseline was tagged, in the repository its image parses to. *)
Lemma registered_images_linked f uniqueID td newTaskDef (l0 t_loop : list Event) :
  createNewTaskDefinition uniqueID (Some td) = Ok newTaskDef ->
  Forall (tagged f uniqueID t_loop) (ecs.ContainerDefinitions td) ->
  ecs.inContainerDefinitions (registerTaskDefinition_params newTaskDef) =
    map (retagged uniqueID) (List.filter inScope (ecs.ContainerDefinitions td)) /\
  Forall (fun c => inScope c = true ->
            exists img manifest,
              imageOf c = Ok img /\ isECRHosted img = true /\
              EvPutImage {| ecr.putImageManifest := manifest;
                            ecr.putImageTag := Some uniqueID;
                            ecr.putRepositoryName := Some (RepositoryName img) |}
                         (Ok tt) ∈ l0 ++ t_loop)
         (ecs.ContainerDefinitions td) /\
  Forall (fun c' => exists c img manifest,
            c ∈ ecs.ContainerDefinitions td /\
            imageOf c = Ok img /\ isECRHosted img = true /\
            c' = ecs.set_Image c (Some (Name img +:+ ":" +:+ uniqueID)) /\
            EvPutImage {| ecr.putImageManifest := manifest;
                          ecr.putImageTag := Some uniqueID;
                          ecr.putRepositoryName := Some (RepositoryName img) |}
                       (Ok tt) ∈ l0 ++ t_loop)
         (ecs.inContainerDefinitions (registerTaskDefinition_params newTaskDef)).
Proof.
  intros Hnew Htag. rewrite (registered_containers _ _ _ Hnew).
  rewrite Forall_forall in Htag.
  assert (forall c, c ∈ ecs.ContainerDefinitions td -> inScope c = true ->
            exists img manifest,
              imageOf c = Ok img /\ isECRHosted img = true /\
              retagged uniqueID c = ecs.set_Image c (Some (Name img +:+ ":" +:+ uniqueID)) /\
              EvPutImage {| ecr.putImageManifest := manifest;
                            ecr.putImageTag := Some uniqueID;
                            ecr.putRepositoryName := Some (RepositoryName img) |}
                         (Ok tt) ∈ l0 ++ t_loop) as Hlink.
  { intros c Hc Hs.
    apply (retagged_inScope uniqueID) in Hs as (img & Himg & Hh & Hr).
    destruct (Htag c Hc) as (img' & opt & manifest & Himg' & _ & Hput).
    assert (img' = img) as -> by congruence.
    exists img, manifest. repeat split; try done. apply elem_of_app. by right. }
  split; [done|]. split.
  - apply Forall_forall. intros c Hc Hs.
    destruct (Hlink c Hc Hs) as (img & manifest & ? & ? & _ & ?). by exists img, manifest.
  - apply Forall_forall. intros c' Hin.
    apply list_elem_of_fmap in Hin as (c & -> & Hc).
    apply list_elem_of_In, filter_In in Hc as [Hc Hs]. apply list_elem_of_In in Hc.
    destruct (Hlink c Hc Hs) as (img & manifest & ? & ? & ? & ?).
    by exists c, img, manifest.
Qed.

(** C3. In the calls of a run of [execute], no call that tags an image
    comes after the call that registers the new task definition.  Before
    that call the unique id was generated and the baseline was described;
    every [PutImage] wrote that id as the tag; every in-scope container of
    the baseline was tagged: [PutImage] wrote the id, with success, in the
    repository that the image of that container parses to; and the
    containers submitted for registration are the in-scope containers of
    the baseline, each with the image reference made of the name its image
    parses to, a colon and the id, so that the tag each submitted image
    refers to was written in the repository of that image. *)
Theorem retag_precedes_register (f : deployCmd) (w : W) pre params rr post :
  events (execute f w) = pre ++ EvRegisterTaskDefinition params rr :: post ->
  Forall (fun e => is_retag e = false) post /\
  exists uniqueID arn td,
    EvNewULID (Ok uniqueID) ∈ pre /\
    EvDescribeTaskDefinition arn (Ok (Some td)) ∈ pre /\
    (forall p rp, EvPutImage p rp ∈ pre -> ecr.putImageTag p = Some uniqueID) /\
    ecs.inContainerDefinitions params =
      map (retagged uniqueID) (List.filter inScope (ecs.ContainerDefinitions td)) /\
    Forall (fun c => inScope c = true ->
              exists img manifest,
                imageOf c = Ok img /\ isECRHosted img = true /\
                EvPutImage {| ecr.putImageManifest := manifest;
                              ecr.putImageTag := Some uniqueID;
                              ecr.putRepositoryName := Some (RepositoryName img) |}
                           (Ok tt) ∈ pre)
           (ecs.ContainerDefinitions td) /\
    Forall (fun c' => exists c img manifest,
              c ∈ ecs.ContainerDefinitions td /\
              imageOf c = Ok img /\ isECRHosted img = true /\
              c' = ecs.set_Image c (Some (Name img +:+ ":" +:+ uniqueID)) /\
              EvPutImage {| ecr.putImageManifest := manifest;
                            ecr.putImageTag := Some uniqueID;
                            ecr.putRepositoryName := Some (RepositoryName img) |}
                         (Ok tt) ∈ pre)
           (ecs.inContainerDefinitions params).
Proof.
  destruct (execute f w) as [[r w'] t] eqn:H. unfold events. simpl.
  run_cases H; intros Heq;
    try (exfalso; eapply (app_cons_absent is_register); [exact Heq|reflexivity|no_event]).
  all: apply (app_app_cons_unique is_register) in Heq as (-> & [= -> ->] & ->);
    [|reflexivity|reflexivity|no_event..].
  all: split; [no_event|].
  all: exists uniqueID, arn, td; split; [unfold_traces; set_solver|].
  all: split; [unfold_traces; set_solver|]; split.
  all: try (intros p0 rp0 Hin; unfold_traces; elem_cases Hin; eauto).
  all: eapply registered_images_linked; eauto.
Qed.


(** ** The history entry *)

Lemma prefix_app (a b : string) : String.prefix a (a +:+ b) = true.
Proof.
  induction a as [|c a IH]; simpl; [by destruct b|].
  destruct (ascii_dec c c); [exact IH|done].
Qed.

Lemma Contains_prefix (a s : string) : String.prefix a s = true -> Contains s a = true.
Proof. intros H. destruct s; unfold Contains; fold Contains; by rewrite H. Qed.

Lemma Contains_app_r (a b s : string) : Contains s b = true -> Contains (a +:+ s) b = true.
Proof.
  intros H. induction a as [|c a IH]; simpl; [done|].
  rewrite IH. by rewrite orb_true_r.
Qed.

Lemma historyMessage_Contains old new :
  Contains (historyMessage old new) (fmt_d old) = true /\
  Contains (historyMessage old new) (fmt_d new) = true.
Proof.
  unfold historyMessage. split.
  - apply Contains_app_r, Contains_prefix, prefix_app.
  - apply Contains_app_r, Contains_app_r, Contains_app_r, Contains_prefix.
    induction (fmt_d new) as [|c a IH]; simpl; [done|].
    destruct (ascii_dec c c); [exact IH|done].
Qed.

(** C8. When a run of [execute] appends to the history, it does so once,
    after [WaitUpdateService] returned without error and in no run in which
    that wait failed; the entry carries the revision of the newly
    registered task definition and the message names the revision of the
    baseline and the new revision. *)
Theorem history_after_convergence (f : deployCmd) (w : W) pre revision message rp post :
  events (execute f w) = pre ++ EvPushState revision message rp :: post ->
  EvWaitUpdateService (cluster f) (serviceName f) (Ok tt) ∈ pre /\
  (forall c s rw, EvWaitUpdateService c s rw ∈ events (execute f w) -> rw = Ok tt) /\
  Forall (fun e => is_pushState e = false) (pre ++ post) /\
  exists arn td params out registerd old,
    EvDescribeTaskDefinition arn (Ok (Some td)) ∈ pre /\
    EvRegisterTaskDefinition params (Ok out) ∈ pre /\
    ecs.outTaskDefinition out = Some registerd /\
    ecs.Revision td = Some old /\
    ecs.Revision registerd = Some revision /\
    message = "deploy: " +:+ fmt_d old +:+ " -> " +:+ fmt_d revision /\
    Contains message (fmt_d old) = true /\
    Contains message (fmt_d revision) = true.
Proof.
  destruct (execute f w) as [[r w'] t] eqn:H. unfold events. simpl.
  run_cases H; intros Heq;
    try (exfalso; eapply (app_cons_absent is_pushState); [exact Heq|reflexivity|no_event]).
  all: apply (app_app_app_cons_unique is_pushState _ _
           (EvRegisterTaskDefinition (registerTaskDefinition_params newTaskDef) (Ok out)
            :: t_update svc registerd old new (Ok tt) ++ t_wait f (Ok tt)))
         in Heq as (-> & [= -> -> ->] & ->);
    [|reflexivity|reflexivity|no_event..].
  all: split; [unfold_traces; set_solver|].
  all: split; [intros c s rw Hin; unfold_traces; elem_cases Hin|].
  all: split; [no_event|].
  all: exists arn, td, (registerTaskDefinition_params newTaskDef), out, registerd, old.
  all: destruct (historyMessage_Contains old new).
  all: repeat split; try done; unfold_traces; set_solver.
Qed.


(** ** The unique id *)

Lemma filter_none {A : Type} (p : A -> bool) (l : list A) :
  Forall (fun e => p e = false) l -> List.filter p l = [].
Proof. induction 1 as [|a l Ha _ IH]; simpl; [done|]. by rewrite Ha. Qed.

(** The containers of a request for registration refer to the id. *)
Lemma retagged_image_linked uniqueID td newTaskDef :
  createNewTaskDefinition uniqueID (Some td) = Ok newTaskDef ->
  Forall (fun c' => exists c img,
            c ∈ ecs.ContainerDefinitions td /\ imageOf c = Ok img /\
            ecs.Image c' = Some (Name img +:+ ":" +:+ uniqueID))
         (ecs.inContainerDefinitions (registerTaskDefinition_params newTaskDef)).
Proof.
  intros Hnew. rewrite (registered_containers _ _ _ Hnew).
  apply Forall_forall. intros c' Hin.
  apply list_elem_of_fmap in Hin as (c & -> & Hc).
  apply list_elem_of_In, filter_In in Hc as [Hc Hs]. apply list_elem_of_In in Hc.
  apply (retagged_inScope uniqueID) in Hs as (img & Himg & Hh & ->). by exists c, img.
Qed.

(** A run of [execute] either makes no call that tags an image or
    registers a task definition, or it generated the unique id once, after
    the three calls of the set-up and before every other call. *)
Lemma uniqueID_split f w r w' t :
  execute f w = (r, w', t) ->
  ((length (List.filter is_newULID t) <= 1)%nat /\
   Forall (fun e => (is_retag e || is_register e)%bool = false) t) \/
  (exists svc uniqueID post,
     t = t_setup f (Ok (Some svc)) ++ EvNewULID (Ok uniqueID) :: post /\
     Forall (fun e => is_newULID e = false) post).
Proof.
  intros H. run_cases H.
  all: try (left; split;
            [unfold_traces; simpl; lia|no_event]).
  all: right; exists svc, uniqueID; eexists;
    (split; [unfold t_prepared; rewrite <- (assoc_L (++)); reflexivity|]); no_event.
Qed.

(** C7, as the program has it.  A run of [execute] generates the unique id
    at most once.  A run that makes a call that tags an image,
    [BatchGetImage] or [PutImage], or the call that registers the task
    definition, generated the id exactly once, and before that call.  Every
    [PutImage] of the run writes that id as the tag, and every image of the
    task definition submitted for registration is the name that the image
    of a container of the baseline parses to, a colon and that id.  The
    message of the history entry is made of the baseline revision and the
    new revision only. *)
Theorem uniqueID_once (f : deployCmd) (w : W) :
  (length (List.filter is_newULID (events (execute f w))) <= 1)%nat /\
  (forall e, e ∈ events (execute f w) ->
     (is_retag e || is_register e)%bool = true ->
     length (List.filter is_newULID (events (execute f w))) = 1%nat /\
     exists uniqueID pre post,
       events (execute f w) = pre ++ EvNewULID (Ok uniqueID) :: post /\
       Forall (fun e' => is_newULID e' = false) (pre ++ post) /\
       e ∈ post) /\
  (forall p rp, EvPutImage p rp ∈ events (execute f w) ->
     exists uniqueID, EvNewULID (Ok uniqueID) ∈ events (execute f w) /\
       ecr.putImageTag p = Some uniqueID) /\
  (forall params rr, EvRegisterTaskDefinition params rr ∈ events (execute f w) ->
     exists uniqueID arn td,
       EvNewULID (Ok uniqueID) ∈ events (execute f w) /\
       EvDescribeTaskDefinition arn (Ok (Some td)) ∈ events (execute f w) /\
       Forall (fun c' => exists c img,
                 c ∈ ecs.ContainerDefinitions td /\ imageOf c = Ok img /\
                 ecs.Image c' = Some (Name img +:+ ":" +:+ uniqueID))
              (ecs.inContainerDefinitions params)) /\
  (forall revision message rp, EvPushState revision message rp ∈ events (execute f w) ->
     exists old, message = "deploy: " +:+ fmt_d old +:+ " -> " +:+ fmt_d revision).
Proof.
  destruct (execute f w) as [[r w'] t] eqn:H. unfold events. simpl.
  split; [|split].
  - destruct (uniqueID_split _ _ _ _ _ H) as [[Hlen _]|(svc & uid & post & -> & Hpost)];
      [done|].
    rewrite List.filter_app. simpl. rewrite (filter_none _ _ Hpost). simpl. lia.
  - intros e Hin He.
    destruct (uniqueID_split _ _ _ _ _ H) as [[_ Hnone]|(svc & uid & post & -> & Hpost)].
    { rewrite Forall_forall in Hnone. apply Hnone in Hin. congruence. }
    split.
    { rewrite List.filter_app. simpl. rewrite (filter_none _ _ Hpost). done. }
    exists uid, (t_setup f (Ok (Some svc))), post. split; [done|]. split.
    + apply Forall_app_2; [repeat constructor|done].
    + apply elem_of_app in Hin as [Hin|Hin].
      { unfold t_setup in Hin. rewrite !elem_of_cons, elem_of_nil in Hin.
        destruct Hin as [->|[->|[->|[]]]]; discriminate He. }
      apply elem_of_cons in Hin as [->|Hin]; [discriminate He|done].
  - run_cases H.
    all: split;
      [intros p0 rp0 Hin; unfold_traces; elem_cases Hin;
       try (exists uniqueID; split; [set_solver|by eauto])|].
    all: split;
      [intros params0 rr0 Hin; unfold_traces; elem_cases Hin;
       try (exists uniqueID, arn, td; split; [set_solver|]; split; [set_solver|];
            by apply retagged_image_linked)|].
    all: intros revision0 message0 rp0 Hin; unfold_traces; elem_cases Hin;
      try by exists old.
Qed.

(** ** Tagging an image *)

(** When [BatchGetImage] answers without error and without an image,
    [tagDockerImage] indexes an empty slice. *)
Lemma tagDockerImage_no_image repoName fromTag toTag (w : W) out w1 :
  ecr_BatchGetImage (tagDockerImage_params repoName fromTag) w = (Ok out, w1) ->
  ecr.Images out = [] ->
  tagDockerImage repoName fromTag toTag w =
    (Panic IndexOutOfRange, w1,
     [EvBatchGetImage (tagDockerImage_params repoName fromTag) (Ok out)]).
Proof.
  intros Hget Himg. unfold tagDockerImage, bind, call, lift.
  by rewrite Hget, Himg.
Qed.

(** When both calls succeed, the manifest written under [toTag] is the one
    of the first image returned for [fromTag], in the same repository. *)
Lemma tagDockerImage_copies repoName fromTag toTag (w : W) out i l w1 w2 :
  ecr_BatchGetImage (tagDockerImage_params repoName fromTag) w = (Ok out, w1) ->
  ecr.Images out = i :: l ->
  ecr_PutImage {| ecr.putImageManifest := ecr.ImageManifest i;
                  ecr.putImageTag := Some toTag;
                  ecr.putRepositoryName := Some repoName |} w1 = (Ok tt, w2) ->
  tagDockerImage repoName fromTag toTag w =
    (Ok tt, w2,
     [EvBatchGetImage (tagDockerImage_params repoName fromTag) (Ok out);
      EvPutImage {| ecr.putImageManifest := ecr.ImageManifest i;
                    ecr.putImageTag := Some toTag;
                    ecr.putRepositoryName := Some repoName |} (Ok tt)]).
Proof.
  intros Hget Himg Hput. unfold tagDockerImage, bind, call, lift, ret.
  by rewrite Hget, Himg, Hput.
Qed.


(** ** What the transform and the registration leave alone *)

(** C9. A successful transform returns the baseline with another list of
    containers and nothing else changed; every container it keeps is a
    baseline container that differs from it at most in [Image]; the request
    of [registerTaskDefinition] is made of the ten fields family, cpu,
    memory, network mode, execution role, task role, volumes, placement
    constraints, required compatibilities and the containers, and is the
    same whatever the revision, ARN, status, compatibilities and attributes
    of the baseline are. *)
Theorem transform_frame (id : string) (td newTaskDef : ecs.TaskDefinition) (w : W) :
  createNewTaskDefinition id (Some td) = Ok newTaskDef ->
  sameExceptContainers td newTaskDef /\
  Forall (fun c' => exists c, c ∈ ecs.ContainerDefinitions td /\ sameExceptImage c c')
         (ecs.ContainerDefinitions newTaskDef) /\
  registerTaskDefinition_params newTaskDef =
    {| ecs.inContainerDefinitions := ecs.ContainerDefinitions newTaskDef;
       ecs.inCpu := ecs.tdCpu td;
       ecs.inExecutionRoleArn := ecs.ExecutionRoleArn td;
       ecs.inFamily := ecs.Family td;
       ecs.inMemory := ecs.tdMemory td;
       ecs.inNetworkMode := ecs.NetworkMode td;
       ecs.inPlacementConstraints := ecs.PlacementConstraints td;
       ecs.inRequiresCompatibilities := ecs.RequiresCompatibilities td;
       ecs.inTaskRoleArn := ecs.TaskRoleArn td;
       ecs.inVolumes := ecs.Volumes td |} /\
  events (registerTaskDefinition newTaskDef w) =
    [EvRegisterTaskDefinition (registerTaskDefinition_params newTaskDef)
       (ecs_RegisterTaskDefinition (registerTaskDefinition_params newTaskDef) w).1] /\
  (forall compatibilities attributes revision status arn,
     exists newTaskDef',
       createNewTaskDefinition id
         (Some (with_metadata td compatibilities attributes revision status arn))
         = Ok newTaskDef' /\
       registerTaskDefinition_params newTaskDef' =
         registerTaskDefinition_params newTaskDef).
Proof.
  intros Hnew.
  apply createNewTaskDefinition_Ok in Hnew as (td' & [= <-] & Hall & ->).
  split; [by repeat split|]. split.
  { simpl. apply Forall_forall. intros c' Hin.
    apply list_elem_of_fmap in Hin as (c & -> & Hc).
    apply list_elem_of_In, filter_In in Hc as [Hc Hs].
    apply (retagged_inScope id) in Hs as (img & _ & _ & ->).
    exists c. split; [by apply list_elem_of_In|]. by repeat split. }
  split; [reflexivity|]. split.
  { unfold registerTaskDefinition, events, bind, call, ret.
    destruct (ecs_RegisterTaskDefinition _ w) as [[out|e|p] w1]; reflexivity. }
  intros compatibilities attributes revision status arn.
  eexists. split.
  - by apply (createNewTaskDefinition_total id
                (with_metadata td compatibilities attributes revision status arn)).
  - reflexivity.
Qed.

(** ** Failing calls *)

Lemma stops_bind {A B : Type} (m : M W A) (k : A -> M W B) :
  stops_at_failure m -> (forall a, stops_at_failure (k a)) -> stops_at_failure (bind m k).
Proof.
  intros Hm Hk w r w' t pre ev post H Ht Hev. unfold bind in H.
  destruct (m w) as [[[a|e|p] w1] t1] eqn:Hmw.
  - destruct (k a w1) as [[r2 w2] t2] eqn:Hkw. injection H as <- <- <-.
    apply app_eq_app in Ht as [l [[-> Ht]|[-> Ht]]].
    + destruct l as [|e l].
      * rewrite app_nil_r in *. simpl in Ht. by apply (Hk a w1 r2 w2 t2 [] ev post).
      * injection Ht as <- ->.
        by destruct (Hm w (Ok a) w1 _ pre ev l Hmw eq_refl Hev) as [_ ?].
    + by apply (Hk a w1 r2 w2 t2 l ev post).
  - injection H as <- <- <-. by apply (Hm w (Err e) w1 t1 pre ev post).
  - injection H as <- <- <-. by apply (Hm w (Panic p) w1 t1 pre ev post).
Qed.

Lemma stops_silent {A : Type} (m : M W A) :
  (forall w, (m w).2 = []) -> stops_at_failure m.
Proof.
  intros Hm w r w' t pre ev post H -> _. specialize (Hm w). rewrite H in Hm.
  by destruct pre.
Qed.

Lemma stops_call {A : Type} (op : W -> Res A * W) (ev : Res A -> Event) :
  (forall r, raised (ev r) = response r) -> stops_at_failure (call op ev).
Proof.
  intros Hev w r w' t pre e post H Ht _. apply call_inv in H as [_ ->].
  destruct pre as [|? [|? ?]]; simplify_eq/=. by rewrite Hev.
Qed.

Lemma stops_notify (op : W -> W) (ev : Event) :
  raised ev = Ok tt -> stops_at_failure (notify op ev).
Proof.
  intros Hev w r w' t pre e post H Ht Hne. apply notify_inv in H as (_ & _ & ->).
  destruct pre as [|? [|? ?]]; simplify_eq/=.
Qed.

Lemma stops_newUniqueID : stops_at_failure newUniqueID.
Proof.
  intros w r w' t pre e post H Ht _. unfold newUniqueID in H.
  destruct (ulid_New w) as [r0 w0]. injection H as <- <- <-.
  destruct pre as [|? [|? ?]]; simplify_eq/=. by destruct r0.
Qed.

Ltac stops :=
  repeat first
    [ apply stops_bind; [|intros ?]
    | apply stops_call; intros ?; reflexivity
    | apply stops_notify; reflexivity
    | apply stops_newUniqueID
    | apply stops_silent; intros ?; reflexivity
    | assumption
    | case_match ].

Lemma stops_tagDockerImage repoName fromTag toTag :
  stops_at_failure (tagDockerImage repoName fromTag toTag).
Proof. unfold tagDockerImage. stops. Qed.

Lemma stops_execute_tag_loop f uniqueID cds :
  stops_at_failure (execute_tag_loop f uniqueID cds).
Proof.
  induction cds as [|v cds IH]; simpl; [by apply stops_silent|].
  stops.
Qed.

Lemma stops_execute f : stops_at_failure (execute f).
Proof. unfold execute, registerTaskDefinition. stops. apply stops_execute_tag_loop. Qed.

(** X16. A call of a run of [execute] that raises an error or a panic is the
    last call of the run, and what it raised is what [execute] returns: the
    error of the call; for the unique id, the panic of [ulid.MustNew]. *)
Theorem execute_fail_fast (f : deployCmd) (w : W) pre ev post :
  events (execute f w) = pre ++ ev :: post ->
  raised ev <> Ok tt ->
  post = [] /\ outcome (execute f w) = raised ev.
Proof.
  destruct (execute f w) as [[r w'] t] eqn:H. unfold events, outcome. simpl.
  intros Ht Hev.
  destruct (stops_execute f w r w' t pre ev post H Ht Hev) as [-> Hr].
  split; [done|]. rewrite <- Hr. by destruct r as [[]| |].
Qed.

(** ** Validation *)

(** X15. [execute] makes no call when the cluster, the service name, the image
    options or the region are missing, and returns an error; otherwise its
    first call opens the session. *)
Theorem execute_validation (f : deployCmd) (w : W) :
  let invalid :=
    cluster f = "" \/ serviceName f = "" \/ Value (images f) = [] \/ getAWSRegion w = "" in
  (invalid /\ exists e, execute f w = (Err e, w, [])) \/
  (~ invalid /\ exists r t, events (execute f w) = EvNewSession r :: t).
Proof.
  simpl. destruct (execute f w) as [[r w'] t] eqn:H. unfold events. simpl.
  unfold execute in H.
  destruct (String.eqb_spec (cluster f) "") as [Hc|Hc].
  { left. split; [tauto|]. inv_run. by eexists. }
  destruct (String.eqb_spec (serviceName f) "") as [Hs|Hs].
  { left. split; [tauto|]. inv_run. by eexists. }
  destruct (Value (images f)) as [|o os] eqn:Hi; simpl in H.
  { left. split; [tauto|]. inv_run. by eexists. }
  apply bind_inv in H as [(region & ? & ? & ? & Hread & H & ?) | (? & Hread & Hf & _)];
    apply read_inv in Hread as (? & -> & ->); simplify_eq/=; try done.
  destruct (String.eqb_spec (getAWSRegion w) "") as [Hr|Hr].
  { left. split; [tauto|]. inv_run. by eexists. }
  right. split; [intros [?|[?|[?|?]]]; done|].
  apply bind_inv in H as [(? & ? & ? & ? & Hcall & H & ?) | (? & Hcall & _)];
    apply call_inv in Hcall as [_ ->]; simplify_eq/=; by do 2 eexists.
Qed.

(** ** The calls of a deployment *)

Lemma execute_tag_loop_Ok f uniqueID cds :
  forall w w' t,
    execute_tag_loop f uniqueID cds w = (Ok tt, w', t) -> tag_trace f uniqueID cds t.
Proof.
  induction cds as [|c cds IH]; intros w w' t H; simpl in H.
  - inv_run. constructor.
  - apply bind_inv in H as
      [(image & w1 & t1 & t2 & Hi & H & ->) | (r0 & H & Hf & [] & _)].
    apply lift_inv in Hi as (Hi & -> & ->).
    apply bind_inv in H as
      [(img & w2 & t3 & t4 & Hp & H & ->) | (r0 & H & Hf & [] & _)].
    apply lift_inv in Hp as (Hp & -> & ->). simpl.
    assert (imageOf c = Ok img) as Hc.
    { unfold imageOf. by rewrite Hi. }
    destruct (imageOptions_Get (images f) (RepositoryName img)) as [opt|] eqn:Hopt;
      [|by apply lift_inv in H as (? & _)].
    apply bind_inv in H as
      [([] & w3 & t5 & t6 & Ht & H & ->) | (r0 & Ht & Hf & [] & _)].
    apply IH in H.
    apply tagDockerImage_inv in Ht as
      [(rb & -> & [])|(out & i & l & rp & Hi' & -> & Hr1 & _)].
    rewrite (Hr1 eq_refl). simpl. by eapply tag_trace_cons.
Qed.

(** X17. A run of [execute] that returns without error made these calls, in
    this order: it opened the session and the history, described the
    service, made the unique id, described the task definition at the
    revision asked for, tagged one image for each container of that task
    definition, registered the transformed task definition, announced the
    revisions, pointed the service described at the start to the task
    definition that the registration returned, waited for the service,
    recorded the revision in the history and announced the success. *)
Theorem execute_success_trace (f : deployCmd) (w : W) :
  outcome (execute f w) = Ok tt ->
  exists svc uniqueID arn0 arn td newTaskDef t_loop out registerd old new,
    (length (ecs.Deployments svc) <= 1)%nat /\
    ecs.svcTaskDefinition svc = Some arn0 /\
    libecs_SpecifyRevision (revision f) arn0 = Ok arn /\
    createNewTaskDefinition uniqueID (Some td) = Ok newTaskDef /\
    tag_trace f uniqueID (ecs.ContainerDefinitions td) t_loop /\
    ecs.outTaskDefinition out = Some registerd /\
    ecs.Revision td = Some old /\
    ecs.Revision registerd = Some new /\
    events (execute f w) =
      t_prepared f svc uniqueID arn td ++ t_loop ++
      EvRegisterTaskDefinition (registerTaskDefinition_params newTaskDef) (Ok out)
      :: t_update svc registerd old new (Ok tt) ++ t_wait f (Ok tt) ++
         [EvPushState new (historyMessage old new) (Ok tt);
          EvLog ("successfully updated" +:+ String "010" "");
          EvSlack "good" ("successfully updated" +:+ String "010" "")].
Proof.
  destruct (execute f w) as [[r w'] t] eqn:H. unfold events, outcome. simpl.
  intros ->. unfold execute in H.
  destruct (String.eqb (cluster f) ""); [by inv_run|].
  destruct (String.eqb (serviceName f) ""); [by inv_run|].
  destruct (Nat.eqb (length (Value (images f))) 0); [by inv_run|].
  apply bind_inv in H as [(region & ? & ? & ? & ? & H & ?) | (? & ? & ? & [] & _)].
  inv_run.
  destruct (String.eqb (getAWSRegion w) ""); [by inv_run|].
  inv_run.
  match goal with
  | H : (if Nat.ltb 1 (length (ecs.Deployments ?svc)) then _ else _) _ = _ |- _ =>
      destruct (Nat.ltb_spec 1 (length (ecs.Deployments svc))); [by inv_run|]
  end.
  inv_run.
  match goal with
  | H : execute_tag_loop _ _ _ _ = _ |- _ => apply execute_tag_loop_Ok in H
  end.
  do 11 eexists. split_and!; try eassumption; try done; try lia.
Qed.

(** ** Pointing the service to the new task definition *)

(** X18. The service is updated at most once in a run of [execute].  The
    update is for the service described at the start and the task
    definition that the registration returned; every call before it went
    through, and after it no image is tagged and no task definition is
    registered. *)
Theorem update_after_register (f : deployCmd) (w : W) pre service taskDef ru post :
  events (execute f w) = pre ++ EvUpdateService service taskDef ru :: post ->
  Forall (fun e => raised e = Ok tt) pre /\
  Forall (fun e => is_updateService e = false) (pre ++ post) /\
  Forall (fun e => (is_retag e || is_register e)%bool = false) post /\
  exists svc params out registerd,
    service = Some svc /\ taskDef = Some registerd /\
    EvDescribeService (cluster f) (serviceName f) (Ok (Some svc)) ∈ pre /\
    EvRegisterTaskDefinition params (Ok out) ∈ pre /\
    ecs.outTaskDefinition out = Some registerd.
Proof.
  destruct (execute f w) as [[r w'] t] eqn:H. unfold events. simpl.
  intros Heq. split.
  { apply Forall_forall. intros e He.
    apply list_elem_of_split in He as (l1 & l2 & ->).
    destruct (raised e) as [[]|e0|p0] eqn:Hraised; [done|..].
    all: assert (raised e <> Ok tt) as Hne by (by rewrite Hraised).
    all: rewrite <- (assoc_L (++)) in Heq; simpl in Heq.
    all: by destruct (stops_execute f w r w' t l1 e _ H Heq Hne) as [? _]; destruct l2. }
  revert Heq. run_cases H; intros Heq;
    try (exfalso; eapply (app_cons_absent is_updateService);
         [exact Heq|reflexivity|no_event]).
  all: unfold_traces; simpl in Heq.
  all: match type of Heq with
       | ?a :: ?b :: ?c :: ?d :: ?e :: ?tl ++ ?x :: ?y :: ?z :: ?u :: ?rest = ?rhs =>
           change ([a; b; c; d; e] ++ tl ++ [x; y; z] ++ u :: rest = rhs) in Heq
       end.
  all: apply (app_app_app_cons_unique is_updateService) in Heq as (-> & [= -> -> ->] & ->);
    [|reflexivity|reflexivity|no_event..].
  all: split; [no_event|].
  all: split; [no_event|].
  all: exists svc, (registerTaskDefinition_params newTaskDef), out, registerd.
  all: split_and!; try done; unfold_traces; set_solver.
Qed.

(** ** The report of the command *)

Lemma execute_Slack f w r w' t colour msg :
  execute f w = (r, w', t) -> EvSlack colour msg ∈ t ->
  colour = "normal" \/
  (colour = "good" /\ msg = "successfully updated" +:+ String "010" "" /\ r = Ok tt).
Proof.
  intros H. run_cases H; intros Hin; unfold_traces; elem_cases Hin; auto.
Qed.

Lemma execute_Ok_Slack f w w' t :
  execute f w = (Ok tt, w', t) ->
  EvSlack "good" ("successfully updated" +:+ String "010" "") ∈ t.
Proof.
  intros H. run_cases H; try done; unfold_traces; set_solver.
Qed.

(** X21. The command reports a failure to Slack exactly when it returns an
    error, with the message that names the cluster and the service.  A
    panic is not reported. *)
Theorem RunE_danger_iff_error (f : deployCmd) (w : W) (msg : string) :
  EvSlack "danger" msg ∈ events (RunE f w) <->
  msg = failureMessage f /\ exists e, outcome (RunE f w) = Err e.
Proof.
  unfold RunE. destruct (execute f w) as [[[[]|e|p] w1] t] eqn:H;
    unfold events, outcome; simpl.
  - split; [|by intros (_ & ? & ?)].
    intros Hin. by destruct (execute_Slack _ _ _ _ _ _ _ H Hin) as [?|[? _]].
  - rewrite elem_of_app, !elem_of_cons, elem_of_nil. split.
    + intros [Hin|[?|[?|[]]]]; simplify_eq; [|by eauto].
      by destruct (execute_Slack _ _ _ _ _ _ _ H Hin) as [?|[? _]].
    + intros [-> _]. auto.
  - split; [|by intros (_ & ? & ?)].
    intros Hin. by destruct (execute_Slack _ _ _ _ _ _ _ H Hin) as [?|[? _]].
Qed.

(** X22. The command reports a success to Slack exactly when it returns without
    error. *)
Theorem RunE_good_iff_success (f : deployCmd) (w : W) (msg : string) :
  EvSlack "good" msg ∈ events (RunE f w) <->
  msg = "successfully updated" +:+ String "010" "" /\ outcome (RunE f w) = Ok tt.
Proof.
  unfold RunE. destruct (execute f w) as [[[[]|e|p] w1] t] eqn:H;
    unfold events, outcome; simpl.
  - split.
    + intros Hin. by destruct (execute_Slack _ _ _ _ _ _ _ H Hin) as [?|(_ & ? & _)].
    + intros [-> _]. by eapply execute_Ok_Slack.
  - rewrite elem_of_app, !elem_of_cons, elem_of_nil. split; [|by intros [_ ?]].
    intros [Hin|[?|[?|[]]]]; simplify_eq.
    by destruct (execute_Slack _ _ _ _ _ _ _ H Hin) as [?|(_ & _ & ?)].
  - split; [|by intros [_ ?]].
    intros Hin. by destruct (execute_Slack _ _ _ _ _ _ _ H Hin) as [?|(_ & _ & ?)].
Qed.

(** ** Revisions that are not there *)

(** X19. [execute] reads the revisions of the baseline and of the registered
    task definition only after the registration.  When the registration
    went through and the baseline has no revision, or the response has no
    task definition, or that task definition has no revision, [execute]
    panics on the nil pointer: the registration is its last call, and the
    service is left as it was. *)
Theorem registered_nil_panics (f : deployCmd) (w : W) pre params out post arn td :
  events (execute f w) = pre ++ EvRegisterTaskDefinition params (Ok out) :: post ->
  EvDescribeTaskDefinition arn (Ok (Some td)) ∈ pre ->
  ecs.Revision td = None \/ ecs.outTaskDefinition out = None \/
  (exists registerd, ecs.outTaskDefinition out = Some registerd /\
                     ecs.Revision registerd = None) ->
  post = [] /\ outcome (execute f w) = Panic NilDereference.
Proof.
  destruct (execute f w) as [[r w'] t] eqn:H. unfold events, outcome. simpl.
  unfold execute in H.
  destruct (String.eqb (cluster f) ""); [inv_run; by destruct pre|].
  destruct (String.eqb (serviceName f) ""); [inv_run; by destruct pre|].
  destruct (Nat.eqb (length (Value (images f))) 0); [inv_run; by destruct pre|].
  apply bind_inv in H as [(region & ? & ? & ? & ? & H & ?) | (? & ? & ? & ? & ? & ?)];
    inv_run.
  destruct (String.eqb (getAWSRegion w) ""); [inv_run; by destruct pre|].
  inv_run.
  all: try match goal with
  | H : (if Nat.ltb 1 (length (ecs.Deployments ?svc)) then _ else _) _ = _ |- _ =>
      destruct (Nat.ltb_spec 1 (length (ecs.Deployments svc))); inv_run
  end.
  all: try match goal with
  | H : execute_tag_loop _ _ _ _ = _ |- _ =>
      apply execute_tag_loop_inv in H as (? & _ & _)
  end.
  all: intros Heq;
    try (exfalso; eapply (app_cons_absent is_register);
         [exact Heq|reflexivity|no_event]).
  all: simpl in Heq;
    match type of Heq with
    | ?a :: ?b :: ?c :: ?d :: ?e :: ?tl ++ ?x :: ?rest = ?rhs =>
        change ([a; b; c; d; e] ++ tl ++ x :: rest = rhs) in Heq
    end;
    apply (app_app_cons_unique is_register) in Heq as (-> & [= ? ?] & ->);
    [|reflexivity|reflexivity|no_event..]; inv_run.
  all: intros Hin; elem_cases Hin.
  all: intros [Hn|[Hn|(reg & Hreg & Hn)]]; try congruence.
  all: split; [done|].
  all: try match goal with
       | Hf : failed (deref ?x), Hs : ?x = Some _ |- _ => rewrite Hs in Hf; destruct Hf
       end.
  all: try match goal with
       | Hp : forall p, deref ?x = Panic p -> _ |- _ =>
           apply Hp; first [reflexivity | assert (x = None) as -> by congruence; reflexivity]
       end.
  all: match goal with
       | Hp : forall p, deref ?x = Panic p -> _, Hf : failed (deref ?x) |- _ =>
           destruct x; [destruct Hf|by apply Hp]
       end.
Qed.

(** ** Containers without an image option *)

(** X20. Every container of the task definition that [execute] described needs
    an image option for its repository, whether its image is hosted on ECR
    or not: when one has none, [execute] fails, and it registers no task
    definition, does not update the service and writes no history. *)
Theorem missing_option_blocks_registration (f : deployCmd) (w : W) arn td c img :
  EvDescribeTaskDefinition arn (Ok (Some td)) ∈ events (execute f w) ->
  c ∈ ecs.ContainerDefinitions td ->
  imageOf c = Ok img ->
  imageOptions_Get (images f) (RepositoryName img) = None ->
  failed (outcome (execute f w)) /\
  Forall (fun e => (is_register e || is_updateService e || is_pushState e)%bool = false)
         (events (execute f w)).
Proof.
  destruct (execute f w) as [[r w'] t] eqn:H. unfold events, outcome. simpl.
  run_cases H; intros Hin Hc Himg Hopt; unfold_traces; elem_cases Hin.
  all: try match goal with
       | Ht : Ok tt = Ok tt -> Forall (tagged _ _ _) _ |- _ =>
           specialize (Ht eq_refl); rewrite Forall_forall in Ht;
           destruct (Ht c Hc) as (img' & opt & m & Himg' & Hopt' & _); congruence
       end.
  all: split; [done|no_event].
Qed.

(** ** Images that do not parse *)

(** X25. [execute] transforms the task definition before it tags any image:
    when the image of some container of the task definition it described
    does not parse, it fails without a call to the registry, and registers
    nothing, does not update the service and writes no history. *)
Theorem unparsable_image_blocks_tagging (f : deployCmd) (w : W) arn td c :
  EvDescribeTaskDefinition arn (Ok (Some td)) ∈ events (execute f w) ->
  c ∈ ecs.ContainerDefinitions td ->
  failed (imageOf c) ->
  failed (outcome (execute f w)) /\
  Forall (fun e => (is_retag e || is_mutation e)%bool = false) (events (execute f w)).
Proof.
  destruct (execute f w) as [[r w'] t] eqn:H. unfold events, outcome. simpl.
  run_cases H; intros Hin Hc Himg; unfold_traces; elem_cases Hin.
  all: try match goal with
       | Hn : createNewTaskDefinition _ (Some _) = Ok _ |- _ =>
           apply createNewTaskDefinition_Ok in Hn as (? & [= <-] & Hall & _);
           rewrite Forall_forall in Hall;
           destruct (Hall c Hc) as [img Hi]; rewrite Hi in Himg; destruct Himg
       end.
  all: split; [done|no_event].
Qed.

End RunLemmas.

(** ** The transform on the store *)

Module MemFacts.

Lemma extends_refl h : Mem.extends h h.
Proof. by repeat split. Qed.

Lemma extends_trans h1 h2 h3 : Mem.extends h1 h2 -> Mem.extends h2 h3 -> Mem.extends h1 h3.
Proof.
  intros (? & ? & ?) (? & ? & ?). repeat split; by etrans.
Qed.

Lemma fresh_None {A : Type} (m : gmap Mem.loc A) : m !! fresh (dom m) = None.
Proof. apply not_elem_of_dom, is_fresh. Qed.

Lemma createNewTaskDefinition_body_extends id vp acc h r h' :
  Mem.createNewTaskDefinition_body id vp acc h = (r, h') -> Mem.extends h h'.
Proof.
  unfold Mem.createNewTaskDefinition_body, Mem.sbind, Mem.load_container, Mem.alloc_container,
    Mem.load_string, Mem.slift, Mem.alloc_string, Mem.update_container, Mem.sret, deref.
  destruct (Mem.containers h !! vp) as [copy|]; simpl; [|intros [= <- <-]; apply extends_refl].
  rewrite lookup_insert_eq. simpl.
  assert (Mem.extends h {| Mem.strings := Mem.strings h;
                       Mem.containers := <[fresh (dom (Mem.containers h)) := copy]> (Mem.containers h);
                       Mem.taskDefs := Mem.taskDefs h |}) as Hcopy.
  { repeat split; simpl; try done. apply insert_subseteq, fresh_None. }
  destruct (Mem.Image copy ≫= _) as [image|]; simpl; [|by intros [= <- <-]].
  destruct (parseDockerImage image) as [img| |]; simpl; [|by intros [= <- <-]..].
  destruct (isECRHosted img); simpl; [|by intros [= <- <-]].
  rewrite lookup_insert_eq. intros [= <- <-].
  repeat split; simpl; try done.
  - apply insert_subseteq, fresh_None.
  - rewrite insert_insert_eq. apply insert_subseteq, fresh_None.
Qed.

Lemma createNewTaskDefinition_loop_extends id cds :
  forall acc h r h',
    Mem.createNewTaskDefinition_loop id cds acc h = (r, h') -> Mem.extends h h'.
Proof.
  induction cds as [|vp cds IH]; intros acc h r h'; simpl.
  - intros [= <- <-]. apply extends_refl.
  - unfold Mem.sbind.
    destruct (Mem.createNewTaskDefinition_body id vp acc h) as [[acc'|e|p] h1] eqn:Hb;
      apply createNewTaskDefinition_body_extends in Hb.
    + intros H%IH. by eapply extends_trans.
    + by intros [= <- <-].
    + by intros [= <- <-].
Qed.

Lemma createNewTaskDefinition_extends id taskDef h r h' :
  Mem.createNewTaskDefinition id taskDef h = (r, h') -> Mem.extends h h'.
Proof.
  unfold Mem.createNewTaskDefinition, Mem.sbind, Mem.load_taskDef, Mem.alloc_taskDef, Mem.update_taskDef,
    Mem.sret, deref.
  destruct (taskDef ≫= _) as [copy|] eqn:Hload; simpl; [|intros [= <- <-]; apply extends_refl].
  assert (taskDef ≫= (<[fresh (dom (Mem.taskDefs h)) := copy]> (Mem.taskDefs h) !!.) = Some copy)
    as ->.
  { destruct taskDef as [p|]; simpl in *; [|done].
    rewrite lookup_insert_ne; [done|]. intros <-. by rewrite fresh_None in Hload. }
  simpl.
  destruct (Mem.createNewTaskDefinition_loop id (Mem.ContainerDefinitions copy) [] _)
    as [[cs|e|p] h1] eqn:Hloop;
    apply createNewTaskDefinition_loop_extends in Hloop as Hext;
    destruct Hext as (Hs & Hc & Ht); simpl in *.
  - assert (Mem.taskDefs h1 !! fresh (dom (Mem.taskDefs h)) = Some copy) as ->.
    { eapply lookup_weaken; [|exact Ht]. apply lookup_insert_eq. }
    intros [= <- <-]. repeat split; simpl; try done.
    intros l. destruct (decide (l = fresh (dom (Mem.taskDefs h)))) as [->|Hne].
    + rewrite fresh_None. by destruct (_ !! _).
    + rewrite lookup_insert_ne by done.
      specialize (Ht l). by rewrite lookup_insert_ne in Ht.
  - intros [= <- <-]. repeat split; simpl; try done.
    etrans; [|exact Ht]. apply insert_subseteq, fresh_None.
  - intros [= <- <-]. repeat split; simpl; try done.
    etrans; [|exact Ht]. apply insert_subseteq, fresh_None.
Qed.

(** Reading through pointers gives the same values in a larger store. *)
Lemma read_container_extends h h' p c :
  Mem.extends h h' -> Mem.read_container h p = Some c -> Mem.read_container h' p = Some c.
Proof.
  intros (Hs & Hc & _). unfold Mem.read_container.
  destruct (Mem.containers h !! p) as [v|] eqn:Hv; simpl; [|done].
  rewrite (lookup_weaken _ _ _ _ Hv Hc). simpl.
  destruct (Mem.Image v) as [l|]; simpl; [|done].
  destruct (Mem.strings h !! l) as [s|] eqn:Hl; simpl; [|done].
  by rewrite (lookup_weaken _ _ _ _ Hl Hs).
Qed.

Lemma read_containers_extends h h' ps cs :
  Mem.extends h h' ->
  mapM (Mem.read_container h) ps = Some cs -> mapM (Mem.read_container h') ps = Some cs.
Proof.
  intros Hext. rewrite !mapM_Some. intros HF.
  eapply Forall2_impl; [exact HF|]. intros p c. by apply read_container_extends.
Qed.

Lemma read_taskDef_extends h h' p td :
  Mem.extends h h' -> Mem.read_taskDef h p = Some td -> Mem.read_taskDef h' p = Some td.
Proof.
  intros Hext. unfold Mem.read_taskDef.
  destruct (Mem.taskDefs h !! p) as [t|] eqn:Ht; simpl; [|done].
  destruct Hext as (Hs & Hc & Htd) eqn:E.
  rewrite (lookup_weaken _ _ _ _ Ht Htd). simpl.
  destruct (mapM (Mem.read_container h) (Mem.ContainerDefinitions t)) as [cs|] eqn:Hcs; simpl; [|done].
  by rewrite (read_containers_extends h h' _ cs).
Qed.

(** *** The function on the store computes the function on values *)

Lemma read_container_Some h p c :
  Mem.read_container h p = Some c ->
  exists v, Mem.containers h !! p = Some v /\
    ecs.Image c = (Mem.Image v ≫= (Mem.strings h !!.)) /\
    c = {| ecs.Command := Mem.Command v; ecs.Cpu := Mem.Cpu v; ecs.Environment := Mem.Environment v;
           ecs.Essential := Mem.Essential v; ecs.Image := ecs.Image c;
           ecs.Memory := Mem.Memory v; ecs.Name := Mem.Name v |}.
Proof.
  unfold Mem.read_container. destruct (Mem.containers h !! p) as [v|]; simpl; [|done].
  destruct (Mem.Image v) as [l|] eqn:Hi; simpl.
  - destruct (Mem.strings h !! l) as [s|] eqn:Hs; simpl; [|done].
    intros [= <-]. exists v. rewrite Hi. simpl. by rewrite Hs.
  - intros [= <-]. exists v. by rewrite Hi.
Qed.

Lemma createNewTaskDefinition_loop_refines id ps :
  forall acc h cs accv,
    mapM (Mem.read_container h) ps = Some cs ->
    mapM (Mem.read_container h) acc = Some accv ->
    Mem.agree (fun h' => mapM (Mem.read_container h'))
      (Mem.createNewTaskDefinition_loop id ps acc h) (createNewTaskDefinition_loop id cs accv).
Proof.
  induction ps as [|vp ps IH]; intros acc h cs accv Hps Hacc.
  - apply mapM_Some, Forall2_nil_inv_l in Hps as ->. simpl. eauto.
  - apply mapM_Some, Forall2_cons_inv_l in Hps as (c & cs' & Hc & Hcs & ->).
    apply mapM_Some in Hcs.
    pose proof (createNewTaskDefinition_body_extends id vp acc h) as Hext.
    apply read_container_Some in Hc as Hv. destruct Hv as (v & Hv & Himg & Hrec).
    simpl. unfold Mem.sbind.
    destruct (Mem.createNewTaskDefinition_body id vp acc h) as [rb h1] eqn:Hb.
    specialize (Hext _ _ eq_refl).
    revert Hb.
    unfold Mem.createNewTaskDefinition_body, Mem.sbind, Mem.load_container, Mem.alloc_container,
      Mem.load_string, Mem.slift, Mem.alloc_string, Mem.update_container, Mem.sret. simpl.
    rewrite Hv. simpl. rewrite lookup_insert_eq. simpl.
    rewrite Himg.
    destruct (Mem.Image v ≫= _) as [image|] eqn:Hi; simpl; [|by intros [= <- <-]].
    destruct (parseDockerImage image) as [img| |]; simpl; [|by intros [= <- <-]..].
    destruct (isECRHosted img); simpl.
    + rewrite lookup_insert_eq. intros [= <- <-].
      apply IH.
      * by eapply read_containers_extends.
      * apply mapM_Some, Forall2_app.
        -- apply mapM_Some. by eapply read_containers_extends.
        -- constructor; [|constructor].
           unfold Mem.read_container. simpl. rewrite lookup_insert_eq. simpl.
           rewrite lookup_insert_eq. simpl. rewrite Hrec. done.
    + intros [= <- <-]. apply IH; [by eapply read_containers_extends|].
      by eapply read_containers_extends.
Qed.

(** X7. [createNewTaskDefinition] on the store computes what it computes on
    values: for a pointer that reads as the task definition [td], it fails
    with the same error or panic, or returns a pointer that reads, in the
    store it leaves, as the task definition returned for [td]. *)
Lemma createNewTaskDefinition_refines id p h td :
  Mem.read_taskDef h p = Some td ->
  Mem.agree Mem.read_taskDef
    (Mem.createNewTaskDefinition id (Some p) h) (createNewTaskDefinition id (Some td)).
Proof.
  unfold Mem.read_taskDef.
  destruct (Mem.taskDefs h !! p) as [t|] eqn:Ht; simpl; [|done].
  destruct (mapM (Mem.read_container h) (Mem.ContainerDefinitions t)) as [cs|] eqn:Hcs;
    simpl; [|done].
  intros [= <-].
  unfold Mem.createNewTaskDefinition, createNewTaskDefinition, Mem.sbind, Mem.load_taskDef,
    Mem.alloc_taskDef, Mem.update_taskDef, Mem.sret. simpl.
  rewrite Ht. simpl.
  set (q := fresh (dom (Mem.taskDefs h))).
  assert (p <> q) as Hpq.
  { intros ->. unfold q in Ht. by rewrite fresh_None in Ht. }
  rewrite lookup_insert_ne by done. rewrite Ht. simpl.
  set (h1 := {| Mem.strings := Mem.strings h; Mem.containers := Mem.containers h;
                Mem.taskDefs := <[q := t]> (Mem.taskDefs h) |}).
  pose proof (createNewTaskDefinition_loop_refines id (Mem.ContainerDefinitions t) [] h1 cs []
                Hcs eq_refl) as Hloop.
  destruct (Mem.createNewTaskDefinition_loop id (Mem.ContainerDefinitions t) [] h1)
    as [[res|e|x] h2] eqn:Hl; simpl in Hloop.
  - destruct Hloop as (resv & -> & Hres).
    apply createNewTaskDefinition_loop_extends in Hl as (_ & _ & Htd).
    assert (Mem.taskDefs h2 !! q = Some t) as ->.
    { eapply lookup_weaken; [|exact Htd]. apply lookup_insert_eq. }
    simpl. eexists. split; [reflexivity|].
    rewrite lookup_insert_eq. simpl.
    unfold Mem.read_container in *. simpl. rewrite Hres. done.
  - by rewrite Hloop.
  - by rewrite Hloop.
Qed.

(** C10. Whatever [Mem.createNewTaskDefinition] returns, every object that was
    in the store when it was called is in the store afterwards and
    unchanged: the strings, the container definitions and the task
    definitions.  So the baseline task definition, the list of its
    container definitions and each of them, with its [Image], read as
    before; and the task definition returned is a new object. *)
Theorem createNewTaskDefinition_preserves_baseline (id : string) (taskDef : option Mem.loc)
    (h : Mem.Store) :
  let r := (Mem.createNewTaskDefinition id taskDef h).1 in
  let h' := (Mem.createNewTaskDefinition id taskDef h).2 in
  (forall l s, Mem.strings h !! l = Some s -> Mem.strings h' !! l = Some s) /\
  (forall l v, Mem.containers h !! l = Some v -> Mem.containers h' !! l = Some v) /\
  (forall l t, Mem.taskDefs h !! l = Some t -> Mem.taskDefs h' !! l = Some t) /\
  (forall p td, Mem.read_taskDef h p = Some td -> Mem.read_taskDef h' p = Some td) /\
  (forall p c, Mem.read_container h p = Some c -> Mem.read_container h' p = Some c) /\
  (forall q, r = Ok q -> Mem.taskDefs h !! q = None /\ is_Some (Mem.taskDefs h' !! q)).
Proof.
  destruct (Mem.createNewTaskDefinition id taskDef h) as [r h'] eqn:H. simpl.
  pose proof (createNewTaskDefinition_extends _ _ _ _ _ H) as Hext.
  pose proof Hext as (Hs & Hc & Ht).
  split; [intros l s Hl; by eapply lookup_weaken|].
  split; [intros l s Hl; by eapply lookup_weaken|].
  split; [intros l s Hl; by eapply lookup_weaken|].
  split; [intros p td; by apply read_taskDef_extends|].
  split; [intros p c; by apply read_container_extends|].
  intros q ->. revert H.
  unfold Mem.createNewTaskDefinition, Mem.sbind, Mem.load_taskDef, Mem.alloc_taskDef, Mem.update_taskDef,
    Mem.sret, deref.
  destruct (taskDef ≫= _) as [copy|]; simpl; [|done].
  destruct (_ ≫= _) as [t|]; simpl; [|done].
  destruct (Mem.createNewTaskDefinition_loop _ _ _ _) as [[cs|e|p] h1]; simpl; [|done..].
  destruct (Mem.taskDefs h1 !! _) as [o|]; simpl; [|done].
  intros [= <- <-]. simpl. split; [apply fresh_None|]. rewrite lookup_insert_eq. eauto.
Qed.

End MemFacts.

(** ** The scenario of the specification, run on the stub platform *)

Module Scenario.
Import Stub.

(** The transform keeps [web], re-tagged, and drops the sidecar. *)
Lemma createNewTaskDefinition_retags_witness :
  Forall (fun c => exists img, imageOf c = Ok img) [web; sidecar] /\
  createNewTaskDefinition uniqueID (Some (taskDefinition [web; sidecar])) =
    Ok (taskDefinition [web_retagged]).
Proof.
  assert (Forall (fun c => exists img, imageOf c = Ok img) [web; sidecar]) as Hall.
  { repeat constructor; eexists; vm_compute; reflexivity. }
  split; [exact Hall|].
  apply (proj1 (createNewTaskDefinition_retags uniqueID (taskDefinition [web; sidecar]))).
  split; [exact Hall|]. vm_compute. reflexivity.
Defined.

(** C2, on the code.  In the scenario of the specification the sidecar is
    out of scope, yet the attempt fails for want of an image option for the
    sidecar's repository; and when the deployer names that repository,
    [execute] tags an image for the sidecar too. *)
Theorem execute_tags_out_of_scope :
  inScope sidecar = false /\
  outcome run_sidecar = Err (errorString "can not found image option proxy") /\
  putImages (events run_sidecar) =
    [{| ecr.putImageManifest := Some "manifest-app-v1";
        ecr.putImageTag := Some uniqueID;
        ecr.putRepositoryName := Some "app" |}] /\
  outcome run_sidecar_option = Ok tt /\
  putImages (events run_sidecar_option) =
    [{| ecr.putImageManifest := Some "manifest-app-v1";
        ecr.putImageTag := Some uniqueID;
        ecr.putRepositoryName := Some "app" |};
     {| ecr.putImageManifest := Some "manifest-proxy";
        ecr.putImageTag := Some uniqueID;
        ecr.putRepositoryName := Some "proxy" |}].
Proof. repeat split; vm_compute; reflexivity. Qed.

(** C5, on the code.  A reference without a tag parses to a named
    reference that is not tagged, and the unchecked assertion to
    [reference.Tagged] panics: for a bare repository and for an image on an
    ECR host alike. *)
Theorem parseDockerImage_untagged_panics :
  reference.Parse "nginx" =
    Ok (reference.namedRepository {| reference.domain := ""; reference.path := "nginx" |}) /\
  parseDockerImage "nginx" = Panic (InterfaceConversion "reference.Tagged") /\
  parseDockerImage (ecrHost +:+ "/app") = Panic (InterfaceConversion "reference.Tagged").
Proof. repeat split; vm_compute; reflexivity. Qed.

(** C6, on the code.  The registry holds [app:v1] only.  Tagging from
    [app:v2] gets a successful [BatchGetImage] response that reports
    [ImageNotFound] and holds no image; [tagDockerImage] then panics on
    [img.Images[0]] instead of returning an error, and writes nothing. *)
Theorem tagDockerImage_missing_image_panics :
  let run := tagDockerImage "app" "v2" uniqueID (world [web] 1 images_app) in
  outcome run = Panic IndexOutOfRange /\
  events run =
    [EvBatchGetImage (tagDockerImage_params "app" "v2")
       (Ok {| ecr.Failures :=
                [{| ecr.FailureCode := Some "ImageNotFound";
                    ecr.FailureReason := Some "Requested image not found";
                    ecr.failImageId :=
                      Some {| ecr.ImageDigest := None; ecr.ImageTag := Some "v2" |} |}];
              ecr.Images := [] |})] /\
  putImages (events run) = [].
Proof. repeat split; vm_compute; reflexivity. Qed.

(** C7 as stated fails on both counts.  The attempt made while another
    deployment is in progress generates no id at all; and in the attempt on
    [web] the unique id is generated and the history entry is written, and
    the message of the entry does not contain the id. *)
Lemma uniqueID_not_in_history :
  ~ (forall (f : deployCmd) (w : World),
       length (List.filter is_newULID (events (execute f w))) = 1%nat) /\
  ~ (forall (f : deployCmd) (w : World) uid revision message rp,
       EvNewULID (Ok uid) ∈ events (execute f w) ->
       EvPushState revision message rp ∈ events (execute f w) ->
       Contains message uid = true).
Proof.
  split.
  - intros H. specialize (H (command [app_v1]) (world [web] 2 images_app)).
    by vm_compute in H.
  - intros H.
    specialize (H (command [app_v1]) (world [web] 1 images_app)
                  uniqueID 8%Z "deploy: 7 -> 8" (Ok tt)).
    assert (Contains "deploy: 7 -> 8" uniqueID = true) as Hc; [|by vm_compute in Hc].
    apply H.
    + apply (list_elem_of_lookup_2 _ 3). vm_compute. reflexivity.
    + apply (list_elem_of_lookup_2 _ 13). vm_compute. reflexivity.
Qed.

Lemma deploying_aborts_witness :
  EvDescribeService "prod" "app" (Ok (Some (service (world [web] 2 images_app))))
    ∈ events run_deploying /\
  (1 < length (ecs.Deployments (service (world [web] 2 images_app))))%nat /\
  outcome run_deploying = Err (errorString "app is currently deploying") /\
  Forall (fun e => is_retag e = false /\ is_mutation e = false) (events run_deploying).
Proof.
  assert (EvDescribeService "prod" "app" (Ok (Some (service (world [web] 2 images_app))))
            ∈ events run_deploying) as Hin.
  { apply (list_elem_of_lookup_2 _ 2). vm_compute. reflexivity. }
  assert (1 < length (ecs.Deployments (service (world [web] 2 images_app))))%nat as Hlen.
  { vm_compute. lia. }
  destruct (deploying_aborts (command [app_v1]) (world [web] 2 images_app) _ Hin Hlen)
    as (Hr & _ & Hall).
  repeat split; assumption.
Defined.

Lemma retag_precedes_register_witness :
  events run_web =
    take 7 (events run_web) ++
    EvRegisterTaskDefinition
      (registerTaskDefinition_params (taskDefinition [web_retagged]))
      (RegisterTaskDefinition
         (registerTaskDefinition_params (taskDefinition [web_retagged]))
         (world [web] 1 images_app)).1
    :: drop 8 (events run_web) /\
  Forall (fun e => is_retag e = false) (drop 8 (events run_web)) /\
  exists uniqueID arn td,
    EvDescribeTaskDefinition arn (Ok (Some td)) ∈ take 7 (events run_web) /\
    Forall (fun c' => exists c img manifest,
              c ∈ ecs.ContainerDefinitions td /\
              imageOf c = Ok img /\ isECRHosted img = true /\
              c' = ecs.set_Image c (Some (Name img +:+ ":" +:+ uniqueID)) /\
              EvPutImage {| ecr.putImageManifest := manifest;
                            ecr.putImageTag := Some uniqueID;
                            ecr.putRepositoryName := Some (RepositoryName img) |}
                         (Ok tt) ∈ take 7 (events run_web))
           [web_retagged].
Proof.
  assert (events run_web =
    take 7 (events run_web) ++
    EvRegisterTaskDefinition
      (registerTaskDefinition_params (taskDefinition [web_retagged]))
      (RegisterTaskDefinition
         (registerTaskDefinition_params (taskDefinition [web_retagged]))
         (world [web] 1 images_app)).1
    :: drop 8 (events run_web)) as Heq.
  { vm_compute. reflexivity. }
  split; [exact Heq|].
  destruct (retag_precedes_register (command [app_v1]) (world [web] 1 images_app)
              _ _ _ _ Heq) as (Hpost & uid & arn & td & _ & Htd & _ & _ & _ & Hall).
  split; [exact Hpost|].
  exists uid, arn, td. split; [exact Htd|exact Hall].
Defined.

Lemma uniqueID_once_witness :
  EvBatchGetImage (tagDockerImage_params "app" "v1")
    (BatchGetImage (tagDockerImage_params "app" "v1") (world [web] 1 images_app)).1
    ∈ events run_web /\
  length (List.filter is_newULID (events run_web)) = 1%nat.
Proof.
  assert (EvBatchGetImage (tagDockerImage_params "app" "v1")
            (BatchGetImage (tagDockerImage_params "app" "v1") (world [web] 1 images_app)).1
            ∈ events run_web) as Hin.
  { apply (list_elem_of_lookup_2 _ 5). vm_compute. reflexivity. }
  split; [exact Hin|].
  exact (proj1 (proj1 (proj2 (uniqueID_once (command [app_v1]) (world [web] 1 images_app)))
                  _ Hin eq_refl)).
Defined.

Lemma history_after_convergence_witness :
  events run_web =
    take 13 (events run_web) ++
    EvPushState 8 "deploy: 7 -> 8" (Ok tt) :: drop 14 (events run_web) /\
  EvWaitUpdateService "prod" "app" (Ok tt) ∈ take 13 (events run_web).
Proof.
  assert (events run_web =
    take 13 (events run_web) ++
    EvPushState 8 "deploy: 7 -> 8" (Ok tt) :: drop 14 (events run_web)) as Heq.
  { vm_compute. reflexivity. }
  split; [exact Heq|].
  exact (proj1 (history_after_convergence (command [app_v1]) (world [web] 1 images_app)
                  _ _ _ _ _ Heq)).
Defined.

Lemma transform_frame_witness :
  createNewTaskDefinition uniqueID (Some (taskDefinition [web; sidecar]))
    = Ok (taskDefinition [web_retagged]) /\
  sameExceptContainers (taskDefinition [web; sidecar]) (taskDefinition [web_retagged]).
Proof.
  assert (createNewTaskDefinition uniqueID (Some (taskDefinition [web; sidecar]))
            = Ok (taskDefinition [web_retagged])) as Hnew.
  { vm_compute. reflexivity. }
  split; [exact Hnew|].
  exact (proj1 (transform_frame uniqueID _ _ (world [web; sidecar] 1 images_app) Hnew)).
Defined.

Lemma createNewTaskDefinition_preserves_baseline_witness :
  Mem.read_taskDef store 1%positive = Some (taskDefinition [web; sidecar]) /\
  Mem.read_taskDef (Mem.createNewTaskDefinition uniqueID (Some 1%positive) store).2
    1%positive = Some (taskDefinition [web; sidecar]).
Proof.
  assert (Mem.read_taskDef store 1%positive = Some (taskDefinition [web; sidecar])) as Hread.
  { vm_compute. reflexivity. }
  split; [exact Hread|].
  destruct (MemFacts.createNewTaskDefinition_preserves_baseline uniqueID (Some 1%positive)
              store) as (_ & _ & _ & Hkeep & _).
  exact (Hkeep _ _ Hread).
Defined.

End Scenario.

(** * Further properties *)

(** ** The search and what an expression matches *)

Lemma run_Star r s c k :
  regexp.run (regexp.Star r) s c k = star_iter r k (length s) s c.
Proof. reflexivity. Qed.

(** Every result of the search comes from a match of a prefix of the text,
    after which the continuation gave that result. *)
Lemma run_sound r :
  forall s c k m,
    regexp.run r s c k = Some m ->
    exists p s' c', s = p ++ s' /\ Matches r p c c' /\ k s' c' = Some m.
Proof.
  induction r as [|f|r1 IH1 r2 IH2|r1 IH1 r2 IH2|r IH|i r IH]; intros s c k m H.
  - exists [], s, c. repeat split; [constructor|exact H].
  - destruct s as [|a s]; simpl in H; [done|].
    destruct (f a) eqn:Hf; [|done].
    exists [a], s, c. repeat split; [by constructor|exact H].
  - simpl in H. apply IH1 in H as (p1 & s1 & c1 & -> & H1 & H).
    apply IH2 in H as (p2 & s2 & c2 & -> & H2 & H).
    exists (p1 ++ p2), s2, c2. rewrite <- (assoc_L (++)).
    repeat split; [by econstructor|exact H].
  - simpl in H. destruct (regexp.run r1 s c k) as [m'|] eqn:H1.
    + injection H as ->. apply IH1 in H1 as (p & s' & c' & -> & Hm & Hk).
      exists p, s', c'. repeat split; [by apply Matches_Alt_l|exact Hk].
    + apply IH2 in H as (p & s' & c' & -> & Hm & Hk).
      exists p, s', c'. repeat split; [by apply Matches_Alt_r|exact Hk].
  - rewrite run_Star in H. revert H. generalize (length s) as n. intros n. revert s c.
    induction n as [|n IHn]; intros s c H; simpl in H.
    + exists [], s, c. repeat split; [constructor|exact H].
    + destruct (regexp.run r s c _) as [m'|] eqn:H1.
      * injection H as ->. apply IH in H1 as (p1 & s1 & c1 & -> & Hm & Hk).
        destruct (Nat.ltb_spec (length s1) (length (p1 ++ s1))) as [Hlt|]; [|done].
        apply IHn in Hk as (p2 & s2 & c2 & -> & Hm2 & Hk).
        exists (p1 ++ p2), s2, c2. rewrite <- (assoc_L (++)).
        repeat split; [|exact Hk].
        apply Matches_Star_cons with c1; [|done..].
        intros ->. simpl in Hlt. lia.
      * exists [], s, c. repeat split; [constructor|exact H].
  - simpl in H. apply IH in H as (p & s' & c' & -> & Hm & Hk).
    exists p, s', ((i, p) :: c'). repeat split; [by constructor|].
    rewrite length_app in Hk.
    replace (length p + length s' - length s')%nat with (length p) in Hk by lia.
    by rewrite take_app_length in Hk.
Qed.

(** When the text starts with a match after which the continuation gives a
    result whatever the submatches, the search gives a result. *)
Lemma run_complete r p c1 c2 :
  Matches r p c1 c2 ->
  forall s' c k,
    (forall c', k s' c' <> None) ->
    regexp.run r (p ++ s') c k <> None /\
    (forall r0, r = regexp.Star r0 ->
       forall n, (length (p ++ s') <= n)%nat -> star_iter r0 k n (p ++ s') c <> None).
Proof.
  induction 1 as [c0|f a c0 Hf|r1 r2 p1 p2 c0 c1' c2' _ IH1 _ IH2
                 |r1 r2 p c0 c' _ IH|r1 r2 p c0 c' _ IH|r c0
                 |r p1 p2 c0 c1' c2' Hne _ IH1 _ IH2|i r p c0 c' _ IH];
    intros s' c k Hk.
  - split; [apply Hk|done].
  - split; [simpl; rewrite Hf; apply Hk|done].
  - split; [|done]. simpl. rewrite <- (assoc_L (++)).
    apply IH1. intros c'. by apply IH2.
  - split; [|done]. simpl. destruct (regexp.run r1 (p ++ s') c k) eqn:H1; [done|].
    by destruct (IH s' c k Hk) as [Hr _].
  - split; [|done]. simpl. destruct (regexp.run r1 (p ++ s') c k) eqn:H1; [done|].
    by apply IH.
  - assert (forall n, star_iter r k n s' c <> None) as Hn.
    { intros [|n]; simpl; [apply Hk|]. destruct (regexp.run r s' c _); [done|apply Hk]. }
    split; [rewrite run_Star; apply Hn|]. intros r0 [= <-] n _. apply Hn.
  - assert (forall n, (length ((p1 ++ p2) ++ s') <= n)%nat ->
              star_iter r k n ((p1 ++ p2) ++ s') c <> None) as Hn.
    { intros n Hlen. destruct n as [|n].
      { destruct p1; [done|]. simpl in Hlen. exfalso. lia. }
      simpl. destruct (regexp.run r _ c _) eqn:Hrun; [done|]. exfalso.
      rewrite <- (assoc_L (++)) in Hrun.
      refine (proj1 (IH1 (p2 ++ s') c _ _) Hrun).
      intros c'. rewrite !length_app.
      destruct (Nat.ltb_spec (length p2 + length s') (length p1 + (length p2 + length s')))
        as [_|Hge].
      - apply (proj2 (IH2 s' c' k Hk) r eq_refl).
        rewrite !length_app in Hlen. rewrite length_app.
        destruct p1; [done|]. simpl in Hlen. lia.
      - destruct p1; [done|]. simpl in Hge. exfalso. lia. }
    split; [rewrite run_Star; by apply Hn|]. intros r0 [= <-]. apply Hn.
  - split; [|done]. simpl. apply IH. intros c''. apply Hk.
Qed.

(** [FindStringSubmatch] returns the submatches of a match of the whole
    text, and returns submatches whenever the whole text matches. *)
Lemma FindStringSubmatch_sound r s m :
  regexp.FindStringSubmatch r s = Some m -> Matches r (list_ascii_of_string s) [] m.
Proof.
  unfold regexp.FindStringSubmatch. intros H.
  apply run_sound in H as (p & s' & c' & Hs & Hm & Hk).
  destruct s'; [|done]. injection Hk as ->. rewrite app_nil_r in Hs. by rewrite Hs.
Qed.

Lemma FindStringSubmatch_complete r s c c' :
  Matches r (list_ascii_of_string s) c c' -> regexp.FindStringSubmatch r s <> None.
Proof.
  unfold regexp.FindStringSubmatch. intros Hm.
  rewrite <- (app_nil_r (list_ascii_of_string s)).
  by apply (run_complete _ _ _ _ Hm).
Qed.

Lemma MatchString_spec r s :
  regexp.MatchString r s = true <-> exists m, Matches r (list_ascii_of_string s) [] m.
Proof.
  unfold regexp.MatchString. split.
  - destruct (regexp.FindStringSubmatch r s) as [m|] eqn:H; [|done].
    intros _. exists m. by apply FindStringSubmatch_sound.
  - intros [m Hm]. apply FindStringSubmatch_complete in Hm.
    by destruct (regexp.FindStringSubmatch r s).
Qed.

(** *** Tools to read and to build matches *)

Lemma Matches_Seq_inv r1 r2 p c c2 :
  Matches (regexp.Seq r1 r2) p c c2 ->
  exists p1 p2 c1, p = p1 ++ p2 /\ Matches r1 p1 c c1 /\ Matches r2 p2 c1 c2.
Proof. inversion 1; subst. eauto 10. Qed.

Lemma Matches_Group_inv i r p c c2 :
  Matches (regexp.Group i r) p c c2 -> exists c1, c2 = (i, p) :: c1 /\ Matches r p c c1.
Proof. inversion 1; subst. eauto. Qed.

Lemma Matches_Alt_inv r1 r2 p c c' :
  Matches (regexp.Alt r1 r2) p c c' -> Matches r1 p c c' \/ Matches r2 p c c'.
Proof. inversion 1; subst; auto. Qed.

Lemma Matches_Empty_inv p c c' : Matches regexp.Empty p c c' -> p = [] /\ c' = c.
Proof. by inversion 1. Qed.

Lemma Matches_Char_inv f p c c' :
  Matches (regexp.Char f) p c c' -> exists a, p = [a] /\ f a = true /\ c' = c.
Proof. inversion 1; subst. eauto. Qed.

Lemma Matches_Lit s c : Matches (regexp.Lit s) (list_ascii_of_string s) c c.
Proof.
  induction s as [|a s IH]; simpl; [constructor|].
  apply (Matches_Seq _ _ [a] _ c c c); [|exact IH].
  constructor. apply Ascii.eqb_refl.
Qed.

Lemma Matches_Lit_inv s p c c' :
  Matches (regexp.Lit s) p c c' -> p = list_ascii_of_string s /\ c' = c.
Proof.
  revert p c c'. induction s as [|a s IH]; simpl; intros p c c' H.
  - by apply Matches_Empty_inv in H.
  - apply Matches_Seq_inv in H as (p1 & p2 & c1 & -> & H1 & H2).
    apply Matches_Char_inv in H1 as (b & -> & Hb & ->).
    apply Ascii.eqb_eq in Hb as <-. apply IH in H2 as [-> ->]. done.
Qed.

(** An expression without groups leaves the submatches as they are, and
    matches whatever they are. *)
Lemma Matches_nogroups r p c c' :
  nogroups r = true -> Matches r p c c' -> c' = c /\ forall d, Matches r p d d.
Proof.
  intros Hn H. induction H; simpl in Hn;
    try (apply andb_true_iff in Hn as [Hn1 Hn2]); try done.
  - split; [done|]. intros d. constructor.
  - split; [done|]. intros d. by constructor.
  - destruct (IHMatches1 Hn1) as [-> H1']. destruct (IHMatches2 Hn2) as [-> H2'].
    split; [done|]. intros d. by econstructor.
  - destruct (IHMatches Hn1) as [-> H']. split; [done|]. intros d. by apply Matches_Alt_l.
  - destruct (IHMatches Hn2) as [-> H']. split; [done|]. intros d. by apply Matches_Alt_r.
  - split; [done|]. intros d. constructor.
  - destruct (IHMatches1 Hn) as [-> H1']. destruct (IHMatches2 Hn) as [-> H2'].
    split; [done|]. intros d. by econstructor.
Qed.

(** Every character of a match is accepted by a class of the expression. *)
Lemma Matches_accepts r p c c' :
  Matches r p c c' -> Forall (fun a => accepts r a = true) p.
Proof.
  induction 1; simpl; try done.
  - by repeat constructor.
  - apply Forall_app_2; (eapply Forall_impl; [eassumption|]);
      intros a Ha; simpl in *; rewrite Ha; by rewrite ?orb_true_r.
  - eapply Forall_impl; [eassumption|]. intros a Ha. simpl in *. by rewrite Ha.
  - eapply Forall_impl; [eassumption|]. intros a Ha. simpl in *. rewrite Ha.
    by rewrite orb_true_r.
  - by apply Forall_app_2.
Qed.

Lemma Matches_Star_class f p c :
  Forall (fun a => f a = true) p -> Matches (regexp.Star (regexp.Char f)) p c c.
Proof.
  induction 1 as [|a p Ha _ IH]; [constructor|].
  apply (Matches_Star_cons _ [a] p c c c); [done|by constructor|exact IH].
Qed.

Lemma Matches_Plus_class f p c :
  p <> [] -> Forall (fun a => f a = true) p -> Matches (regexp.Plus (regexp.Char f)) p c c.
Proof.
  intros Hne Hall. destruct Hall as [|a p Ha Hall]; [done|].
  apply (Matches_Seq _ _ [a] p c c c); [by constructor|by apply Matches_Star_class].
Qed.

Lemma Matches_Plus_class_inv f p c c' :
  Matches (regexp.Plus (regexp.Char f)) p c c' ->
  p <> [] /\ Forall (fun a => f a = true) p /\ c' = c.
Proof.
  intros H. pose proof (Matches_accepts _ _ _ _ H) as Hall.
  destruct (Matches_nogroups (regexp.Plus (regexp.Char f)) _ _ _ eq_refl H) as [-> _].
  apply Matches_Seq_inv in H as (p1 & p2 & c1 & -> & H1 & _).
  apply Matches_Char_inv in H1 as (a & -> & _ & _).
  repeat split; [done|].
  eapply Forall_impl; [exact Hall|]. intros b. simpl. by rewrite orb_diag.
Qed.

Lemma list_ascii_of_string_app (a b : string) :
  list_ascii_of_string (a +:+ b) = list_ascii_of_string a ++ list_ascii_of_string b.
Proof. induction a as [|x a IH]; simpl; [done|]. by rewrite IH. Qed.

Lemma string_of_list_ascii_app (a b : list ascii) :
  string_of_list_ascii (a ++ b) = string_of_list_ascii a +:+ string_of_list_ascii b.
Proof. induction a as [|x a IH]; simpl; [done|]. by rewrite IH. Qed.

(** ** The classifier *)

Lemma Matches_Alts_Lit (l : list string) p c c' :
  l <> [] ->
  Matches (regexp.Alts (map regexp.Lit l)) p c c' ->
  c' = c /\ exists s, s ∈ l /\ p = list_ascii_of_string s.
Proof.
  induction l as [|s l IH]; [done|]. intros _ H. destruct l as [|s' l].
  - simpl in H. apply Matches_Lit_inv in H as [-> ->]. split; [done|]. exists s.
    split; [by left|done].
  - change (regexp.Alts (map regexp.Lit (s :: s' :: l))) with
      (regexp.Alt (regexp.Lit s) (regexp.Alts (map regexp.Lit (s' :: l)))) in H.
    apply Matches_Alt_inv in H as [H|H].
    + apply Matches_Lit_inv in H as [-> ->]. split; [done|]. exists s.
      split; [by left|done].
    + apply IH in H as [-> (s0 & Hin & ->)]; [|done]. split; [done|]. exists s0.
      split; [by right|done].
Qed.

Lemma Matches_Alts_Lit_intro (l : list string) s c :
  s ∈ l -> Matches (regexp.Alts (map regexp.Lit l)) (list_ascii_of_string s) c c.
Proof.
  induction l as [|s0 l IH]; [by intros ?%elem_of_nil|]. intros Hin.
  destruct l as [|s' l].
  - apply list_elem_of_singleton in Hin as ->. apply Matches_Lit.
  - change (regexp.Alts (map regexp.Lit (s0 :: s' :: l))) with
      (regexp.Alt (regexp.Lit s0) (regexp.Alts (map regexp.Lit (s' :: l)))).
    apply elem_of_cons in Hin as [->|Hin].
    + apply Matches_Alt_l, Matches_Lit.
    + by apply Matches_Alt_r, IH.
Qed.

(** X1. [isECRHosted] holds exactly for the host names of the registry: a
    non-empty account id of digits, [.dkr.ecr.], one of the five continents,
    one of the six areas, the number 1 or 2, and [.amazonaws.com]. *)
Theorem isECRHosted_ecrHostName (image : dockerImage) :
  isECRHosted image = true <-> ecrHostName (HostName image).
Proof.
  unfold isECRHosted, ecrHostName. rewrite MatchString_spec. split.
  - intros [m H]. unfold ECRRegex in H. cbn [regexp.Seqs] in H.
    apply Matches_Seq_inv in H as (p1 & q1 & c1 & Hh & H1 & H).
    apply Matches_Plus_class_inv in H1 as (Hne & Hdigits & ->).
    apply Matches_Seq_inv in H as (p2 & q2 & c2 & -> & H2 & H).
    apply Matches_Lit_inv in H2 as [-> ->].
    apply Matches_Seq_inv in H as (p3 & q3 & c3 & -> & H3 & H).
    apply Matches_Group_inv in H3 as (c3' & -> & H3).
    apply (Matches_Alts_Lit ecrContinents) in H3 as [-> (continent & Hc & ->)]; [|done].
    apply Matches_Seq_inv in H as (p4 & q4 & c4 & -> & H4 & H).
    apply Matches_Lit_inv in H4 as [-> ->].
    apply Matches_Seq_inv in H as (p5 & q5 & c5 & -> & H5 & H).
    apply Matches_Group_inv in H5 as (c5' & -> & H5).
    apply (Matches_Alts_Lit ecrAreas) in H5 as [-> (area & Ha & ->)]; [|done].
    apply Matches_Seq_inv in H as (p6 & q6 & c6 & -> & H6 & H).
    apply Matches_Lit_inv in H6 as [-> ->].
    apply Matches_Seq_inv in H as (p7 & q7 & c7 & -> & H7 & H).
    apply Matches_Char_inv in H7 as (n & -> & Hn & ->).
    apply Matches_Lit_inv in H as [-> ->].
    exists (string_of_list_ascii p1), continent, area, (String n "").
    rewrite list_ascii_of_string_of_list_ascii. split_and!; try done.
    + rewrite <- (string_of_list_ascii_of_string (HostName image)), Hh.
      rewrite !string_of_list_ascii_app, !string_of_list_ascii_of_string. done.
    + by destruct p1.
    + unfold regexp.oneof in Hn. simpl in Hn.
      rewrite !orb_true_iff, !Ascii.eqb_eq in Hn.
      destruct Hn as [->|[->|?]]; [by left|right; by left|done].
  - intros (account & continent & area & number & -> & Hne & Hdigits & Hc & Ha & Hn).
    eexists. unfold ECRRegex. cbn [regexp.Seqs].
    rewrite !list_ascii_of_string_app.
    eapply Matches_Seq; [apply Matches_Plus_class; [by destruct account|done]|].
    eapply Matches_Seq; [apply Matches_Lit|].
    eapply Matches_Seq; [apply Matches_Group, (Matches_Alts_Lit_intro ecrContinents), Hc|].
    eapply Matches_Seq; [apply Matches_Lit|].
    eapply Matches_Seq; [apply Matches_Group, (Matches_Alts_Lit_intro ecrAreas), Ha|].
    eapply Matches_Seq; [apply Matches_Lit|].
    eapply Matches_Seq; [|apply Matches_Lit].
    unfold ecrNumbers in Hn. rewrite !elem_of_cons, elem_of_nil in Hn.
    destruct Hn as [->|[->|[]]]; by constructor.
Qed.

(** ** Image options *)

Lemma Matches_nullable r p c c' : Matches r p c c' -> p = [] -> nullable r = true.
Proof.
  induction 1; simpl; intros Hp; try done.
  - apply app_eq_nil in Hp as [-> ->]. by rewrite IHMatches1, IHMatches2.
  - by rewrite IHMatches.
  - rewrite IHMatches; [|done]. by rewrite orb_true_r.
  - auto.
Qed.

Lemma Matches_UpTo_length n f p c c' :
  Matches (regexp.UpTo n (regexp.Char f)) p c c' -> (length p <= n)%nat.
Proof.
  revert p c c'. induction n as [|n IH]; simpl; intros p c c' H.
  - apply Matches_Empty_inv in H as [-> _]. done.
  - apply Matches_Alt_inv in H as [H|H].
    + apply Matches_Seq_inv in H as (p1 & p2 & c1 & -> & H1 & H2).
      apply Matches_Char_inv in H1 as (a & -> & _ & _). apply IH in H2. simpl. lia.
    + apply Matches_Empty_inv in H as [-> _]. simpl. lia.
Qed.

Lemma Matches_UpTo_class n f p c :
  (length p <= n)%nat -> Forall (fun a => f a = true) p ->
  Matches (regexp.UpTo n (regexp.Char f)) p c c.
Proof.
  revert p. induction n as [|n IH]; intros p Hlen Hall.
  - destruct p; [constructor|simpl in Hlen; lia].
  - destruct Hall as [|a p Ha Hall]; simpl.
    + apply Matches_Alt_r. constructor.
    + apply Matches_Alt_l. apply (Matches_Seq _ _ [a] p c c c); [by constructor|].
      apply IH; [simpl in Hlen; lia|done].
Qed.

Lemma accepts_UpTo n r a : accepts (regexp.UpTo n r) a = true -> accepts r a = true.
Proof.
  induction n as [|n IH]; simpl; [done|].
  rewrite !orb_true_iff. intros [[?|?]|?]; auto. done.
Qed.

(** The text before the first occurrence of a character is determined. *)
Lemma split_first_unique {A : Type} (a : A) (x1 y1 x2 y2 : list A) :
  a ∉ x1 -> a ∉ x2 -> x1 ++ a :: y1 = x2 ++ a :: y2 -> x1 = x2 /\ y1 = y2.
Proof.
  revert x2. induction x1 as [|b x1 IH]; intros [|b2 x2] H1 H2 Heq; simplify_eq/=.
  - done.
  - exfalso. apply H2. by left.
  - exfalso. apply H1. by left.
  - destruct (IH x2) as [-> ->]; [| |done|done].
    + intros Hin. apply H1. by right.
    + intros Hin. apply H2. by right.
Qed.

(** What the expression of [Set] matches: a repository, a colon and a tag,
    submatches 1 and 2. *)
Lemma imageOptionRegexp_inv p m :
  Matches imageOptionRegexp p [] m ->
  exists repo tag,
    p = repo ++ ":"%char :: tag /\ m = [(2%nat, tag); (1%nat, repo)] /\
    Matches optionRepositoryRegexp repo [] [] /\ Matches optionTagRegexp tag [] [].
Proof.
  unfold imageOptionRegexp. cbn [regexp.Seqs]. intros H.
  apply Matches_Seq_inv in H as (repo & q & c1 & -> & H1 & H).
  apply Matches_Group_inv in H1 as (c1' & -> & H1).
  destruct (Matches_nogroups optionRepositoryRegexp _ _ _ eq_refl H1) as [-> _].
  apply Matches_Seq_inv in H as (p2 & tag & c2 & -> & H2 & H).
  apply Matches_Char_inv in H2 as (a & -> & Ha & ->). apply Ascii.eqb_eq in Ha as <-.
  apply Matches_Group_inv in H as (c3 & -> & H).
  destruct (Matches_nogroups optionTagRegexp _ _ _ eq_refl H) as [-> H'].
  exists repo, tag. split_and!; done.
Qed.

Lemma optionRepositoryRegexp_no_colon p c c' :
  Matches optionRepositoryRegexp p c c' -> ":"%char ∉ p.
Proof.
  intros H%Matches_accepts Hin. rewrite Forall_forall in H. apply H in Hin.
  by vm_compute in Hin.
Qed.

Lemma submatch_of_list (repo tag : list ascii) :
  regexp.submatch 1 [(2%nat, tag); (1%nat, repo)] = string_of_list_ascii repo /\
  regexp.submatch 2 [(2%nat, tag); (1%nat, repo)] = string_of_list_ascii tag.
Proof. done. Qed.

Lemma length_list_ascii_of_string (s : string) :
  length (list_ascii_of_string s) = String.length s.
Proof. induction s as [|a s IH]; simpl; [done|]. by rewrite IH. Qed.

(** The core of [Set]: on a repository, a colon and a tag that the two
    groups match, the submatches are the repository and the tag. *)
Lemma FindStringSubmatch_imageOption (repo tag : string) :
  regexp.MatchString optionRepositoryRegexp repo = true ->
  regexp.MatchString optionTagRegexp tag = true ->
  regexp.FindStringSubmatch imageOptionRegexp (repo +:+ ":" +:+ tag) =
    Some [(2%nat, list_ascii_of_string tag); (1%nat, list_ascii_of_string repo)].
Proof.
  intros [mr Hr]%MatchString_spec [mt Ht]%MatchString_spec.
  destruct (Matches_nogroups optionRepositoryRegexp _ _ _ eq_refl Hr) as [-> Hr'].
  destruct (Matches_nogroups optionTagRegexp _ _ _ eq_refl Ht) as [-> Ht'].
  destruct (regexp.FindStringSubmatch imageOptionRegexp (repo +:+ ":" +:+ tag))
    as [m|] eqn:Hm.
  - apply FindStringSubmatch_sound, imageOptionRegexp_inv in Hm
      as (repo' & tag' & Heq & -> & Hr2 & Ht2).
    rewrite !list_ascii_of_string_app in Heq. simpl in Heq.
    apply split_first_unique in Heq as [<- <-]; [done|..].
    + by eapply optionRepositoryRegexp_no_colon.
    + by eapply optionRepositoryRegexp_no_colon.
  - exfalso. revert Hm.
    apply (FindStringSubmatch_complete _ _ [] [(2%nat, list_ascii_of_string tag);
                                                 (1%nat, list_ascii_of_string repo)]).
    rewrite !list_ascii_of_string_app. unfold imageOptionRegexp. cbn [regexp.Seqs].
    eapply Matches_Seq; [apply Matches_Group, Hr|].
    eapply Matches_Seq; [by apply (Matches_Char _ ":"%char)|].
    apply Matches_Group, Ht'.
Qed.

(** X9. [Set] on an accepted value: the value is a repository, a colon and a
    tag, which become the fields of one option appended to the options; the
    repository is not empty and has no colon, and the tag has between 1 and
    128 characters. *)
Theorem imageOptions_Set_accepted (t t' : imageOptions) (v : string) :
  imageOptions_Set t v = (None, t') ->
  exists opt,
    Value t' = Value t ++ [opt] /\
    v = optRepositoryName opt +:+ ":" +:+ optTag opt /\
    regexp.MatchString optionRepositoryRegexp (optRepositoryName opt) = true /\
    regexp.MatchString optionTagRegexp (optTag opt) = true /\
    optRepositoryName opt <> "" /\
    (":"%char ∉ list_ascii_of_string (optRepositoryName opt)) /\
    (1 <= String.length (optTag opt) <= 128)%nat.
Proof.
  unfold imageOptions_Set.
  destruct (regexp.FindStringSubmatch imageOptionRegexp v) as [m|] eqn:Hm; [|done].
  intros [= <-].
  apply FindStringSubmatch_sound, imageOptionRegexp_inv in Hm
    as (repo & tag & Hv & -> & Hr & Ht).
  eexists. split; [reflexivity|]. simpl.
  assert (1 <= length tag <= 128)%nat as Hlen.
  { pose proof Ht as Ht'.
    apply Matches_Seq_inv in Ht' as (p1 & p2 & c1 & -> & H1 & H2).
    apply Matches_Char_inv in H1 as (a & -> & _ & ->).
    apply Matches_UpTo_length in H2. simpl. lia. }
  split_and!.
  - rewrite <- (string_of_list_ascii_of_string v), Hv.
    by rewrite string_of_list_ascii_app.
  - apply MatchString_spec. eexists. by rewrite list_ascii_of_string_of_list_ascii.
  - apply MatchString_spec. eexists. by rewrite list_ascii_of_string_of_list_ascii.
  - intros Hnil. assert (repo = []) as ->.
    { by rewrite <- (list_ascii_of_string_of_list_ascii repo), Hnil. }
    by apply Matches_nullable in Hr.
  - rewrite list_ascii_of_string_of_list_ascii.
    by eapply optionRepositoryRegexp_no_colon.
  - rewrite <- length_list_ascii_of_string, list_ascii_of_string_of_list_ascii. lia.
  - rewrite <- length_list_ascii_of_string, list_ascii_of_string_of_list_ascii. lia.
Qed.

(** X10. [Set] on a valid value appends exactly the option of that repository and
    tag. *)
Theorem imageOptions_Set_valid (t : imageOptions) (repo tag : string) :
  regexp.MatchString optionRepositoryRegexp repo = true ->
  regexp.MatchString optionTagRegexp tag = true ->
  imageOptions_Set t (repo +:+ ":" +:+ tag) =
    (None, {| Value := Value t ++ [{| optRepositoryName := repo; optTag := tag |}] |}).
Proof.
  intros Hr Ht. unfold imageOptions_Set.
  rewrite (FindStringSubmatch_imageOption repo tag Hr Ht). simpl.
  by rewrite !string_of_list_ascii_of_string.
Qed.

(** X11. [Set] on a rejected value: the options are as before, the error names the
    value, and the value is not a valid repository, a colon and a valid
    tag. *)
Theorem imageOptions_Set_rejected (t t' : imageOptions) (v : string) (e : error) :
  imageOptions_Set t v = (Some e, t') ->
  t' = t /\ e = errorString ("invalid format " +:+ v) /\
  forall repo tag,
    v = repo +:+ ":" +:+ tag ->
    regexp.MatchString optionRepositoryRegexp repo = true ->
    regexp.MatchString optionTagRegexp tag = false.
Proof.
  unfold imageOptions_Set.
  destruct (regexp.FindStringSubmatch imageOptionRegexp v) as [m|] eqn:Hm; [done|].
  intros [= <- <-]. split_and!; try done.
  intros repo tag -> Hr.
  destruct (regexp.MatchString optionTagRegexp tag) eqn:Ht; [|done].
  by rewrite (FindStringSubmatch_imageOption repo tag Hr Ht) in Hm.
Qed.

(** X12. The tags [Set] accepts: between 1 and 128 characters, the first a word
    character, the others word characters, dots or dashes. *)
Theorem optionTagRegexp_spec (tag : string) :
  regexp.MatchString optionTagRegexp tag = true <->
  (1 <= String.length tag <= 128)%nat /\
  (exists a rest, tag = String a rest /\ regexp.word a = true) /\
  Forall (fun a => (regexp.word a || regexp.oneof ".-" a)%bool = true)
         (list_ascii_of_string tag).
Proof.
  rewrite MatchString_spec. unfold optionTagRegexp. split.
  - intros [m H]. pose proof (Matches_accepts _ _ _ _ H) as Hall.
    apply Matches_Seq_inv in H as (p1 & p2 & c1 & Htag & H1 & H2).
    apply Matches_Char_inv in H1 as (a & -> & Ha & ->).
    apply Matches_UpTo_length in H2 as Hlen.
    rewrite <- length_list_ascii_of_string, Htag. simpl. split_and!; try lia.
    + destruct tag as [|b rest]; [done|]. simpl in Htag. injection Htag as -> _.
      by exists a, rest.
    + rewrite Htag in Hall. eapply Forall_impl; [exact Hall|].
      intros b Hb.
      change (accepts (regexp.Char regexp.word) b
              || accepts (regexp.UpTo 127 (regexp.Char
                   (fun a => regexp.word a || regexp.oneof ".-" a))) b = true)%bool in Hb.
      apply orb_true_iff in Hb as [Hb|Hb].
      * simpl in Hb. by rewrite Hb.
      * by apply accepts_UpTo in Hb.
  - intros (Hlen & (a & rest & -> & Ha) & Hall). eexists.
    change (list_ascii_of_string (String a rest)) with ([a] ++ list_ascii_of_string rest).
    apply (Matches_Seq _ _ [a] _ [] [] []); [by constructor|].
    apply Matches_UpTo_class.
    + rewrite length_list_ascii_of_string. simpl in Hlen. lia.
    + by inversion Hall.
Qed.

(** ** Looking up an image option *)

(** X13. [Get] returns the first option of the repository, and nil exactly when
    no option is of that repository. *)
Theorem imageOptions_Get_spec (t : imageOptions) (repoName : string) :
  match imageOptions_Get t repoName with
  | Some opt =>
      optRepositoryName opt = repoName /\
      exists before after,
        Value t = before ++ opt :: after /\
        Forall (fun o => optRepositoryName o <> repoName) before
  | None => Forall (fun o => optRepositoryName o <> repoName) (Value t)
  end.
Proof.
  unfold imageOptions_Get. induction (Value t) as [|o l IH]; simpl; [constructor|].
  destruct (String.eqb_spec (optRepositoryName o) repoName) as [Heq|Hne].
  - split; [done|]. exists [], l. split; [done|constructor].
  - destruct (imageOptions_Get_loop l repoName) as [opt|].
    + destruct IH as (Hname & before & after & -> & Hall).
      split; [done|]. exists (o :: before), after. split; [done|by constructor].
    + by constructor.
Qed.

(** X14. After an accepted [Set], [Get] answers as before for every repository
    that had an option, and answers the new option for its repository when
    that repository had none: the first option given for a repository
    stays. *)
Theorem imageOptions_Get_after_Set (t t' : imageOptions) (v repoName : string) :
  imageOptions_Set t v = (None, t') ->
  exists opt,
    Value t' = Value t ++ [opt] /\
    imageOptions_Get t' repoName =
      match imageOptions_Get t repoName with
      | Some o => Some o
      | None => if String.eqb (optRepositoryName opt) repoName then Some opt else None
      end.
Proof.
  unfold imageOptions_Set.
  destruct (regexp.FindStringSubmatch imageOptionRegexp v) as [m|]; [|done].
  intros [= <-]. eexists. split; [reflexivity|].
  unfold imageOptions_Get. simpl.
  induction (Value t) as [|o l IH]; simpl; [done|].
  by destruct (String.eqb (optRepositoryName o) repoName).
Qed.

(** ** Parsing and writing back an image reference *)

Lemma append_nil_r (s : string) : s +:+ "" = s.
Proof.
  induction s as [|a s IH]; [done|].
  change (String a (s +:+ "") = String a s). by rewrite IH.
Qed.

Lemma append_assoc (s1 s2 s3 : string) : (s1 +:+ s2) +:+ s3 = s1 +:+ (s2 +:+ s3).
Proof.
  induction s1 as [|a s1 IH]; [done|].
  change (String a ((s1 +:+ s2) +:+ s3) = String a (s1 +:+ s2 +:+ s3)). by rewrite IH.
Qed.

Lemma string_of_list_ascii_nil (l : list ascii) : string_of_list_ascii l = "" -> l = [].
Proof. by destruct l. Qed.

(** What [ReferenceRegexp] matches: a name, then possibly a colon and a tag,
    then possibly an at sign and a digest; the submatches are the name and
    the parts that are there. *)
Lemma ReferenceRegexp_inv p m :
  Matches reference.ReferenceRegexp p [] m ->
  exists name tag digest,
    Matches reference.NameRegexp name [] [] /\
    (tag = [] \/ Matches reference.TagRegexp tag [] []) /\
    (digest = [] \/ Matches reference.DigestRegexp digest [] []) /\
    name <> [] /\
    p = name ++ (if tag is [] then [] else ":"%char :: tag)
             ++ (if digest is [] then [] else "@"%char :: digest) /\
    regexp.submatch 1 m = string_of_list_ascii name /\
    regexp.submatch 2 m = string_of_list_ascii tag /\
    regexp.submatch 3 m = string_of_list_ascii digest.
Proof.
  unfold reference.ReferenceRegexp, reference.expression, reference.optional,
    reference.capture, reference.literal, regexp.Opt. cbn [regexp.Seqs].
  intros H.
  apply Matches_Seq_inv in H as (name & q & c1 & -> & H1 & H).
  apply Matches_Group_inv in H1 as (c1' & -> & H1).
  destruct (Matches_nogroups reference.NameRegexp _ _ _ eq_refl H1) as [-> Hn].
  assert (name <> []) as Hname.
  { intros ->. by apply Matches_nullable in H1. }
  apply Matches_Seq_inv in H as (ptag & pdig & c2 & -> & H2 & H3).
  assert (exists tag, ptag = (if tag is [] then [] else ":"%char :: tag) /\
            (tag = [] \/ Matches reference.TagRegexp tag [] []) /\
            c2 = (if tag is [] then [(1%nat, name)] else [(2%nat, tag); (1%nat, name)]))
    as (tag & -> & Ht & ->).
  { apply Matches_Alt_inv in H2 as [H2|H2].
    - apply Matches_Seq_inv in H2 as (x & tag & c & -> & Hx & H2).
      apply Matches_Lit_inv in Hx as [-> ->].
      apply Matches_Group_inv in H2 as (c' & -> & H2).
      destruct (Matches_nogroups reference.TagRegexp _ _ _ eq_refl H2) as [-> Ht].
      exists tag. destruct tag; [by apply Matches_nullable in H2|].
      split; [done|]. split; [|done]. right. apply Ht.
    - apply Matches_Empty_inv in H2 as [-> ->]. exists []. auto. }
  assert (exists digest, pdig = (if digest is [] then [] else "@"%char :: digest) /\
            (digest = [] \/ Matches reference.DigestRegexp digest [] []) /\
            m = (if digest is [] then [] else [(3%nat, digest)])
                ++ (if tag is [] then [(1%nat, name)] else [(2%nat, tag); (1%nat, name)]))
    as (digest & -> & Hd & ->).
  { apply Matches_Alt_inv in H3 as [H3|H3].
    - apply Matches_Seq_inv in H3 as (x & digest & c & -> & Hx & H3).
      apply Matches_Lit_inv in Hx as [-> ->].
      apply Matches_Group_inv in H3 as (c' & -> & H3).
      destruct (Matches_nogroups reference.DigestRegexp _ _ _ eq_refl H3) as [-> Hd].
      exists digest. destruct digest; [by apply Matches_nullable in H3|].
      split; [done|]. split; [|done]. right. apply Hd.
    - apply Matches_Empty_inv in H3 as [-> ->]. exists []. auto. }
  exists name, tag, digest. split; [apply Hn|]. do 4 (split; [done|]).
  by destruct tag, digest.
Qed.

(** A name and a tag make a reference. *)
Lemma ReferenceRegexp_intro name tag :
  Matches reference.NameRegexp name [] [] ->
  Matches reference.TagRegexp tag [] [] ->
  exists m, Matches reference.ReferenceRegexp (name ++ ":"%char :: tag) [] m.
Proof.
  intros Hn Ht.
  unfold reference.ReferenceRegexp, reference.expression, reference.optional,
    reference.capture, reference.literal, regexp.Opt. cbn [regexp.Seqs].
  eexists.
  eapply Matches_Seq; [apply Matches_Group, Hn|].
  replace (":"%char :: tag) with ((list_ascii_of_string ":" ++ tag) ++ [])
    by by rewrite app_nil_r.
  eapply Matches_Seq.
  - apply Matches_Alt_l. eapply Matches_Seq; [apply Matches_Lit|].
    apply Matches_Group.
    apply (Matches_nogroups reference.TagRegexp _ _ _ eq_refl Ht).
  - apply Matches_Alt_r. constructor.
Qed.

(** The repository [Parse] makes of a name has that name. *)
Lemma anchoredNameRegexp_inv p m :
  Matches reference.anchoredNameRegexp p [] m ->
  reference.repository_Name
    {| reference.domain := regexp.submatch 1 m; reference.path := regexp.submatch 2 m |}
    = string_of_list_ascii p /\
  regexp.submatch 2 m <> "".
Proof.
  unfold reference.anchoredNameRegexp, reference.expression, reference.optional,
    reference.capture, reference.literal, reference.repeated, regexp.Opt.
  cbn [regexp.Seqs]. intros H.
  apply Matches_Seq_inv in H as (pd & pp & c1 & -> & H1 & H2).
  apply Matches_Group_inv in H2 as (c2 & -> & H2).
  match type of H2 with Matches ?r _ _ _ =>
    destruct (Matches_nogroups r _ _ _ eq_refl H2) as [-> _];
    assert (pp <> []) as Hpp by (intros ->; by apply Matches_nullable in H2)
  end.
  apply Matches_Alt_inv in H1 as [H1|H1].
  - apply Matches_Seq_inv in H1 as (d & x & c & -> & H1 & Hx).
    apply Matches_Lit_inv in Hx as [-> ->].
    apply Matches_Group_inv in H1 as (c' & -> & H1).
    destruct (Matches_nogroups reference.DomainRegexp _ _ _ eq_refl H1) as [-> _].
    assert (d <> []) as Hd by (intros ->; by apply Matches_nullable in H1).
    unfold reference.repository_Name. simpl.
    destruct (String.eqb_spec (string_of_list_ascii d) "") as [Hnil|_].
    { by apply string_of_list_ascii_nil in Hnil. }
    split; [|by intros ?%string_of_list_ascii_nil].
    by rewrite <- (assoc_L (++)), !string_of_list_ascii_app.
  - apply Matches_Empty_inv in H1 as [-> ->].
    unfold reference.repository_Name. simpl.
    split; [done|by intros ?%string_of_list_ascii_nil].
Qed.

Lemma repositoryOf_Name (name : string) :
  name <> "" ->
  reference.repository_Name (repositoryOf name) = name /\
  reference.path (repositoryOf name) <> "".
Proof.
  intros Hne. unfold repositoryOf.
  destruct (regexp.FindStringSubmatch reference.anchoredNameRegexp name) as [nm|] eqn:Hnm.
  - apply FindStringSubmatch_sound, anchoredNameRegexp_inv in Hnm as [Hnm ?].
    by rewrite string_of_list_ascii_of_string in Hnm.
  - done.
Qed.

Lemma digest_Parse_Ok (s d : string) : reference.digest_Parse s = Ok d -> d = s.
Proof.
  unfold reference.digest_Parse. intros H.
  repeat case_match; by simplify_eq.
Qed.

(** A reference that [Parse] returns: the text is the name of its
    repository, then a colon and the tag when there is a tag, then an at
    sign and the digest when there is a digest. *)
Lemma Parse_Ok (s : string) (ref : reference.Reference) :
  reference.Parse s = Ok ref ->
  exists name tag digest,
    Matches reference.NameRegexp (list_ascii_of_string name) [] [] /\
    name <> "" /\
    Nat.ltb reference.NameTotalLengthMax (String.length name) = false /\
    reference.getBestReferenceType (repositoryOf name) tag digest = Some ref /\
    s = name +:+ (if String.eqb tag "" then "" else ":" +:+ tag)
             +:+ (if String.eqb digest "" then "" else "@" +:+ digest).
Proof.
  unfold reference.Parse.
  destruct (regexp.FindStringSubmatch reference.ReferenceRegexp s) as [m|] eqn:Hm; cycle 1.
  { by repeat case_match. }
  apply FindStringSubmatch_sound, ReferenceRegexp_inv in Hm
    as (name & tag & digest & Hn & _ & _ & Hname & Hs & H1 & H2 & H3).
  destruct (Nat.ltb _ _) eqn:Hlen; [done|].
  change (match regexp.FindStringSubmatch reference.anchoredNameRegexp
                  (regexp.submatch 1 m) with
          | Some nameMatch => _ | None => _ end)
    with (repositoryOf (regexp.submatch 1 m)).
  rewrite H1, H2, H3 in *.
  assert (s = string_of_list_ascii name
              +:+ (if String.eqb (string_of_list_ascii tag) "" then ""
                   else ":" +:+ string_of_list_ascii tag)
              +:+ (if String.eqb (string_of_list_ascii digest) "" then ""
                   else "@" +:+ string_of_list_ascii digest)) as Htext.
  { rewrite <- (string_of_list_ascii_of_string s), Hs, !string_of_list_ascii_app.
    by destruct tag, digest. }
  assert (string_of_list_ascii name <> "") as Hne by (by intros ?%string_of_list_ascii_nil).
  intros H.
  exists (string_of_list_ascii name), (string_of_list_ascii tag),
    (string_of_list_ascii digest).
  rewrite list_ascii_of_string_of_list_ascii. do 3 (split; [done|]). split; [|done].
  revert H.
  destruct (String.eqb_spec (string_of_list_ascii digest) "") as [Hd|Hd]; simpl.
  - rewrite Hd. destruct (reference.getBestReferenceType _ _ ""); intros; by simplify_eq.
  - destruct (reference.digest_Parse _) as [d| |] eqn:Hdp; simpl; [|done..].
    apply digest_Parse_Ok in Hdp as ->.
    destruct (reference.getBestReferenceType _ _ _); intros; by simplify_eq.
Qed.

(** The image [parseDockerImage] returns, by the name of the reference. *)
Lemma parseDockerImage_Ok (image : string) (img : dockerImage) :
  parseDockerImage image = Ok img ->
  exists name digest,
    Matches reference.NameRegexp (list_ascii_of_string name) [] [] /\
    name <> "" /\
    Nat.ltb reference.NameTotalLengthMax (String.length name) = false /\
    Tag img <> "" /\
    img = {| Name := name; Tag := Tag img;
             RepositoryName := reference.path (repositoryOf name);
             HostName := reference.domain (repositoryOf name) |} /\
    image = name +:+ ":" +:+ Tag img +:+ (if String.eqb digest "" then "" else "@" +:+ digest).
Proof.
  unfold parseDockerImage.
  destruct (reference.Parse image) as [ref| |] eqn:Hparse; simpl; [|done..].
  apply Parse_Ok in Hparse as (name & tag & digest & Hn & Hne & Hlen & Hbest & ->).
  destruct (repositoryOf_Name name Hne) as [Hname Hpath].
  unfold reference.getBestReferenceType in Hbest. rewrite Hname in Hbest.
  destruct (String.eqb_spec name "") as [|_]; [done|].
  destruct (String.eqb_spec tag "") as [->|Htag].
  { destruct (negb _); by simplify_eq/=. }
  destruct (String.eqb digest "") eqn:Hdig; simplify_eq/=.
  all: intros [= <-]; simpl; exists name, digest; rewrite Hname, Hdig; split_and!; try done.
  all: by rewrite ?append_assoc.
Qed.

(** X2. A parsed image reference writes back to the text it was parsed from:
    the name, a colon and the tag, followed by an at sign and a digest when
    the reference had one.  The name is the repository, after the host and
    a slash when there is a host; tag and repository are not empty. *)
Theorem parseDockerImage_round_trip (image : string) (img : dockerImage) :
  parseDockerImage image = Ok img ->
  (image = Name img +:+ ":" +:+ Tag img \/
   exists digest, digest <> "" /\ image = Name img +:+ ":" +:+ Tag img +:+ "@" +:+ digest) /\
  Name img = (if String.eqb (HostName img) "" then RepositoryName img
              else HostName img +:+ "/" +:+ RepositoryName img) /\
  Tag img <> "" /\ RepositoryName img <> "".
Proof.
  intros H.
  apply parseDockerImage_Ok in H as (name & digest & _ & Hne & _ & Htag & -> & ->).
  destruct (repositoryOf_Name name Hne) as [Hname Hpath]. simpl.
  split_and!; try done.
  destruct (String.eqb_spec digest "") as [->|Hd].
  - left. by rewrite append_nil_r.
  - right. by exists digest.
Qed.

Lemma Parse_no_panic (s : string) (p : panic) : reference.Parse s <> Panic p.
Proof.
  unfold reference.Parse, reference.digest_Parse.
  repeat (case_match; simpl; try done).
Qed.

(** X3. [parseDockerImage] panics only in the assertion that the reference has
    a tag, and only on a reference without tag: a name, or a name, an at
    sign and a digest. *)
Theorem parseDockerImage_panics (image : string) (p : panic) :
  parseDockerImage image = Panic p ->
  p = InterfaceConversion "reference.Tagged" /\
  exists name digest,
    Matches reference.NameRegexp (list_ascii_of_string name) [] [] /\
    image = name +:+ (if String.eqb digest "" then "" else "@" +:+ digest).
Proof.
  unfold parseDockerImage.
  destruct (reference.Parse image) as [ref| |] eqn:Hparse; simpl; [|done|]; cycle 1.
  { by apply Parse_no_panic in Hparse. }
  apply Parse_Ok in Hparse as (name & tag & digest & Hn & Hne & Hlen & Hbest & ->).
  destruct (repositoryOf_Name name Hne) as [Hname Hpath].
  unfold reference.getBestReferenceType in Hbest. rewrite Hname in Hbest.
  destruct (String.eqb_spec name "") as [|_]; [done|].
  destruct (String.eqb_spec tag "") as [->|Htag]; cycle 1.
  { destruct (String.eqb digest ""); by simplify_eq/=. }
  destruct (String.eqb digest "") eqn:Hdig; simplify_eq/=.
  all: intros [= <-]; split; [done|]; exists name, digest; by rewrite Hdig.
Qed.

(** ** Parsing a re-tagged image *)

Lemma split_last_unique {A : Type} (a : A) (x1 y1 x2 y2 : list A) :
  a ∉ y1 -> a ∉ y2 -> x1 ++ a :: y1 = x2 ++ a :: y2 -> x1 = x2 /\ y1 = y2.
Proof.
  intros H1 H2 Heq. apply (f_equal reverse) in Heq.
  rewrite !reverse_app, !reverse_cons, <- !(assoc_L (++)) in Heq. simpl in Heq.
  apply split_first_unique in Heq as [Hy Hx]; [|by rewrite elem_of_reverse..].
  split; by apply (inj reverse).
Qed.

(** A colon in a name is in the domain, which a slash follows. *)
Lemma NameRegexp_colon name a b :
  Matches reference.NameRegexp name [] [] ->
  name = a ++ ":"%char :: b -> "/"%char ∈ b.
Proof.
  unfold reference.NameRegexp, reference.expression, reference.optional,
    reference.literal, regexp.Opt. cbn [regexp.Seqs].
  intros H Heq.
  apply Matches_Seq_inv in H as (pd & pp & c1 & -> & H1 & H2).
  assert (":"%char ∉ pp) as Hpp.
  { intros Hin. apply Matches_accepts in H2. rewrite Forall_forall in H2.
    apply H2 in Hin. vm_compute in Hin. done. }
  clear H2.
  apply Matches_Alt_inv in H1 as [H1|H1].
  - apply Matches_Seq_inv in H1 as (d & x & c & -> & _ & Hx).
    apply Matches_Lit_inv in Hx as [-> _].
    rewrite <- (assoc_L (++)) in Heq. simpl in Heq.
    apply app_eq_app in Heq as [l [[-> Heq]|[-> Heq]]].
    + destruct l as [|e l]; simplify_eq/=.
      apply elem_of_app. right. by left.
    + destruct l as [|e l]; simplify_eq/=.
      exfalso. apply Hpp. apply elem_of_app. right. by left.
  - apply Matches_Empty_inv in H1 as [-> _]. simpl in Heq. subst pp.
    exfalso. apply Hpp. apply elem_of_app. right. by left.
Qed.

Lemma Matches_rejects r p c c' (a : ascii) :
  Matches r p c c' -> accepts r a = false -> a ∉ p.
Proof.
  intros H Ha Hin. apply Matches_accepts in H. rewrite Forall_forall in H.
  apply H in Hin. congruence.
Qed.

(** The text made of a name, a colon and a tag parses as that name with
    that tag. *)
Lemma Parse_retagged (name tag : string) :
  Matches reference.NameRegexp (list_ascii_of_string name) [] [] ->
  Nat.ltb reference.NameTotalLengthMax (String.length name) = false ->
  regexp.MatchString reference.TagRegexp tag = true ->
  reference.Parse (name +:+ ":" +:+ tag)
    = Ok (reference.taggedReference (repositoryOf name) tag).
Proof.
  intros Hn Hlen Ht.
  apply MatchString_spec in Ht as [m0 Ht].
  destruct (Matches_nogroups reference.TagRegexp _ _ _ eq_refl Ht) as [_ Ht'].
  specialize (Ht' []). clear m0 Ht.
  assert (name <> "") as Hne.
  { intros ->. by apply Matches_nullable in Hn. }
  assert (tag <> "") as Htne.
  { intros ->. by apply Matches_nullable in Ht'. }
  destruct (ReferenceRegexp_intro _ _ Hn Ht') as [m Hm].
  assert (list_ascii_of_string (name +:+ ":" +:+ tag)
          = list_ascii_of_string name ++ ":"%char :: list_ascii_of_string tag) as Htext.
  { by rewrite !list_ascii_of_string_app. }
  rewrite <- Htext in Hm. apply FindStringSubmatch_complete in Hm.
  unfold reference.Parse.
  destruct (regexp.FindStringSubmatch reference.ReferenceRegexp _) as [m1|] eqn:Hfind;
    [clear Hm|done].
  apply FindStringSubmatch_sound, ReferenceRegexp_inv in Hfind
    as (name1 & tag1 & digest1 & Hn1 & Ht1 & _ & _ & Hs & H1 & H2 & H3).
  rewrite Htext in Hs.
  assert ("@"%char ∉ list_ascii_of_string name ++ ":"%char :: list_ascii_of_string tag)
    as Hat.
  { rewrite elem_of_app, elem_of_cons. intros [Hin|[?|Hin]]; [|done|].
    - by apply (Matches_rejects _ _ _ _ "@"%char Hn) in Hin.
    - by apply (Matches_rejects _ _ _ _ "@"%char Ht') in Hin. }
  assert (digest1 = []) as ->.
  { destruct digest1 as [|d digest1]; [done|]. exfalso. apply Hat. rewrite Hs.
    apply elem_of_app. right. apply elem_of_app. right. by left. }
  rewrite app_nil_r in Hs.
  assert (name1 = list_ascii_of_string name /\ tag1 = list_ascii_of_string tag)
    as [-> ->].
  { destruct Ht1 as [->|Ht1].
    - rewrite app_nil_r in Hs. symmetry in Hs. exfalso.
      apply (NameRegexp_colon _ _ _ Hn1) in Hs.
      by apply (Matches_rejects _ _ _ _ "/"%char Ht') in Hs.
    - destruct tag1 as [|t tag1]; [by apply Matches_nullable in Ht1|].
      apply split_last_unique in Hs as [-> ->]; [done|..].
      + by apply (Matches_rejects _ _ _ _ ":"%char Ht').
      + by apply (Matches_rejects _ _ _ _ ":"%char Ht1). }
  change (match regexp.FindStringSubmatch reference.anchoredNameRegexp
                  (regexp.submatch 1 m1) with
          | Some nameMatch => _ | None => _ end)
    with (repositoryOf (regexp.submatch 1 m1)).
  rewrite H1, H2, H3, !string_of_list_ascii_of_string, Hlen. simpl.
  unfold reference.getBestReferenceType.
  destruct (repositoryOf_Name name Hne) as [-> _].
  destruct (String.eqb_spec name "") as [|_]; [done|].
  by destruct (String.eqb_spec tag "") as [|_].
Qed.

(** X4. The image reference that [createNewTaskDefinition] writes for a parsed
    image, its name, a colon and the new tag, parses again when the new
    tag is a tag of the reference grammar: to the same name, repository
    and host, with the new tag.  A digest of the parsed image is gone. *)
Theorem parseDockerImage_retagged (image : string) (img : dockerImage) (tag : string) :
  parseDockerImage image = Ok img ->
  regexp.MatchString reference.TagRegexp tag = true ->
  parseDockerImage (Name img +:+ ":" +:+ tag) =
    Ok {| Name := Name img; Tag := tag;
          RepositoryName := RepositoryName img; HostName := HostName img |}.
Proof.
  intros H Ht.
  apply parseDockerImage_Ok in H as (name & digest & Hn & Hne & Hlen & _ & -> & _).
  simpl. unfold parseDockerImage. rewrite (Parse_retagged _ _ Hn Hlen Ht). simpl.
  by destruct (repositoryOf_Name name Hne) as [-> _].
Qed.

(** ** The repository of a parsed image *)

(** The path of a name: components separated by slashes. *)
Lemma anchoredNameRegexp_path p m :
  Matches reference.anchoredNameRegexp p [] m ->
  exists path,
    regexp.submatch 2 m = string_of_list_ascii path /\
    Matches (regexp.Seq reference.nameComponentRegexp
               (regexp.Opt (regexp.Plus
                  (regexp.Seq (regexp.Lit "/") reference.nameComponentRegexp))))
            path [] [].
Proof.
  unfold reference.anchoredNameRegexp, reference.expression, reference.optional,
    reference.capture, reference.literal, reference.repeated.
  cbn [regexp.Seqs]. intros H.
  apply Matches_Seq_inv in H as (pd & pp & c1 & -> & H1 & H2).
  apply Matches_Group_inv in H2 as (c2 & -> & H2).
  match type of H2 with Matches ?r _ _ _ =>
    destruct (Matches_nogroups r _ _ _ eq_refl H2) as [_ Hp]
  end.
  exists pp. split; [done|]. apply Hp.
Qed.

(** A name splits into its domain, when it has one, and its path. *)
Lemma anchoredNameRegexp_of_Name p :
  Matches reference.NameRegexp p [] [] ->
  exists m, Matches reference.anchoredNameRegexp p [] m.
Proof.
  unfold reference.NameRegexp, reference.anchoredNameRegexp, reference.expression,
    reference.optional, reference.capture, reference.literal, reference.repeated,
    regexp.Opt.
  cbn [regexp.Seqs]. intros H.
  apply Matches_Seq_inv in H as (pd & pp & c1 & -> & H1 & H2).
  match type of H2 with Matches ?r _ _ _ =>
    destruct (Matches_nogroups r _ _ _ eq_refl H2) as [_ Hp]
  end.
  apply Matches_Alt_inv in H1 as [H1|H1].
  - apply Matches_Seq_inv in H1 as (d & x & c & -> & H1 & Hx).
    apply Matches_Lit_inv in Hx as [-> _].
    destruct (Matches_nogroups reference.DomainRegexp _ _ _ eq_refl H1) as [_ Hd].
    eexists. eapply Matches_Seq.
    + apply Matches_Alt_l. eapply Matches_Seq; [apply Matches_Group, Hd|apply Matches_Lit].
    + apply Matches_Group, Hp.
  - apply Matches_Empty_inv in H1 as [-> _].
    eexists. eapply Matches_Seq.
    + apply Matches_Alt_r. constructor.
    + apply Matches_Group, Hp.
Qed.

(** A path without slash is one component, which is what the repository of
    an image option is. *)
Lemma flat_path_component path :
  Matches (regexp.Seq reference.nameComponentRegexp
             (regexp.Opt (regexp.Plus
                (regexp.Seq (regexp.Lit "/") reference.nameComponentRegexp))))
          path [] [] ->
  "/"%char ∉ path ->
  Matches optionRepositoryRegexp path [] [].
Proof.
  intros H Hslash.
  apply Matches_Seq_inv in H as (a & b & c1 & -> & Ha & Hb).
  assert (b = []) as ->.
  { apply Matches_Alt_inv in Hb as [Hb|Hb]; [|by apply Matches_Empty_inv in Hb as [-> _]].
    unfold regexp.Plus in Hb.
    apply Matches_Seq_inv in Hb as (x & y & c2 & -> & Hx & _).
    apply Matches_Seq_inv in Hx as (s & z & c3 & -> & Hs & _).
    apply Matches_Lit_inv in Hs as [-> _].
    exfalso. apply Hslash. apply elem_of_app. right. by left. }
  rewrite app_nil_r.
  destruct (Matches_nogroups reference.nameComponentRegexp _ _ _ eq_refl Ha) as [_ Ha'].
  specialize (Ha' []). clear Ha Hb c1.
  unfold reference.nameComponentRegexp, reference.expression, reference.optional,
    reference.repeated, regexp.Opt in Ha'. cbn [regexp.Seqs] in Ha'.
  apply Matches_Seq_inv in Ha' as (a1 & a2 & c1 & -> & H1 & H2).
  unfold optionRepositoryRegexp. eapply Matches_Seq; [exact H1|].
  apply Matches_Alt_inv in H2 as [H2|H2]; cycle 1.
  { apply Matches_Empty_inv in H2 as [-> ->]. constructor. }
  unfold regexp.Plus in H2.
  apply Matches_Seq_inv in H2 as (x & y & c2 & -> & Hx & Hy).
  apply Matches_Star_cons with c2; [|exact Hx|exact Hy].
  intros ->. by apply Matches_nullable in Hx.
Qed.

(** The repository of a parsed image is components separated by slashes. *)
Lemma parseDockerImage_path (image : string) (img : dockerImage) :
  parseDockerImage image = Ok img ->
  Matches (regexp.Seq reference.nameComponentRegexp
             (regexp.Opt (regexp.Plus
                (regexp.Seq (regexp.Lit "/") reference.nameComponentRegexp))))
          (list_ascii_of_string (RepositoryName img)) [] [].
Proof.
  intros H.
  apply parseDockerImage_Ok in H as (name & digest & Hn & Hne & Hlen & _ & -> & _).
  simpl. unfold repositoryOf.
  destruct (anchoredNameRegexp_of_Name _ Hn) as [m Hm].
  apply FindStringSubmatch_complete in Hm.
  destruct (regexp.FindStringSubmatch reference.anchoredNameRegexp name) as [nm|] eqn:Hnm;
    [|done].
  apply FindStringSubmatch_sound, anchoredNameRegexp_path in Hnm as (path & Hpath & Hp).
  simpl. by rewrite Hpath, list_ascii_of_string_of_list_ascii.
Qed.

(** ** The transform, again *)

Lemma createNewTaskDefinition_loop_failure id pre c post :
  forall containers,
    Forall (fun c => exists img, imageOf c = Ok img) pre ->
    failed (imageOf c) ->
    response (createNewTaskDefinition_loop id (pre ++ c :: post) containers)
      = response (imageOf c).
Proof.
  induction pre as [|c0 pre IH]; intros containers Hpre Hc; simpl app.
  - rewrite createNewTaskDefinition_loop_cons. by destruct (imageOf c).
  - inversion_clear Hpre as [|? ? [img Hc0] Hrest].
    rewrite createNewTaskDefinition_loop_cons, Hc0. simpl.
    destruct (isECRHosted img); by apply IH.
Qed.

(** X5. [createNewTaskDefinition] returns what the first container whose image
    does not parse makes of it, the error of the parser or a panic,
    whatever the containers after it are. *)
Theorem createNewTaskDefinition_first_failure (id : string) (td : ecs.TaskDefinition)
    pre c post :
  ecs.ContainerDefinitions td = pre ++ c :: post ->
  Forall (fun c => exists img, imageOf c = Ok img) pre ->
  failed (imageOf c) ->
  response (createNewTaskDefinition id (Some td)) = response (imageOf c).
Proof.
  intros Hcds Hpre Hc. unfold createNewTaskDefinition. simpl. rewrite Hcds.
  rewrite <- (createNewTaskDefinition_loop_failure id pre c post [] Hpre Hc).
  by destruct (createNewTaskDefinition_loop id (pre ++ c :: post) []).
Qed.

Lemma imageOf_retagged id c img :
  regexp.MatchString reference.TagRegexp id = true ->
  imageOf c = Ok img ->
  imageOf (retagged id c) =
    Ok {| Name := Name img; Tag := id;
          RepositoryName := RepositoryName img; HostName := HostName img |}.
Proof.
  intros Hid Hc. unfold retagged. rewrite Hc.
  apply imageOf_Ok in Hc as (image & _ & Hp).
  unfold imageOf. simpl. by apply parseDockerImage_retagged with image.
Qed.

Lemma retagged_retagged id id' c :
  regexp.MatchString reference.TagRegexp id = true ->
  inScope c = true ->
  inScope (retagged id c) = true /\
  retagged id' (retagged id c) = retagged id' c.
Proof.
  intros Hid Hs. unfold inScope in Hs.
  destruct (imageOf c) as [img| |] eqn:Hc; [|done..].
  pose proof (imageOf_retagged id c img Hid Hc) as Hr.
  unfold inScope. unfold retagged at 2 4. rewrite Hr, Hc. split; [done|].
  unfold retagged. by rewrite Hc.
Qed.

Lemma filter_retagged id id' cs :
  regexp.MatchString reference.TagRegexp id = true ->
  Forall (fun c => inScope c = true) cs ->
  map (retagged id') (List.filter inScope (map (retagged id) cs)) = map (retagged id') cs /\
  Forall (fun c => exists img, imageOf c = Ok img) (map (retagged id) cs).
Proof.
  intros Hid. induction 1 as [|c cs Hc _ [IH1 IH2]]; [by split|].
  destruct (retagged_retagged id id' c Hid Hc) as [H1 H2].
  cbn [map List.filter]. rewrite H1. cbn [map]. rewrite H2, IH1. split; [done|].
  constructor; [|done].
  unfold inScope in H1. destruct (imageOf (retagged id c)); [by eexists|done..].
Qed.

(** X6. Transforming a transformed task definition is transforming the
    baseline: when the id of the first transform is a tag of the reference
    grammar, every container it kept is kept again, and only the tag of its
    image changes. *)
Theorem createNewTaskDefinition_again (id id' : string) (td newTaskDef : ecs.TaskDefinition) :
  createNewTaskDefinition id (Some td) = Ok newTaskDef ->
  regexp.MatchString reference.TagRegexp id = true ->
  createNewTaskDefinition id' (Some newTaskDef) = createNewTaskDefinition id' (Some td).
Proof.
  intros Hnew Hid.
  apply createNewTaskDefinition_Ok in Hnew as (td0 & [= <-] & Hall & ->).
  rewrite (createNewTaskDefinition_total id' td Hall).
  assert (Forall (fun c => inScope c = true)
            (List.filter inScope (ecs.ContainerDefinitions td))) as Hin.
  { apply Forall_forall. intros c Hc. by apply list_elem_of_In, filter_In in Hc as [_ ?]. }
  destruct (filter_retagged id id' _ Hid Hin) as [Heq Hall'].
  rewrite createNewTaskDefinition_total; [|done].
  unfold ecs.set_ContainerDefinitions. simpl. by rewrite Heq.
Qed.

(** ** Image options and repositories *)

Lemma imageOptions_Get_loop_Some vs repoName o :
  imageOptions_Get_loop vs repoName = Some o -> o ∈ vs /\ optRepositoryName o = repoName.
Proof.
  induction vs as [|v vs IH]; simpl; [done|].
  destruct (String.eqb_spec (optRepositoryName v) repoName) as [Heq|_].
  - intros [= <-]. split; [by left|done].
  - intros [Hin ?]%IH. split; [by right|done].
Qed.

Lemma from_flags_repository t :
  from_flags t ->
  Forall (fun o => "/"%char ∉ list_ascii_of_string (optRepositoryName o)) (Value t).
Proof.
  induction 1 as [|t v t' _ IH Hset]; [constructor|].
  unfold imageOptions_Set in Hset.
  destruct (regexp.FindStringSubmatch imageOptionRegexp v) as [m|] eqn:Hm; [|done].
  injection Hset as <-. simpl. apply Forall_app_2; [done|].
  constructor; [|constructor]. simpl.
  apply FindStringSubmatch_sound, imageOptionRegexp_inv in Hm
    as (repo & tag & _ & -> & Hr & _).
  simpl. rewrite list_ascii_of_string_of_list_ascii.
  by apply (Matches_rejects _ _ _ _ "/"%char Hr).
Qed.

(** X23. No image option can be given for a repository whose name has a slash:
    [Set] accepts no slash before the colon, so [Get] answers nil for such a
    repository, whatever options were set. *)
Theorem nested_repository_has_no_option (t : imageOptions) (repoName : string) :
  from_flags t ->
  "/"%char ∈ list_ascii_of_string repoName ->
  imageOptions_Get t repoName = None.
Proof.
  intros Ht Hslash.
  destruct (imageOptions_Get t repoName) as [o|] eqn:Hget; [|done].
  apply imageOptions_Get_loop_Some in Hget as [Hin <-].
  apply from_flags_repository in Ht. rewrite Forall_forall in Ht.
  by apply Ht in Hin.
Qed.

(** X24. For the repository of a parsed image whose name has no slash an option
    can be given: [Set] accepts the repository, a colon and any tag of the
    tag pattern, and [Get] then answers an option for the repository. *)
Theorem flat_repository_has_option (image : string) (img : dockerImage)
    (t : imageOptions) (tag : string) :
  parseDockerImage image = Ok img ->
  "/"%char ∉ list_ascii_of_string (RepositoryName img) ->
  regexp.MatchString optionTagRegexp tag = true ->
  exists t',
    imageOptions_Set t (RepositoryName img +:+ ":" +:+ tag) = (None, t') /\
    is_Some (imageOptions_Get t' (RepositoryName img)).
Proof.
  intros Himg Hslash Htag.
  apply parseDockerImage_path in Himg.
  apply flat_path_component in Himg; [|done].
  assert (regexp.MatchString optionRepositoryRegexp (RepositoryName img) = true) as Hr.
  { apply MatchString_spec. by eexists. }
  unfold imageOptions_Set.
  rewrite (FindStringSubmatch_imageOption _ _ Hr Htag). simpl.
  rewrite !string_of_list_ascii_of_string.
  eexists. split; [reflexivity|].
  unfold imageOptions_Get. simpl.
  induction (Value t) as [|o l IH]; simpl.
  - rewrite String.eqb_refl. by eexists.
  - destruct (String.eqb (optRepositoryName o) (RepositoryName img)); [by eexists|done].
Qed.

(** ** The objects of the new task definition *)

Lemma new_container_extends h0 h h1 h' v s :
  Mem.extends h0 h -> Mem.extends h1 h' -> new_container h h1 v s -> new_container h0 h' v s.
Proof.
  intros (Hs0 & Hc0 & _) (Hs1 & Hc1 & _) (Hv & Hs & o & Ho & Hi & [x Hx]).
  split; [by eapply lookup_weaken_None|]. split; [by eapply lookup_weaken_None|].
  exists o. split; [by eapply lookup_weaken|]. split; [done|].
  exists x. by eapply lookup_weaken.
Qed.

(** One round of the loop appends nothing, or a new container with a new
    image string. *)
Lemma createNewTaskDefinition_body_new id vp acc h acc' h' :
  Mem.createNewTaskDefinition_body id vp acc h = (Ok acc', h') ->
  acc' = acc \/ exists v s, acc' = acc ++ [v] /\ new_container h h' v s.
Proof.
  unfold Mem.createNewTaskDefinition_body, Mem.sbind, Mem.load_container, Mem.alloc_container,
    Mem.load_string, Mem.slift, Mem.alloc_string, Mem.update_container, Mem.sret, deref.
  destruct (Mem.containers h !! vp) as [copy|]; simpl; [|done].
  rewrite lookup_insert_eq. simpl.
  destruct (Mem.Image copy ≫= _) as [image|]; simpl; [|done].
  destruct (parseDockerImage image) as [img| |]; simpl; [|done..].
  destruct (isECRHosted img); simpl; [|intros [= <- <-]; by left].
  rewrite lookup_insert_eq. intros [= <- <-]. right.
  exists (fresh (dom (Mem.containers h))), (fresh (dom (Mem.strings h))).
  split; [done|]. split; [apply MemFacts.fresh_None|]. split; [apply MemFacts.fresh_None|].
  simpl. eexists. rewrite lookup_insert_eq. split; [done|]. split; [done|].
  rewrite lookup_insert_eq. by eexists.
Qed.

Lemma createNewTaskDefinition_loop_new id cds :
  forall acc h acc' h',
    Mem.createNewTaskDefinition_loop id cds acc h = (Ok acc', h') ->
    exists new images,
      acc' = acc ++ new /\ NoDup new /\ NoDup images /\
      Forall2 (new_container h h') new images.
Proof.
  induction cds as [|vp cds IH]; intros acc h acc' h'; simpl.
  - intros [= <- <-]. exists [], []. rewrite app_nil_r.
    split; [done|]. split; [constructor|]. split; constructor.
  - unfold Mem.sbind.
    destruct (Mem.createNewTaskDefinition_body id vp acc h) as [[acc1|e|p] h1] eqn:Hb;
      [|done..].
    intros Hloop.
    pose proof (MemFacts.createNewTaskDefinition_body_extends _ _ _ _ _ _ Hb) as Hext.
    pose proof (MemFacts.createNewTaskDefinition_loop_extends _ _ _ _ _ _ Hloop) as Hext1.
    apply IH in Hloop as (new & images & -> & Hnew & Himages & Hall).
    assert (Forall2 (new_container h h') new images) as Hall'.
    { eapply Forall2_impl; [exact Hall|]. intros v s.
      apply new_container_extends; [done|apply MemFacts.extends_refl]. }
    apply createNewTaskDefinition_body_new in Hb as [->|(v & s & -> & Hv)].
    { by exists new, images. }
    exists (v :: new), (s :: images). rewrite <- (assoc_L (++)). split; [done|].
    destruct Hv as (Hv & Hs & o & Ho & Hi & [x Hx]).
    split; [|split].
    + constructor; [|done]. intros Hin.
      apply list_elem_of_lookup_1 in Hin as [i Hi'].
      destruct (Forall2_lookup_l _ _ _ _ _ Hall Hi') as (s' & _ & Hv' & _). congruence.
    + constructor; [|done]. intros Hin.
      apply list_elem_of_lookup_1 in Hin as [i Hi'].
      destruct (Forall2_lookup_r _ _ _ _ _ Hall Hi') as (v' & _ & _ & Hs' & _). congruence.
    + constructor; [|done].
      apply (new_container_extends h h h1 h'); [apply MemFacts.extends_refl|done|].
      split; [done|]. split; [done|]. exists o. split; [done|]. split; [done|]. by exists x.
Qed.

(** X8. The task definition that [createNewTaskDefinition] returns shares no
    container and no image string with the store it was given: the task
    definition, each of its containers and the image string of each are
    new objects, and no two of its containers, and no two of their image
    strings, are the same object. *)
Theorem createNewTaskDefinition_allocates (id : string) (p : Mem.loc) (h : Mem.Store)
    (q : Mem.loc) (h' : Mem.Store) :
  Mem.createNewTaskDefinition id (Some p) h = (Ok q, h') ->
  Mem.taskDefs h !! q = None /\
  exists t images,
    Mem.taskDefs h' !! q = Some t /\
    NoDup (Mem.ContainerDefinitions t) /\ NoDup images /\
    Forall2 (new_container h h') (Mem.ContainerDefinitions t) images.
Proof.
  unfold Mem.createNewTaskDefinition, Mem.sbind, Mem.load_taskDef, Mem.alloc_taskDef,
    Mem.update_taskDef, Mem.sret, deref. simpl.
  destruct (Mem.taskDefs h !! p) as [copy|] eqn:Hload; simpl; [|done].
  rewrite lookup_insert_ne; cycle 1.
  { intros <-. by rewrite MemFacts.fresh_None in Hload. }
  rewrite Hload. simpl.
  destruct (Mem.createNewTaskDefinition_loop id (Mem.ContainerDefinitions copy) [] _)
    as [[cs|e|p0] h1] eqn:Hloop; [|done..].
  pose proof (MemFacts.createNewTaskDefinition_loop_extends _ _ _ _ _ _ Hloop)
    as (_ & _ & Ht).
  apply createNewTaskDefinition_loop_new in Hloop as (new & images & -> & Hnew & Himg & Hall).
  simpl in *.
  assert (Mem.taskDefs h1 !! fresh (dom (Mem.taskDefs h)) = Some copy) as ->.
  { eapply lookup_weaken; [|exact Ht]. apply lookup_insert_eq. }
  intros [= <- <-]. split; [apply MemFacts.fresh_None|].
  eexists _, images. simpl. rewrite lookup_insert_eq. split; [done|]. simpl.
  split; [done|]. split; [done|].
  eapply Forall2_impl; [exact Hall|]. intros v s (Hv & Hs & o & Ho & Hi & Hx).
  split; [done|]. split; [done|]. by exists o.
Qed.

(** ** The further properties on the stub platform *)

Module Cases.
Import Stub.

Lemma parseDockerImage_round_trip_witness :
  parseDockerImage (ecrHost +:+ "/app:v1") =
    Ok {| Name := ecrHost +:+ "/app"; Tag := "v1";
          RepositoryName := "app"; HostName := ecrHost |} /\
  ecrHost +:+ "/app" = (if String.eqb ecrHost "" then "app" else ecrHost +:+ "/" +:+ "app").
Proof.
  assert (parseDockerImage (ecrHost +:+ "/app:v1") =
            Ok {| Name := ecrHost +:+ "/app"; Tag := "v1";
                  RepositoryName := "app"; HostName := ecrHost |}) as H.
  { vm_compute. reflexivity. }
  split; [exact H|].
  exact (proj1 (proj2 (parseDockerImage_round_trip _ _ H))).
Defined.

Lemma parseDockerImage_panics_witness :
  parseDockerImage "nginx" = Panic (InterfaceConversion "reference.Tagged") /\
  InterfaceConversion "reference.Tagged" = InterfaceConversion "reference.Tagged".
Proof.
  assert (parseDockerImage "nginx" = Panic (InterfaceConversion "reference.Tagged")) as H.
  { vm_compute. reflexivity. }
  split; [exact H|].
  exact (proj1 (parseDockerImage_panics _ _ H)).
Defined.

Lemma parseDockerImage_retagged_witness :
  parseDockerImage (ecrHost +:+ "/app:v1") =
    Ok {| Name := ecrHost +:+ "/app"; Tag := "v1";
          RepositoryName := "app"; HostName := ecrHost |} /\
  regexp.MatchString reference.TagRegexp uniqueID = true /\
  parseDockerImage ((ecrHost +:+ "/app") +:+ ":" +:+ uniqueID) =
    Ok {| Name := ecrHost +:+ "/app"; Tag := uniqueID;
          RepositoryName := "app"; HostName := ecrHost |}.
Proof.
  assert (parseDockerImage (ecrHost +:+ "/app:v1") =
            Ok {| Name := ecrHost +:+ "/app"; Tag := "v1";
                  RepositoryName := "app"; HostName := ecrHost |}) as H.
  { vm_compute. reflexivity. }
  assert (regexp.MatchString reference.TagRegexp uniqueID = true) as Ht.
  { vm_compute. reflexivity. }
  split; [exact H|]. split; [exact Ht|].
  exact (parseDockerImage_retagged _ _ _ H Ht).
Defined.

Lemma createNewTaskDefinition_first_failure_witness :
  failed (imageOf Outage.unparsable) /\
  response (createNewTaskDefinition uniqueID
              (Some (taskDefinition [web; Outage.unparsable; sidecar])))
    = response (imageOf Outage.unparsable).
Proof.
  assert (Forall (fun c => exists img, imageOf c = Ok img) [web]) as Hpre.
  { repeat constructor; eexists; vm_compute; reflexivity. }
  assert (failed (imageOf Outage.unparsable)) as Hc.
  { vm_compute. exact I. }
  split; [exact Hc|].
  exact (createNewTaskDefinition_first_failure uniqueID
           (taskDefinition [web; Outage.unparsable; sidecar])
           [web] Outage.unparsable [sidecar] eq_refl Hpre Hc).
Defined.

Lemma createNewTaskDefinition_again_witness :
  createNewTaskDefinition uniqueID (Some (taskDefinition [web; sidecar]))
    = Ok (taskDefinition [web_retagged]) /\
  regexp.MatchString reference.TagRegexp uniqueID = true /\
  createNewTaskDefinition "01BX5ZZKBKACTAV9WEVGEMMVRZ" (Some (taskDefinition [web_retagged]))
    = createNewTaskDefinition "01BX5ZZKBKACTAV9WEVGEMMVRZ"
        (Some (taskDefinition [web; sidecar])).
Proof.
  assert (createNewTaskDefinition uniqueID (Some (taskDefinition [web; sidecar]))
            = Ok (taskDefinition [web_retagged])) as H.
  { vm_compute. reflexivity. }
  assert (regexp.MatchString reference.TagRegexp uniqueID = true) as Ht.
  { vm_compute. reflexivity. }
  split; [exact H|]. split; [exact Ht|].
  exact (createNewTaskDefinition_again uniqueID _ _ _ H Ht).
Defined.

Lemma createNewTaskDefinition_refines_witness :
  Mem.read_taskDef store 1%positive = Some (taskDefinition [web; sidecar]) /\
  Mem.agree Mem.read_taskDef
    (Mem.createNewTaskDefinition uniqueID (Some 1%positive) store)
    (createNewTaskDefinition uniqueID (Some (taskDefinition [web; sidecar]))).
Proof.
  assert (Mem.read_taskDef store 1%positive = Some (taskDefinition [web; sidecar])) as H.
  { vm_compute. reflexivity. }
  split; [exact H|].
  exact (MemFacts.createNewTaskDefinition_refines uniqueID _ _ _ H).
Defined.

Lemma createNewTaskDefinition_allocates_witness :
  (Mem.createNewTaskDefinition uniqueID (Some 1%positive) store).1 = Ok 2%positive /\
  Mem.taskDefs store !! 2%positive = None.
Proof.
  assert ((Mem.createNewTaskDefinition uniqueID (Some 1%positive) store).1 = Ok 2%positive)
    as H.
  { vm_compute. reflexivity. }
  split; [exact H|].
  destruct (Mem.createNewTaskDefinition uniqueID (Some 1%positive) store) as [r h'] eqn:E.
  simpl in H. rewrite H in E.
  exact (proj1 (createNewTaskDefinition_allocates _ _ _ _ _ E)).
Defined.

Lemma imageOptions_Set_accepted_witness :
  imageOptions_Set {| Value := [] |} "app:v1" = (None, {| Value := [app_v1] |}) /\
  exists opt, [app_v1] = [] ++ [opt] /\ "app:v1" = optRepositoryName opt +:+ ":" +:+ optTag opt.
Proof.
  assert (imageOptions_Set {| Value := [] |} "app:v1" = (None, {| Value := [app_v1] |}))
    as H.
  { vm_compute. reflexivity. }
  split; [exact H|].
  destruct (imageOptions_Set_accepted _ _ _ H) as (opt & H1 & H2 & _).
  exists opt. split; assumption.
Defined.

Lemma imageOptions_Set_valid_witness :
  regexp.MatchString optionRepositoryRegexp "app" = true /\
  regexp.MatchString optionTagRegexp "v1" = true /\
  imageOptions_Set {| Value := [] |} ("app" +:+ ":" +:+ "v1") =
    (None, {| Value := [] ++ [app_v1] |}).
Proof.
  assert (regexp.MatchString optionRepositoryRegexp "app" = true) as Hr.
  { vm_compute. reflexivity. }
  assert (regexp.MatchString optionTagRegexp "v1" = true) as Ht.
  { vm_compute. reflexivity. }
  split; [exact Hr|]. split; [exact Ht|].
  exact (imageOptions_Set_valid {| Value := [] |} "app" "v1" Hr Ht).
Defined.

Lemma imageOptions_Set_rejected_witness :
  imageOptions_Set {| Value := [app_v1] |} "app" =
    (Some (errorString "invalid format app"), {| Value := [app_v1] |}) /\
  errorString "invalid format app" = errorString ("invalid format " +:+ "app").
Proof.
  assert (imageOptions_Set {| Value := [app_v1] |} "app" =
            (Some (errorString "invalid format app"), {| Value := [app_v1] |})) as H.
  { vm_compute. reflexivity. }
  split; [exact H|].
  exact (proj1 (proj2 (imageOptions_Set_rejected _ _ _ _ H))).
Defined.

Lemma imageOptions_Get_after_Set_witness :
  imageOptions_Set {| Value := [app_v1] |} "app:v2" =
    (None, {| Value := [app_v1; app_v2] |}) /\
  exists opt,
    [app_v1; app_v2] = [app_v1] ++ [opt] /\
    imageOptions_Get {| Value := [app_v1; app_v2] |} "app" =
      match imageOptions_Get {| Value := [app_v1] |} "app" with
      | Some o => Some o
      | None => if String.eqb (optRepositoryName opt) "app" then Some opt else None
      end.
Proof.
  assert (imageOptions_Set {| Value := [app_v1] |} "app:v2" =
            (None, {| Value := [app_v1; app_v2] |})) as H.
  { vm_compute. reflexivity. }
  split; [exact H|].
  exact (imageOptions_Get_after_Set _ _ _ "app" H).
Defined.

Lemma execute_fail_fast_witness :
  events Outage.run_stalled =
    take 12 (events Outage.run_stalled) ++
    EvWaitUpdateService "prod" "app" (Err (errorString "timeout"))
    :: drop 13 (events Outage.run_stalled) /\
  drop 13 (events Outage.run_stalled) = [] /\
  outcome Outage.run_stalled = Err (errorString "timeout").
Proof.
  assert (events Outage.run_stalled =
    take 12 (events Outage.run_stalled) ++
    EvWaitUpdateService "prod" "app" (Err (errorString "timeout"))
    :: drop 13 (events Outage.run_stalled)) as Heq.
  { vm_compute. reflexivity. }
  split; [exact Heq|].
  apply (execute_fail_fast (command [app_v1]) Outage.stalled _ _ _ Heq).
  simpl. discriminate.
Defined.

Lemma execute_success_trace_witness :
  outcome run_web = Ok tt /\
  exists svc, (length (ecs.Deployments svc) <= 1)%nat.
Proof.
  assert (outcome run_web = Ok tt) as H.
  { vm_compute. reflexivity. }
  split; [exact H|].
  destruct (execute_success_trace (command [app_v1]) (world [web] 1 images_app) H)
    as (svc & ? & ? & ? & ? & ? & ? & ? & ? & ? & ? & Hlen & _).
  exists svc. exact Hlen.
Defined.

Lemma update_after_register_witness :
  events run_web =
    take 10 (events run_web) ++
    EvUpdateService (Some (service (world [web] 1 images_app)))
      (Some (with_metadata (taskDefinition [web_retagged]) ["EC2"] [] (Some 8%Z)
               (Some "ACTIVE") None))
      (Ok tt)
    :: drop 11 (events run_web) /\
  Forall (fun e => raised e = Ok tt) (take 10 (events run_web)).
Proof.
  assert (events run_web =
    take 10 (events run_web) ++
    EvUpdateService (Some (service (world [web] 1 images_app)))
      (Some (with_metadata (taskDefinition [web_retagged]) ["EC2"] [] (Some 8%Z)
               (Some "ACTIVE") None))
      (Ok tt)
    :: drop 11 (events run_web)) as Heq.
  { vm_compute. reflexivity. }
  split; [exact Heq|].
  exact (proj1 (update_after_register (command [app_v1]) (world [web] 1 images_app)
                  _ _ _ _ _ Heq)).
Defined.

Lemma registered_nil_panics_witness :
  events Outage.run_no_revision =
    take 7 (events Outage.run_no_revision) ++
    EvRegisterTaskDefinition
      (registerTaskDefinition_params (taskDefinition [web_retagged]))
      (Ok {| ecs.outTaskDefinition :=
               Some (with_metadata (taskDefinition [web_retagged]) ["EC2"] [] (Some 8%Z)
                       (Some "ACTIVE") None) |})
    :: drop 8 (events Outage.run_no_revision) /\
  ecs.Revision Outage.unnumbered = None /\
  outcome Outage.run_no_revision = Panic NilDereference.
Proof.
  assert (events Outage.run_no_revision =
    take 7 (events Outage.run_no_revision) ++
    EvRegisterTaskDefinition
      (registerTaskDefinition_params (taskDefinition [web_retagged]))
      (Ok {| ecs.outTaskDefinition :=
               Some (with_metadata (taskDefinition [web_retagged]) ["EC2"] [] (Some 8%Z)
                       (Some "ACTIVE") None) |})
    :: drop 8 (events Outage.run_no_revision)) as Heq.
  { vm_compute. reflexivity. }
  assert (EvDescribeTaskDefinition baselineArn (Ok (Some Outage.unnumbered))
            ∈ take 7 (events Outage.run_no_revision)) as Hin.
  { apply (list_elem_of_lookup_2 _ 4). vm_compute. reflexivity. }
  split; [exact Heq|]. split; [reflexivity|].
  exact (proj2 (registered_nil_panics (command [app_v1]) Outage.no_revision
                  _ _ _ _ _ _ Heq Hin (or_introl eq_refl))).
Defined.

Lemma missing_option_blocks_registration_witness :
  EvDescribeTaskDefinition baselineArn (Ok (Some (taskDefinition [web; sidecar])))
    ∈ events run_sidecar /\
  imageOf sidecar =
    Ok {| Name := "public.example/proxy"; Tag := "latest";
          RepositoryName := "proxy"; HostName := "public.example" |} /\
  imageOptions_Get {| Value := [app_v1] |} "proxy" = None /\
  failed (outcome run_sidecar).
Proof.
  assert (EvDescribeTaskDefinition baselineArn (Ok (Some (taskDefinition [web; sidecar])))
            ∈ events run_sidecar) as Hin.
  { apply (list_elem_of_lookup_2 _ 4). vm_compute. reflexivity. }
  assert (sidecar ∈ ecs.ContainerDefinitions (taskDefinition [web; sidecar])) as Hc.
  { apply (list_elem_of_lookup_2 _ 1). reflexivity. }
  assert (imageOf sidecar =
            Ok {| Name := "public.example/proxy"; Tag := "latest";
                  RepositoryName := "proxy"; HostName := "public.example" |}) as Himg.
  { vm_compute. reflexivity. }
  assert (imageOptions_Get {| Value := [app_v1] |} "proxy" = None) as Hopt.
  { vm_compute. reflexivity. }
  split; [exact Hin|]. split; [exact Himg|]. split; [exact Hopt|].
  exact (proj1 (missing_option_blocks_registration (command [app_v1])
                  (world [web; sidecar] 1 images_app) _ _ _ _ Hin Hc Himg Hopt)).
Defined.

Lemma nested_repository_has_no_option_witness :
  parseDockerImage (ecrHost +:+ "/team/app:v1") =
    Ok {| Name := ecrHost +:+ "/team/app"; Tag := "v1";
          RepositoryName := "team/app"; HostName := ecrHost |} /\
  from_flags {| Value := [app_v1] |} /\
  imageOptions_Get {| Value := [app_v1] |} "team/app" = None.
Proof.
  assert (from_flags {| Value := [app_v1] |}) as Ht.
  { apply (from_flags_Set {| Value := [] |} "app:v1"); [constructor|].
    vm_compute. reflexivity. }
  assert ("/"%char ∈ list_ascii_of_string "team/app") as Hslash.
  { apply (list_elem_of_lookup_2 _ 4). reflexivity. }
  split; [vm_compute; reflexivity|]. split; [exact Ht|].
  exact (nested_repository_has_no_option _ _ Ht Hslash).
Defined.

Lemma flat_repository_has_option_witness :
  parseDockerImage (ecrHost +:+ "/app:v1") =
    Ok {| Name := ecrHost +:+ "/app"; Tag := "v1";
          RepositoryName := "app"; HostName := ecrHost |} /\
  regexp.MatchString optionTagRegexp "v2" = true /\
  exists t',
    imageOptions_Set {| Value := [] |} ("app" +:+ ":" +:+ "v2") = (None, t') /\
    is_Some (imageOptions_Get t' "app").
Proof.
  assert (parseDockerImage (ecrHost +:+ "/app:v1") =
            Ok {| Name := ecrHost +:+ "/app"; Tag := "v1";
                  RepositoryName := "app"; HostName := ecrHost |}) as H.
  { vm_compute. reflexivity. }
  assert ("/"%char ∉ list_ascii_of_string "app") as Hslash.
  { apply (bool_decide_unpack _). vm_compute. exact I. }
  assert (regexp.MatchString optionTagRegexp "v2" = true) as Ht.
  { vm_compute. reflexivity. }
  split; [exact H|]. split; [exact Ht|].
  exact (flat_repository_has_option _ _ {| Value := [] |} "v2" H Hslash Ht).
Defined.

Lemma unparsable_image_blocks_tagging_witness :
  EvDescribeTaskDefinition baselineArn
    (Ok (Some (taskDefinition [web; Outage.unparsable]))) ∈ events Outage.run_unparsable /\
  failed (imageOf Outage.unparsable) /\
  failed (outcome Outage.run_unparsable).
Proof.
  assert (EvDescribeTaskDefinition baselineArn
            (Ok (Some (taskDefinition [web; Outage.unparsable])))
            ∈ events Outage.run_unparsable) as Hin.
  { apply (list_elem_of_lookup_2 _ 4). vm_compute. reflexivity. }
  assert (Outage.unparsable
            ∈ ecs.ContainerDefinitions (taskDefinition [web; Outage.unparsable])) as Hc.
  { apply (list_elem_of_lookup_2 _ 1). reflexivity. }
  assert (failed (imageOf Outage.unparsable)) as Himg.
  { vm_compute. exact I. }
  split; [exact Hin|]. split; [exact Himg|].
  exact (proj1 (unparsable_image_blocks_tagging (command [app_v1])
                  (world [web; Outage.unparsable] 1 images_app) _ _ _ Hin Hc Himg)).
Defined.

End Cases.
